(** * EAG-V2: the policy-gated sandbox, the memory scorer, the step-proposal
      validator and the control loop

    A shallow embedding of
      - Week-9/modules/heuristics_code.py   (module [Heuristics]),
      - Week-9/modules/action.py            (module [Action]),
      - Week-9/modules/historical_index.py  (module [HistoricalIndex]),
      - Week-10/decision/decision.py        (module [DecisionM]),
      - Week-10/agent/agent_loop2.py        (module [AgentLoop]).

    Python strings are lists of Unicode code points.  What CPython itself
    supplies (the Unicode tables behind [str.lower], [\s], [\w] and
    [re.IGNORECASE]; [ast.parse]; the meaning of the text handed to [exec];
    [json.loads]; [datetime.fromisoformat]) is taken as a parameter, so every
    theorem holds for whatever those do.  Floating-point scores are read as
    real numbers. *)

From Stdlib Require Import List String Ascii NArith ZArith Bool Lia Reals Lra.
From stdpp Require Import gmap list.
Import ListNotations.

(* ===================================================================== *)
(** * Python strings *)
(* ===================================================================== *)

Definition char := N.
Definition str := list char.

(** An ASCII literal as a Python string. *)
Definition lit (x : string) : str := map N_of_ascii (list_ascii_of_string x).

Definition str_eqb (a b : str) : bool := bool_decide (a = b).

(** The tables of the Unicode database that the code reaches through
    [str.lower()], [str.strip()] and the [re] module, outside ASCII. *)
Record unicode := {
  u_lower : str -> char -> str -> str;
                                  (* what [lower()] makes of a code point
                                     >= 128 between the texts before and
                                     after it (the final sigma depends on
                                     them) *)
  u_space : char -> bool;         (* [c.isspace()] for a code point >= 128 *)
  u_word  : char -> bool;         (* [\w] for a code point >= 128 *)
  u_fold  : char -> char -> bool  (* extra IGNORECASE equivalences *)
}.

(** A database that knows nothing outside ASCII; used for examples. *)
Definition ascii_only : unicode :=
  {| u_lower := fun _ c _ => [c]; u_space := fun _ => false;
     u_word := fun _ => false; u_fold := fun _ _ => false |}.

Definition is_ascii (c : char) : bool := (c <? 128)%N.

Definition ascii_lower (c : char) : char :=
  if ((65 <=? c) && (c <=? 90))%N then (c + 32)%N else c.

Definition NL : char := 10%N.

Section Strings.
Variable U : unicode.

(** [s.lower()], from the position after [before]: character by
    character; a code point may lower to several. *)
Fixpoint lower_from (before s : str) : str :=
  match s with
  | [] => []
  | c :: s' =>
      (if is_ascii c then [ascii_lower c] else u_lower U before c s')
        ++ lower_from (before ++ [c]) s'
  end.

Definition lower (s : str) : str := lower_from [] s.

(** [c.isspace()], also the class [\s] of a str pattern. *)
Definition is_space (c : char) : bool :=
  if is_ascii c
  then ((9 <=? c) && (c <=? 13) || (28 <=? c) && (c <=? 32))%N
  else u_space U c.

(** The class [\w] of a str pattern. *)
Definition is_word (c : char) : bool :=
  if is_ascii c
  then ((48 <=? c) && (c <=? 57) || (65 <=? c) && (c <=? 90)
        || (c =? 95) || (97 <=? c) && (c <=? 122))%N
  else u_word U c.

(** A pattern character [p] against a text character [c] under
    [re.IGNORECASE]: equal up to the case of ASCII letters, or, for a text
    character outside ASCII, equivalent by the Unicode tables (the Kelvin
    sign for k, the long s for s). *)
Definition ieq (p c : char) : bool :=
  (ascii_lower p =? ascii_lower c)%N || negb (is_ascii c) && u_fold U p c.

Fixpoint lstrip (s : str) : str :=
  match s with
  | c :: s' => if is_space c then lstrip s' else s
  | [] => []
  end.

(** [s.strip()] *)
Definition strip (s : str) : str := rev (lstrip (rev (lstrip s))).
End Strings.

(** [sep.join(parts)] *)
Fixpoint join (sep : str) (parts : list str) : str :=
  match parts with
  | [] => []
  | [p] => p
  | p :: rest => p ++ sep ++ join sep rest
  end.

(** [s.split('\n')] *)
Fixpoint split_lines_aux (cur : str) (s : str) : list str :=
  match s with
  | [] => [rev cur]
  | c :: s' => if (c =? NL)%N then rev cur :: split_lines_aux [] s'
               else split_lines_aux (c :: cur) s'
  end.
Definition split_lines (s : str) : list str := split_lines_aux [] s.

Fixpoint starts_with (w s : str) : bool :=
  match w, s with
  | [], _ => true
  | a :: w', b :: s' => (a =? b)%N && starts_with w' s'
  | _ :: _, [] => false
  end.

(** [w in s] for two strings. *)
Fixpoint contains (w s : str) : bool :=
  starts_with w s
  || match s with
     | [] => false
     | _ :: s' => contains w s'
     end.

(** [s[:k]]: a negative [k] counts from the end. *)
Definition up_to (k : Z) (s : str) : str :=
  if (0 <=? k)%Z then firstn (Z.to_nat k) s
  else firstn (Z.to_nat (Z.of_nat (length s) + k)) s.

(** [d.get(key, default)] for a key that holds a string when present. *)
Definition get_or (f : option str) (default : str) : str :=
  match f with Some s => s | None => default end.

(** How often [x] is in [l]: a value of [Counter(l)]. *)
Fixpoint count (x : str) (l : list str) : nat :=
  match l with
  | [] => 0
  | y :: l' => (if str_eqb y x then 1 else 0) + count x l'
  end.

(** [s] has an occurrence of [w]. *)
Definition occurs (w s : str) : Prop := exists pre post, s = pre ++ w ++ post.

(* ===================================================================== *)
(** * The fragment of Python's [re] that the sources use *)
(* ===================================================================== *)

(** Every quantifier in the sources ranges over a single character class,
    so a pattern is a sequence of atoms and the backtracking search of [re]
    is a structural recursion: a greedy [Many] first tries to take one more
    character and falls back to the rest of the pattern, a lazy one the
    other way round. *)
Module Re.

Inductive atom :=
| One (p : char -> bool)                    (* one character of a class *)
| Many (p : char -> bool) (greedy : bool)   (* class* or class*? *)
| Opt (p : char -> bool)                    (* class? *)
| Bol                                       (* ^ under re.MULTILINE *)
| Eol                                       (* $ under re.MULTILINE *)
| WordB (w : char -> bool)                  (* \b, for the word class w *)
| NotAhead (t : str)                        (* (?!t) for a literal t *)
| GOpen | GClose.                           (* the parentheses of group 1 *)

Definition regex := list atom.

(** A successful match: its length and the bounds of group 1, all counted
    from the start of the match. *)
Record found := { m_len : nat; g_from : nat; g_to : nat }.

Definition at_word (w : char -> bool) (c : option char) : bool :=
  match c with Some c => w c | None => false end.

Fixpoint m (re : regex) (prev : option char) (s : str) (n gs ge : nat)
  : option found :=
  match re with
  | [] => Some {| m_len := n; g_from := gs; g_to := ge |}
  | One p :: re' =>
      match s with
      | c :: s' => if p c then m re' (Some c) s' (S n) gs ge else None
      | [] => None
      end
  | Many p greedy :: re' =>
      (fix many (prev : option char) (s : str) (n : nat) {struct s} :=
         match s with
         | c :: s' =>
             if p c then
               if greedy then
                 match many (Some c) s' (S n) with
                 | Some r => Some r
                 | None => m re' prev s n gs ge
                 end
               else
                 match m re' prev s n gs ge with
                 | Some r => Some r
                 | None => many (Some c) s' (S n)
                 end
             else m re' prev s n gs ge
         | [] => m re' prev s n gs ge
         end) prev s n
  | Opt p :: re' =>
      match s with
      | c :: s' =>
          if p c then
            match m re' (Some c) s' (S n) gs ge with
            | Some r => Some r
            | None => m re' prev s n gs ge
            end
          else m re' prev s n gs ge
      | [] => m re' prev s n gs ge
      end
  | Bol :: re' =>
      match prev with
      | None => m re' prev s n gs ge
      | Some c => if (c =? NL)%N then m re' prev s n gs ge else None
      end
  | Eol :: re' =>
      match s with
      | [] => m re' prev s n gs ge
      | c :: _ => if (c =? NL)%N then m re' prev s n gs ge else None
      end
  | WordB w :: re' =>
      if xorb (at_word w prev) (at_word w (head s))
      then m re' prev s n gs ge else None
  | NotAhead t :: re' =>
      if starts_with t s then None else m re' prev s n gs ge
  | GOpen :: re' => m re' prev s n n ge
  | GClose :: re' => m re' prev s n gs n
  end.

(** [re.match]: the pattern at the start of the string. *)
Definition match_ (re : regex) (s : str) : option found :=
  m re None s 0 0 0.

(** [re.search]: the first position where the pattern matches, with the
    offset of that position. *)
Fixpoint search_from (re : regex) (prev : option char) (s : str) (i : nat)
  : option (nat * found) :=
  match m re prev s 0 0 0 with
  | Some r => Some (i, r)
  | None =>
      match s with
      | [] => None
      | c :: s' => search_from re (Some c) s' (S i)
      end
  end.

Definition search (re : regex) (s : str) : option (nat * found) :=
  search_from re None s 0.

Definition slice (from to : nat) (s : str) : str :=
  firstn (to - from) (skipn from s).

(** [re.findall] for a pattern with one group (the texts of the group), or
    with none when [whole] is set (the texts of the matches).  [skip]
    counts the characters still covered by the last match. *)
Fixpoint findall_from (whole : bool) (re : regex) (prev : option char)
    (s : str) (skip : nat) : list str :=
  match skip with
  | S k =>
      match s with
      | [] => []
      | c :: s' => findall_from whole re (Some c) s' k
      end
  | O =>
      match m re prev s 0 0 0 with
      | Some r =>
          (if whole then firstn (m_len r) s else slice (g_from r) (g_to r) s)
          :: match s with
             | [] => []
             | c :: s' => findall_from whole re (Some c) s' (m_len r - 1)
             end
      | None =>
          match s with
          | [] => []
          | c :: s' => findall_from whole re (Some c) s' 0
          end
      end
  end.

Definition findall (re : regex) (s : str) : list str :=
  findall_from false re None s 0.
Definition findall_whole (re : regex) (s : str) : list str :=
  findall_from true re None s 0.

(** [re.sub(re, '', s)] for a pattern that never matches the empty
    string. *)
Fixpoint delete_from (re : regex) (prev : option char) (s : str)
    (skip : nat) : str :=
  match s with
  | [] => []
  | c :: s' =>
      match skip with
      | S k => delete_from re (Some c) s' k
      | O =>
          match m re prev s 0 0 0 with
          | Some r =>
              match m_len r with
              | O => c :: delete_from re (Some c) s' 0
              | S k => delete_from re (Some c) s' k
              end
          | None => c :: delete_from re (Some c) s' 0
          end
      end
  end.

Definition delete_all (re : regex) (s : str) : str :=
  delete_from re None s 0.

(** Pattern builders. *)
Definition chr (c : char) : atom := One (N.eqb c).
Definition text (t : string) : regex := map chr (lit t).
Definition plus (p : char -> bool) : regex := [One p; Many p true].
Definition star (p : char -> bool) : regex := [Many p true].
Definition any_but_newline (c : char) : bool := negb (c =? NL)%N.

End Re.


(* ===================================================================== *)
(** * Python syntax trees, as [ast.parse] returns them *)
(* ===================================================================== *)

(** Only the node classes that [SolveFunctionLinter] tells apart are kept
    apart; every other class is [Other].  The children of a node are its
    child nodes in field order, which is the order in which
    [NodeVisitor.generic_visit] visits them and the set over which
    [ast.walk] ranges.  The first field of a [Call] is [func]; its [args]
    here are the nodes of its fields [args] and [keywords].  The context
    nodes of names ([Load], [Store], [Del]), which have no children and no
    visitor method, are left out. *)
#[local] Unset Elimination Schemes.
Inductive node :=
| Module_ (body : list node)
| FunctionDef (name : str) (children : list node)
| AsyncFunctionDef (name : str) (children : list node)
| ClassDef (name : str) (children : list node)
| Import
| ImportFrom
| Call (func : node) (args : list node)
| Name (id : str)
| While (children : list node)
| Break
| Other (children : list node).
#[local] Set Elimination Schemes.

Inductive parse_result :=
| Parsed (tree : node)
| SyntaxError (msg : str)         (* [ast.parse] raises SyntaxError *)
| ParseFailure (msg : str).       (* it raises anything else *)

(* ===================================================================== *)
(** * modules/heuristics_code.py *)
(* ===================================================================== *)

Module Heuristics.
Import Re.

(** A tool as the planner lists it; either key may be missing. *)
Record tool_info := { t_name : option str; t_description : option str }.

Section Heuristics.
Variable U : unicode.
Variable ast_parse : str -> parse_result.
Variable ratio : str -> str -> R.   (* SequenceMatcher(None, a, b).ratio() *)

(** === HEURISTIC 1: Query Length Guard === *)
Definition apply_query_length_guard (query : str) (max_length : Z) : str :=
  if (Z.of_nat (length query) <=? max_length)%Z then query
  else
    let truncated :=
      up_to (max_length - 50) query ++ lit "...[truncated for length]" in
    truncated.

(** === HEURISTIC 2: Tool Confidence Scoring === *)
Definition score_tool_confidence (tool_name query tool_description : str)
    (recent_successes : list str) (threshold : R) : R :=
  let similarity := ratio (lower U query) (lower U tool_description) in
  let success_bonus :=
    if bool_decide (tool_name ∈ recent_successes) then (3 / 10)%R else 0%R in
  let score := (similarity * (7 / 10) + success_bonus)%R in
  score.

Definition filter_tools_by_confidence (tools : list tool_info) (query : str)
    (recent_successes : list str) (threshold : R) : list tool_info :=
  let filtered :=
    List.filter
      (fun tool =>
         let tool_name := get_or (t_name tool) [] in
         let tool_desc := get_or (t_description tool) [] in
         let score :=
           score_tool_confidence tool_name query tool_desc recent_successes
             threshold in
         if Rle_dec threshold score then true else false)
      tools in
  match filtered with
  | [] => tools            (* Fallback to all if none pass *)
  | _ :: _ => filtered
  end.

(** A literal of a pattern compiled with [re.IGNORECASE]. *)
Definition ic (t : string) : regex := map (fun c => One (ieq U c)) (lit t).

(** === HEURISTIC 3: Unsafe Argument Filter === *)
Definition UNSAFE_PATTERNS : list regex :=
  [ ic ".." ++ [One (ieq U 47%N); Many (ieq U 47%N) true];   (* \.\./+ *)
    ic "<script";
    ic "</script";
    ic "delete" ++ plus (is_space U) ++ ic "from";       (* delete\s+from *)
    ic "drop" ++ plus (is_space U) ++ ic "table";        (* drop\s+table *)
    ic "rm" ++ plus (is_space U) ++ ic "-rf";            (* rm\s+-rf *)
    ic "eval(";
    ic "exec(";
    ic "__import__";
    ic "system(";
    ic "popen(" ].

Definition contains_unsafe_arguments (code : str) : bool :=
  let code_lower := lower U code in
  existsb (fun pattern => bool_decide (is_Some (search pattern code_lower)))
          UNSAFE_PATTERNS.

(** === HEURISTIC 4 === *)
Definition SANDBOX_TIMEOUT_SECONDS : nat := 30.

(** === HEURISTIC 5: Tool Diversity Limit === *)
Definition quote (c : char) : bool := ((c =? 39) || (c =? 34))%N.

(** mcp\.call_tool\(['"](\w+)['"] *)
Definition TOOL_CALL : regex :=
  text "mcp.call_tool(" ++ [One quote; GOpen] ++ plus (is_word U)
    ++ [GClose; One quote].

Definition count_distinct_tools (code : str) : nat :=
  let matches := findall TOOL_CALL code in
  size (list_to_set matches : gset str).

Definition exceeds_tool_diversity_limit (code : str) (max_tools : nat) : bool :=
  (max_tools <? count_distinct_tools code)%nat.

(** === HEURISTIC 6: Output Structure Enforcement === *)
Definition FENCE_OPEN : regex :=                         (* ```[\w]*\n? *)
  text "```" ++ star (is_word U) ++ [Opt (N.eqb NL)].
Definition FENCE : regex := text "```".
Definition IMPORT_LINE : regex :=                        (* ^import\s+.*$ *)
  [Bol] ++ text "import" ++ plus (is_space U)
    ++ [Many any_but_newline true; Eol].
Definition FROM_IMPORT_LINE : regex :=              (* ^from\s+.*import.*$ *)
  [Bol] ++ text "from" ++ plus (is_space U) ++ [Many any_but_newline true]
    ++ text "import" ++ [Many any_but_newline true; Eol].
Definition OTHER_DEF : regex :=                     (* ^\s*def\s+(?!solve) *)
  [Bol; Many (is_space U) true] ++ text "def" ++ plus (is_space U)
    ++ [NotAhead (lit "solve")].

Fixpoint drop_defs (lines : list str) (skip_def : bool) : list str :=
  match lines with
  | [] => []
  | line :: rest =>
      let skip_def :=
        if bool_decide (is_Some (match_ OTHER_DEF line)) then true
        else if skip_def && negb (starts_with (lit " ") line)
                         && negb (starts_with [9%N] line) then false
        else skip_def in
      if skip_def then drop_defs rest skip_def
      else line :: drop_defs rest skip_def
  end.

Definition clean_output_structure (result : str) : str :=
  let result := delete_all FENCE_OPEN result in
  let result := delete_all FENCE result in
  let result := delete_all IMPORT_LINE result in
  let result := delete_all FROM_IMPORT_LINE result in
  let lines := split_lines result in
  let cleaned_lines := drop_defs lines false in
  strip U (join [NL] cleaned_lines).

(** === HEURISTIC 7: Repeat Tool-Call Guard === *)
Definition has_excessive_repeats (code : str) (max_repeats : nat) : bool :=
  let matches := findall TOOL_CALL code in
  existsb (fun t => (max_repeats <? count t matches)%nat)
          matches.

(** === HEURISTIC 8: Memory Pollution Guard ===
    [tool_result] is the text of [str(tool_result)]. *)
Definition should_store_in_memory (tool_result : str) (success : bool)
    (existing_results : list str) : bool :=
  if negb success then false
  else
    let result_str := strip U tool_result in
    if str_eqb result_str [] || str_eqb result_str (lit "None")
       || str_eqb result_str []
    then false
    else if bool_decide (result_str ∈ existing_results) then false
    else if contains (lit "error") (lower U result_str)
            || contains (lit "failed") (lower U result_str)
    then false
    else true.

(** === HEURISTIC 9: Server Availability Check === *)
Definition filter_available_servers (selected_servers available_servers : list str)
  : list str :=
  let filtered :=
    List.filter (fun s => bool_decide (s ∈ available_servers))
                selected_servers in
  match filtered with
  | [] => available_servers
  | _ :: _ => filtered
  end.

(** === HEURISTIC 10: AST-Based solve() Linter === *)
Record linter := { errors : list str; in_solve : bool }.

Definition report (e : str) (l : linter) : linter :=
  {| errors := errors l ++ [e]; in_solve := in_solve l |}.
Definition set_in_solve (b : bool) (l : linter) : linter :=
  {| errors := errors l; in_solve := b |}.

Definition dangerous : list str :=
  [lit "eval"; lit "exec"; lit "compile"; lit "__import__"; lit "open";
   lit "system"].

(** [ast.walk(node)] meets a [Break]. *)
Fixpoint has_break (n : node) : bool :=
  let any := fix any (l : list node) : bool :=
    match l with [] => false | x :: l' => has_break x || any l' end in
  match n with
  | Break => true
  | Module_ c | FunctionDef _ c | AsyncFunctionDef _ c | ClassDef _ c
  | While c | Other c => any c
  | Call f a => has_break f || any a
  | Import | ImportFrom | Name _ => false
  end.

(** [linter.visit(node)]: a class with a [visit_X] method gets it, any
    other gets [generic_visit]. *)
Fixpoint visit (n : node) (l : linter) {struct n} : linter :=
  let generic_visit := fix generic_visit (c : list node) (l : linter) : linter :=
    match c with [] => l | x :: c' => generic_visit c' (visit x l) end in
  match n with
  | FunctionDef name c =>
      if str_eqb name (lit "solve") then
        set_in_solve false (generic_visit c (set_in_solve true l))
      else if in_solve l then
        report (lit "Nested function definition not allowed: " ++ name) l
      else l
  | Import | ImportFrom =>
      if in_solve l
      then report (lit "Import statements not allowed in solve()") l
      else l
  | ClassDef name _ =>
      if in_solve l
      then report (lit "Class definitions not allowed: " ++ name) l
      else l
  | Call func args =>
      let l :=
        if in_solve l then
          match func with
          | Name id =>
              if bool_decide (id ∈ dangerous)
              then report (lit "Dangerous function call not allowed: " ++ id) l
              else l
          | _ => l
          end
        else l in
      generic_visit args (visit func l)
  | While c =>
      let l :=
        if in_solve l then
          if has_break n then l
          else report (lit "While loop without break statement (potential infinite loop)") l
        else l in
      generic_visit c l
  | Module_ c | AsyncFunctionDef _ c | Other c => generic_visit c l
  | Name _ | Break => l
  end.

Definition lint_solve_function (code : str) : bool * list str :=
  match ast_parse code with
  | Parsed tree =>
      let linter := visit tree {| errors := []; in_solve := false |} in
      match errors linter with
      | [] => (true, [])
      | _ :: _ => (false, errors linter)
      end
  | SyntaxError e => (false, [lit "Syntax error: " ++ e])
  | ParseFailure e => (false, [lit "AST parsing error: " ++ e])
  end.

(** === Utility: Apply All Heuristics to Code === *)
Definition validate_solve_code (code : str) : bool * list str :=
  let errors := [] in
  let errors :=
    if contains_unsafe_arguments code
    then errors ++ [lit "Code contains unsafe patterns"] else errors in
  let errors :=
    if exceeds_tool_diversity_limit code 3
    then errors ++ [lit "Code uses more than 3 distinct tools"] else errors in
  let errors :=
    if has_excessive_repeats code 2
    then errors ++ [lit "Code calls the same tool more than 2 times"]
    else errors in
  let '(is_valid, ast_errors) := lint_solve_function code in
  let errors := if is_valid then errors else errors ++ ast_errors in
  (bool_decide (length errors = 0%nat), errors).

End Heuristics.
End Heuristics.

(* ===================================================================== *)
(** * modules/action.py *)
(* ===================================================================== *)

Module Action.

(** ** What the sandboxed text can do *)

(** The classes of exception that the two [except] clauses of
    [run_python_sandbox] tell apart. *)
Inductive exc_class :=
| TimeoutErr        (* asyncio.TimeoutError *)
| OtherException    (* any other subclass of Exception *)
| NotAnException.   (* a BaseException outside Exception: SystemExit,
                       KeyboardInterrupt, asyncio.CancelledError *)

(** An exception: its class and [str(e)]. *)
Record pyexc := { exc_class_of : exc_class; exc_text : str }.

(** How a call ends. *)
Inductive outcome (A : Type) :=
| Returned (a : A)
| Raised (e : pyexc)
| NeverReturns.
Arguments Returned {A} a.
Arguments Raised {A} e.
Arguments NeverReturns {A}.

(** The values a [solve()] can return, as far as the result formatting
    looks into them. *)
#[local] Unset Elimination Schemes.
Inductive pyvalue :=
| PStr (s : str)
| PDict (items : list (pyvalue * pyvalue))
| PList (elems : list pyvalue)
| PObj (shown : str).     (* any other object, with the text of str() *)
#[local] Set Elimination Schemes.

(** What [await mcp.call_tool(...)] hands back to the awaiting code. *)
Inductive call_result :=
| Gave (v : pyvalue)
| Threw (e : pyexc).

(** The body of an [async def solve()], up to what it does with the
    gateway handle [mcp]: it returns, raises, awaits something that does
    not finish before the deadline, runs on without ever awaiting, or
    awaits [mcp.call_tool(tool, input)] and goes on with what that gave
    or threw ([k] is the rest of the body, [try]/[except] included).
    The plan is taken to reach the dispatcher through [mcp.call_tool]
    only, and to leave the counter of the handle alone. *)
Inductive coro :=
| Return (v : pyvalue)
| Raise (e : pyexc)
| Sleep
| Spin
| CallTool (tool : str) (input : pyvalue) (k : call_result -> coro).

Inductive solve_fn :=
| SyncFn (r : outcome pyvalue)   (* [def solve()] and what calling it does *)
| AsyncFn (body : coro).         (* [async def solve()] *)

(** What [exec(compile(code, ...), sandbox.__dict__)] does: it raises, it
    runs forever, or it ends and leaves [solve] bound or not. *)
Inductive module_result :=
| ExecRaises (e : pyexc)
| ExecNeverReturns
| Defines (solve : option solve_fn).

(** The Python implementation under the sandbox. *)
Record python := {
  ast_parse : str -> parse_result;
  exec_module : str -> module_result;
  container_str : pyvalue -> str;          (* str() of a dict or a list *)
  json_dumps : pyvalue -> pyexc + str
}.

(** What the outside world sees of a run. *)
Inductive event :=
| Exec (code : str)                         (* the text was compiled and run *)
| Dispatch (tool : str) (input : pyvalue).  (* dispatcher.call_tool was called *)

(** What [await dispatcher.call_tool(tool, input)] does. *)
Inductive reply :=
| Answer (v : pyvalue)
| Fail (e : pyexc)
| Pending.        (* no answer before the deadline *)

(** The real dispatcher; it may depend on everything that happened
    before. *)
Definition dispatcher := list event -> str -> pyvalue -> reply.

(** The [context] argument: [None], or an object that has the attribute
    [actual_tools_used] or not. *)
Definition context := option (option (list str)).

Definition MAX_TOOL_CALLS_PER_PLAN : nat := 10.

(** ** class SandboxMCP *)
Record SandboxMCP := { call_count : nat; tools_called : list str }.

Definition quota_error : pyexc :=
  {| exc_class_of := OtherException;          (* RuntimeError *)
     exc_text := lit "Exceeded max tool calls (10) in solve() plan." |}.

(** [SandboxMCP.call_tool]: the answer for the awaiting code ([None] when
    the dispatcher stays pending), the handle and the events after it. *)
Definition call_tool (d : dispatcher) (self : SandboxMCP) (log : list event)
    (tool_name : str) (input_dict : pyvalue)
  : option call_result * SandboxMCP * list event :=
  let self := {| call_count := call_count self + 1;
                 tools_called := tools_called self |} in
  if (MAX_TOOL_CALLS_PER_PLAN <? call_count self)%nat then
    (Some (Threw quota_error), self, log)
  else
    let self := {| call_count := call_count self;
                   tools_called := tools_called self ++ [tool_name] |} in
    let log' := log ++ [Dispatch tool_name input_dict] in
    match d log tool_name input_dict with
    | Answer v => (Some (Gave v), self, log')
    | Fail e => (Some (Threw e), self, log')
    | Pending => (None, self, log')
    end.

Definition timeout_error : pyexc :=
  {| exc_class_of := TimeoutErr; exc_text := [] |}.

(** [await asyncio.wait_for(solve_fn(), timeout=SANDBOX_TIMEOUT_SECONDS)] *)
Fixpoint wait_for (d : dispatcher) (body : coro) (self : SandboxMCP)
    (log : list event) : outcome pyvalue * SandboxMCP * list event :=
  match body with
  | Return v => (Returned v, self, log)
  | Raise e => (Raised e, self, log)
  | Sleep => (Raised timeout_error, self, log)
  | Spin => (NeverReturns, self, log)
  | CallTool tool input k =>
      match call_tool d self log tool input with
      | (Some r, self, log) => wait_for d (k r) self log
      | (None, self, log) => (Raised timeout_error, self, log)
      end
  end.

Section Sandbox.
Variable U : unicode.
Variable P : python.

Definition py_str (v : pyvalue) : str :=
  match v with
  | PStr s => s
  | PObj shown => shown
  | PDict _ | PList _ => container_str P v
  end.

(** [d["result"]] when ["result" in d] *)
Fixpoint dict_result (items : list (pyvalue * pyvalue)) : option pyvalue :=
  match items with
  | [] => None
  | (PStr k, v) :: rest =>
      if str_eqb k (lit "result") then Some v else dict_result rest
  | _ :: rest => dict_result rest
  end.

(** # Clean result formatting *)
Definition format_result (result : pyvalue) : outcome str :=
  match result with
  | PDict items =>
      match dict_result items with
      | Some v => Returned (py_str v)
      | None =>
          match json_dumps P result with
          | inr text => Returned text
          | inl e => Raised e
          end
      end
  | PList elems => Returned (join (lit " ") (map py_str elems))
  | _ => Returned (py_str result)
  end.

Record run := {
  result : outcome str;          (* what the caller gets *)
  events : list event;           (* what happened outside *)
  handle : SandboxMCP;           (* sandbox_mcp at the end *)
  context_after : context
}.

Definition no_handle : SandboxMCP := {| call_count := 0; tools_called := [] |}.

(** The body of the [try]. *)
Definition try_body (code : str) (d : dispatcher) (ctx : context) : run :=
  let sandbox_mcp := no_handle in
  let log := [Exec code] in
  match exec_module P code with
  | ExecRaises e => Build_run (Raised e) log sandbox_mcp ctx
  | ExecNeverReturns => Build_run NeverReturns log sandbox_mcp ctx
  | Defines None =>
      Build_run
        (Raised {| exc_class_of := OtherException;     (* ValueError *)
                   exc_text := lit "No solve() function found in plan." |})
        log sandbox_mcp ctx
  | Defines (Some solve_fn) =>
      let '(res, sandbox_mcp, log) :=
        match solve_fn with
        | AsyncFn body => wait_for d body sandbox_mcp log
        | SyncFn r => (r, sandbox_mcp, log)
        end in
      match res with
      | Raised e => Build_run (Raised e) log sandbox_mcp ctx
      | NeverReturns => Build_run NeverReturns log sandbox_mcp ctx
      | Returned v =>
          match format_result v with
          | Raised e => Build_run (Raised e) log sandbox_mcp ctx
          | NeverReturns => Build_run NeverReturns log sandbox_mcp ctx
          | Returned result_str =>
              let result_str :=
                Heuristics.clean_output_structure U result_str in
              let ctx :=
                match ctx with
                | None => None
                | Some None => Some (Some (tools_called sandbox_mcp))
                | Some (Some used) =>
                    Some (Some (used ++ tools_called sandbox_mcp))
                end in
              Build_run (Returned result_str) log sandbox_mcp ctx
          end
      end
  end.

Definition run_python_sandbox (code : str) (d : dispatcher) (ctx : context)
  : run :=
  if Heuristics.contains_unsafe_arguments U code then
    Build_run (Returned (lit "[sandbox error: unsafe code patterns detected]"))
              [] no_handle ctx
  else
    let '(is_valid, errors) :=
      Heuristics.validate_solve_code U (ast_parse P) code in
    if negb is_valid then
      Build_run
        (Returned (lit "[sandbox error: validation failed - "
                    ++ join (lit "; ") errors ++ lit "]"))
        [] no_handle ctx
    else
      let r := try_body code d ctx in
      match result r with
      | Raised e =>
          match exc_class_of e with
          | TimeoutErr =>
              Build_run (Returned (lit "[sandbox error: execution timeout]"))
                        (events r) (handle r) (context_after r)
          | OtherException =>
              Build_run
                (Returned (lit "[sandbox error: " ++ exc_text e ++ lit "]"))
                (events r) (handle r) (context_after r)
          | NotAnException => r
          end
      | _ => r
      end.

End Sandbox.
End Action.

(* ===================================================================== *)
(** * modules/historical_index.py *)
(* ===================================================================== *)

Module HistoricalIndex.
Import Re.

(** ** HistoricalRecord *)

(** The [timestamp] of a stored record: the key is missing, or it holds
    [null], a string or a number. *)
Inductive timestamp_field :=
| TsAbsent
| TsNull
| TsText (s : str)
| TsNumber (x : R).

(** An [Optional[str]] field that may also be missing. *)
Inductive field :=
| Absent
| Null
| Text (s : str).

Record item := {
  timestamp : timestamp_field;
  user : option str;            (* [None]: the key is missing *)
  assistant : option str;
  tool : field;
  success : option bool;
  result : field
}.

(** [datetime.fromisoformat(s)], as far as the code uses it: the POSIX
    time of the parsed instant and its day as [%Y-%m-%d]; [None] where
    parsing (or [.timestamp()]) raises. *)
Record calendar := {
  posix_time : str -> option R;
  day_text : str -> option str
}.

(** [bool(item.get('tool'))] and the like *)
Definition truthy (f : field) : bool :=
  match f with
  | Text (_ :: _) => true
  | _ => false
  end.

Definition timestamp_truthy (t : timestamp_field) : bool :=
  match t with
  | TsText (_ :: _) => true
  | TsNumber x => if Req_dec_T x 0%R then false else true
  | _ => false
  end.

Definition get (f : option str) (default : str) : str :=
  match f with Some s => s | None => default end.

(** [s.replace('Z', '+00:00')] *)
Definition replace_Z (s : str) : str :=
  flat_map (fun c => if (c =? 90)%N then lit "+00:00" else [c]) s.

Definition stop_words : list str :=
  map lit
    ["the"; "a"; "an"; "and"; "or"; "but"; "in"; "on"; "at"; "to"; "for";
     "of"; "with"; "by"; "from"; "as"; "is"; "was"; "are"; "were"; "be";
     "been"; "being"; "have"; "has"; "had"; "do"; "does"; "did"; "will";
     "would"; "should"; "could"; "may"; "might"; "must"; "can"; "this";
     "that"; "these"; "those"; "i"; "you"; "he"; "she"; "it"; "we"; "they"]%string.

(** The largest argument for which [math.exp] does not raise
    OverflowError: the logarithm of the largest double, to 15 digits. *)
Definition EXP_MAX : R := (709782712893384 / 1000000000000)%R.

Section Scorer.
Local Open Scope R_scope.
Variable U : unicode.
Variable K : calendar.
Variable format_2f : R -> str.      (* f"{score:.2f}" *)

(** \b\w+\b *)
Definition WORD : regex :=
  [WordB (is_word U)] ++ plus (is_word U) ++ [WordB (is_word U)].

Definition extract_query_terms (user_input : str) : list str :=
  let terms := findall_whole WORD (lower U user_input) in
  List.filter
    (fun t => negb (bool_decide (t ∈ stop_words)) && (2 <? length t)%nat)
    terms.

Definition simple_cosine_similarity (text1 text2 : str) : R :=
  let words1 : gset str := list_to_set (extract_query_terms text1) in
  let words2 : gset str := list_to_set (extract_query_terms text2) in
  if bool_decide (words1 = ∅) || bool_decide (words2 = ∅) then 0
  else
    let intersection := words1 ∩ words2 in
    let union := words1 ∪ words2 in
    if bool_decide (union = ∅) then 0
    else INR (size intersection) / INR (size union).

(** f"{item.get('user', '')} {item.get('assistant', '')}".lower() *)
Definition item_text (it : item) : str :=
  lower U (get (user it) [] ++ lit " " ++ get (assistant it) []).

(** The instant the record was written, [None] where the [try] of
    the recency block raises before [age_hours] is computed. *)
Definition item_time (it : item) : option R :=
  match timestamp it with
  | TsAbsent => posix_time K (replace_Z [])
  | TsText s => posix_time K (replace_Z s)
  | TsNumber x => Some x
  | TsNull => None                  (* float(None) raises TypeError *)
  end.

Definition age_hours (current_time item_time : R) : R :=
  (current_time - item_time) / 3600.

(** # 1. RECENCY (0.30) - exponential decay *)
Definition recency (it : item) (current_time : R) : R :=
  match item_time it with
  | Some t =>
      let x := - age_hours current_time t / 168 in
      if Rle_dec x EXP_MAX then exp x * (30 / 100)
      else 5 / 100                  (* math.exp raises OverflowError *)
  | None => 5 / 100
  end.

(** # 2. SEMANTIC RELEVANCE (0.30) *)
Definition semantic (it : item) (query_terms : list str) : R :=
  let query_text := join (lit " ") query_terms in
  simple_cosine_similarity query_text (item_text it) * (30 / 100).

(** # 3. TOOL SUCCESS SIGNAL (0.15) *)
Definition tool_signal (it : item) : R :=
  if match success it with Some b => b | None => false end
     && truthy (tool it) then 15 / 100
  else if truthy (tool it) then 5 / 100
  else 0.

(** # 4. PROVENANCE (0.10) *)
Definition provenance (it : item) : R :=
  (if timestamp_truthy (timestamp it) then 3 / 100 else 0)
  + (if truthy (tool it) then 4 / 100 else 0)
  + (if truthy (result it) then 3 / 100 else 0).

(** # 5. LENGTH PENALTY (0.10) *)
Definition length_penalty (it : item) : R :=
  let text_length := length (item_text it) in
  if (text_length <? 200)%nat then 10 / 100
  else if (text_length <? 500)%nat then 7 / 100
  else if (text_length <? 1000)%nat then 4 / 100
  else 1 / 100.

(** # 6. DIVERSITY BONUS (0.05) *)
Definition is_diverse (it : item) (seen_texts : gset str) : bool :=
  negb (existsb
          (fun seen_text =>
             if Rlt_dec (8 / 10)
                  (simple_cosine_similarity (item_text it) seen_text)
             then true else false)
          (elements seen_texts)).

Definition diversity (it : item) (seen_texts : gset str) : R :=
  if is_diverse it seen_texts then 5 / 100 else 0.

Definition calculate_historical_score (it : item) (query_terms : list str)
    (current_time : R) (seen_texts : gset str) : R :=
  0 + recency it current_time + semantic it query_terms + tool_signal it
    + provenance it + length_penalty it + diversity it seen_texts.

(** ** compress_to_bullets *)

Definition dash : str := [32; 8212; 32]%N.     (* " — " *)

(** s[:n] + "..." if len(s) > n else s *)
Definition clip (n : nat) (s : str) : str :=
  if (n <? length s)%nat then firstn n s ++ lit "..." else s.

Definition date_str (it : item) : str :=
  let parsed :=
    match timestamp it with
    | TsAbsent => day_text K (replace_Z [])
    | TsText s => day_text K (replace_Z s)
    | TsNull | TsNumber _ => None
    end in
  match parsed with Some d => d | None => lit "Unknown" end.

Definition tool_name (it : item) : str :=
  match tool it with
  | Absent => lit "none"
  | Null => lit "None"
  | Text s => s
  end.

Definition bullet_of (score : R) (it : item) : str :=
  let intent := clip 50 (get (user it) (lit "No query")) in
  let summary := clip 80 (get (assistant it) (lit "No response")) in
  lit "- " ++ date_str it ++ dash ++ intent ++ dash ++ summary ++ dash
    ++ lit "[tool: " ++ tool_name it ++ lit "]" ++ dash ++ lit "score: "
    ++ format_2f score.

(** The [for] loop, with its [break]. *)
Fixpoint collect (items : list (R * item)) (max_chars total_chars : nat)
  : list str :=
  match items with
  | [] => []
  | (score, it) :: rest =>
      let bullet := bullet_of score it in
      if (max_chars <? total_chars + length bullet + 1)%nat then []
      else bullet :: collect rest max_chars (total_chars + length bullet + 1)
  end.

Definition bullets (items : list (R * item)) (max_bullets max_chars : nat)
  : list str :=
  collect (firstn max_bullets items) max_chars 0.

Definition compress_to_bullets (items : list (R * item))
    (max_bullets max_chars : nat) : str :=
  join [NL] (bullets items max_bullets max_chars).

(** ** get_historical_context *)

(** An element of the loaded list. *)
Inductive entry :=
| NotADict
| Dict (it : item).

Definition NOTHING : str := lit "No relevant historical context found.".

(** The scoring loop: the scored items and the texts seen. *)
Fixpoint score_all (memory_items : list entry) (query_terms : list str)
    (current_time : R) (seen_texts : gset str) : list (R * item) :=
  match memory_items with
  | [] => []
  | NotADict :: rest => score_all rest query_terms current_time seen_texts
  | Dict it :: rest =>
      let score :=
        calculate_historical_score it query_terms current_time seen_texts in
      (score, it)
        :: score_all rest query_terms current_time
             ({[ item_text it ]} ∪ seen_texts)
  end.

(** [scored_items.sort(key=lambda x: x[0], reverse=True)]: stable. *)
Fixpoint insert_desc (x : R * item) (l : list (R * item)) : list (R * item) :=
  match l with
  | [] => [x]
  | y :: l' =>
      if Rlt_dec (fst y) (fst x) then x :: l else y :: insert_desc x l'
  end.

Definition sort_desc (l : list (R * item)) : list (R * item) :=
  fold_left (fun acc x => insert_desc x acc) l [].

(** [store]: the list read from [memory_path]; [None] when the file is
    missing, cannot be read as JSON, or does not hold a list.
    [current_time] is [time.time()]. *)
Definition get_historical_context (user_input : str)
    (store : option (list entry)) (current_time : R) : str :=
  match store with
  | None | Some [] => NOTHING
  | Some memory_items =>
      let query_terms := extract_query_terms user_input in
      match query_terms with
      | [] => NOTHING
      | _ :: _ =>
          let scored_items :=
            score_all memory_items query_terms current_time ∅ in
          let scored_items := sort_desc scored_items in
          let summary := compress_to_bullets scored_items 10 1500 in
          if bool_decide (length summary = 0%nat)
             || bool_decide (length (strip U summary) = 0%nat)
          then NOTHING
          else summary
      end
  end.
End Scorer.
End HistoricalIndex.

(* ===================================================================== *)
(** * agent/tool_performance.py *)
(* ===================================================================== *)

Module ToolPerformance.

(** A line of the log that [json.loads] reads as a dict with a string
    under the key [tool]; each of the other keys that the code reads may be
    missing.  The keys [retries] and [timestamp], which [log_tool_call]
    writes and nothing reads, are left out. *)
Record log_entry := {
  tool : str;
  success : option bool;
  latency_ms : option R
}.

(** A line of the log file; [None] where the body of the [try] raises (the
    line is not JSON, or not a dict, or has no key [tool]) and the line is
    passed over. *)
Definition line := option log_entry.

(** The log file; [None] when [log_path] does not exist. *)
Definition log := option (list line).

Record stats := {
  success_rate : R;
  avg_latency_ms : R;
  recent_failures : nat;
  total_calls : nat
}.

(** [l[start:]] *)
Definition from_index {A} (start : Z) (l : list A) : list A :=
  if (start <? 0)%Z
  then skipn (Z.to_nat (Z.max (Z.of_nat (length l) + start) 0)) l
  else skipn (Z.to_nat start) l.

(** [sum(1 for e in recent if e["success"])]; [None] where a key is
    missing and KeyError is raised. *)
Fixpoint count_successes (recent : list log_entry) : option nat :=
  match recent with
  | [] => Some 0%nat
  | e :: rest =>
      match success e, count_successes rest with
      | Some b, Some n => Some ((if b then 1 else 0) + n)%nat
      | _, _ => None
      end
  end.

(** [sum(e["latency_ms"] for e in recent)] *)
Fixpoint sum_latency (recent : list log_entry) : option R :=
  match recent with
  | [] => Some 0%R
  | e :: rest =>
      match latency_ms e, sum_latency rest with
      | Some x, Some total => Some (x + total)%R
      | _, _ => None
      end
  end.

(** The loop that counts consecutive recent failures, over the reversed
    list. *)
Fixpoint count_failures (reversed : list log_entry) : nat :=
  match reversed with
  | [] => 0
  | e :: rest =>
      match success e with
      | Some false => S (count_failures rest)
      | _ => 0                                   (* break *)
      end
  end.

Section Tracker.
Variable round2 : R -> R.        (* round(x, 2) *)

(** [log_tool_call]: one more line at the end of the file, which is
    created when it does not exist.  The argument [retries] goes into a key
    that nothing reads and is left out. *)
Definition log_tool_call (file : log) (tool : str) (success : bool)
    (latency_ms : R) : log :=
  let entry :=
    {| tool := tool; success := Some success;
       latency_ms := Some (round2 latency_ms) |} in
  Some (match file with Some lines => lines | None => [] end ++ [Some entry]).

(** What [get_tool_stats] and [get_all_tool_stats] both do with the
    entries of one tool: [None] where KeyError is raised, [Some None] where
    there is no recent entry. *)
Definition summarize (entries : list log_entry) (recent_n : Z)
  : option (option stats) :=
  let recent :=
    if (recent_n <? Z.of_nat (length entries))%Z
    then from_index (- recent_n) entries else entries in
  match recent with
  | [] => Some None
  | _ :: _ =>
      match count_successes recent, sum_latency recent with
      | Some successes, Some total_latency =>
          let avg_latency := (total_latency / INR (length recent))%R in
          let recent_failures :=
            count_failures (rev (from_index (-10) recent)) in
          Some (Some {| success_rate := (INR successes / INR (length recent))%R;
                        avg_latency_ms := round2 avg_latency;
                        recent_failures := recent_failures;
                        total_calls := length recent |})
      | _, _ => None
      end
  end.

Definition no_calls : stats :=
  {| success_rate := 1; avg_latency_ms := 0; recent_failures := 0;
     total_calls := 0 |}.

(** The entries of the lines that were read and are about [tool]. *)
Definition entries_of (lines : list line) (tool_name : str) : list log_entry :=
  List.filter (fun e => str_eqb (tool e) tool_name) (omap (fun l => l) lines).

(** [get_tool_stats]; [None] where it raises KeyError. *)
Definition get_tool_stats (file : log) (tool : str) (recent_n : Z)
  : option stats :=
  match file with
  | None => Some no_calls
  | Some lines =>
      match summarize (entries_of lines tool) recent_n with
      | Some (Some st) => Some st
      | Some None => Some no_calls
      | None => None
      end
  end.

(** [tool_entries[entry["tool"]].append(entry)]: the dict keeps its keys
    in the order in which they were first seen. *)
Fixpoint group_add (e : log_entry) (groups : list (str * list log_entry))
  : list (str * list log_entry) :=
  match groups with
  | [] => [(tool e, [e])]
  | (t, es) :: rest =>
      if str_eqb t (tool e) then (t, es ++ [e]) :: rest
      else (t, es) :: group_add e rest
  end.

Definition tool_entries (lines : list line) : list (str * list log_entry) :=
  fold_left
    (fun groups l => match l with Some e => group_add e groups | None => groups end)
    lines [].

(** The loop over [tool_entries.items()]. *)
Fixpoint all_stats (groups : list (str * list log_entry)) (recent_n : Z)
  : option (list (str * stats)) :=
  match groups with
  | [] => Some []
  | (t, es) :: rest =>
      match summarize es recent_n, all_stats rest recent_n with
      | Some (Some st), Some others => Some ((t, st) :: others)
      | Some None, Some others => Some others          (* continue *)
      | _, _ => None
      end
  end.

(** [get_all_tool_stats]: the dict of the statistics, as the list of its
    items; [None] where it raises KeyError. *)
Definition get_all_tool_stats (file : log) (recent_n : Z)
  : option (list (str * stats)) :=
  match file with
  | None => Some []
  | Some lines => all_stats (tool_entries lines) recent_n
  end.
End Tracker.
End ToolPerformance.

(* ===================================================================== *)
(** * decision/decision.py *)
(* ===================================================================== *)

Module DecisionM.
Import Re.

(** The three number formats of the performance line. *)
Record formats := {
  percent_1 : R -> str;      (* f"{x:.1%}" *)
  fixed_0 : R -> str;        (* f"{x:.0f}" *)
  decimal : nat -> str       (* f"{n}" *)
}.

Definition RELIABLE : str := [9989%N] ++ lit " RELIABLE".
Definition UNRELIABLE : str := [9888%N; 65039%N] ++ lit " UNRELIABLE".
Definition FAILING : str := [10060%N] ++ lit " FAILING".
Definition AVOID : str :=
  [10060%N] ++ lit " AVOID - Recent consecutive failures".

(** The value of [status] in the loop of [_build_performance_context]. *)
Definition status (st : ToolPerformance.stats) : str :=
  let success_rate := ToolPerformance.success_rate st in
  let recent_failures := ToolPerformance.recent_failures st in
  let status :=
    if Rle_dec (8 / 10) success_rate then RELIABLE
    else if Rle_dec (5 / 10) success_rate then UNRELIABLE
    else FAILING in
  if (3 <=? recent_failures)%nat then AVOID else status.

Definition performance_line (F : formats) (tool : str)
    (st : ToolPerformance.stats) : str :=
  lit "- " ++ tool ++ lit ": " ++ status st ++ lit " (Success: "
    ++ percent_1 F (ToolPerformance.success_rate st) ++ lit ", Latency: "
    ++ fixed_0 F (ToolPerformance.avg_latency_ms st)
    ++ lit "ms, Recent Failures: "
    ++ decimal F (ToolPerformance.recent_failures st) ++ lit ")".

Definition _build_performance_context (F : formats)
    (tool_stats : list (str * ToolPerformance.stats)) : str :=
  match tool_stats with
  | [] => []
  | _ :: _ =>
      let performance_lines :=
        [ [NL; NL] ++ lit "### Tool Performance Statistics (Recent 50 calls)"
            ++ [NL];
          lit "Use this information to prefer reliable tools and avoid failing ones."
            ++ [NL] ]
        ++ map (fun '(tool, st) => performance_line F tool st) tool_stats in
      join [NL] performance_lines
  end.

(** JSON values as [json.loads] builds them; a dict is a finite map on
    its string keys. *)
#[local] Unset Elimination Schemes.
Inductive json :=
| JNull
| JBool (b : bool)
| JInt (z : Z)
| JFloat (x : R)
| JStr (s : str)
| JList (l : list json)
| JObj (m : gmap str json).
#[local] Set Elimination Schemes.

(** An exception of class Exception, as its [str(e)]. *)
Definition exn := str.

Inductive loaded :=
| Loaded (m : gmap str json)
| JSONDecodeError (e : exn)
| LoadFailure (e : exn).      (* any other exception, RecursionError say *)

(** What the library does for [Decision.run].
    - [json_loads]: [json.loads] on a text that starts with an opening
      brace (the pattern of the json block makes sure of that), so that
      what it loads is a dict;
    - [unicode_escape]: [bytes(s, "utf-8").decode("unicode_escape")];
    - [update_from_sequence]: [d.update(v)] for a [v] that is not a dict
      (a list of pairs and the like), which raises or extends [d]. *)
Record library := {
  json_loads : str -> loaded;
  unicode_escape : str -> exn + str;
  update_from_sequence : gmap str json -> json -> exn + gmap str json
}.

(** What [self.client.models.generate_content(...)] and the line that
    takes the text out of the response do. *)
Inductive llm_reply :=
| ServerError (e : exn)       (* caught: the 503 answer *)
| Broken (e : exn)            (* any other exception: not caught *)
| Reply (text : str).         (* response.candidates[0].content.parts[0].text *)

Definition any (c : char) : bool := true.     (* . under re.DOTALL *)

Section Decision.
Variable U : unicode.
Variable L : library.

(** ```json\s*(\{.*?\})\s*``` *)
Definition JSON_BLOCK : regex :=
  text "```json" ++ star (is_space U)
    ++ [GOpen; chr 123%N; Many any false; chr 125%N; GClose]
    ++ star (is_space U) ++ text "```".

(** code\s*:\s*"(.*?)" *)
Definition CODE_FIELD : regex :=
  text "code" ++ star (is_space U) ++ [chr 58%N] ++ star (is_space U)
    ++ [chr 34%N; GOpen; Many any false; GClose; chr 34%N].

Definition group1 (re : regex) (s : str) : option str :=
  match search re s with
  | Some (i, r) => Some (slice (i + g_from r) (i + g_to r) s)
  | None => None
  end.

Definition strs (l : list string) : json := JList (map (fun x => JStr (lit x)) l).

Definition server_error_output (e : exn) : gmap str json :=
  list_to_map
    [ (lit "step_index", JInt 0);
      (lit "description", JStr (lit "Decision model unavailable: server overload."));
      (lit "type", JStr (lit "HUMAN_IN_LOOP"));
      (lit "code", JStr []);
      (lit "conclusion", JStr []);
      (lit "plan_text",
        strs ["Step 0: Decision model returned a 503. Human intervention required."]%string);
      (lit "raw_text", JStr e);
      (lit "human_in_loop_reason", JStr (lit "PLAN_FAILURE"));
      (lit "human_in_loop_message",
        JStr (lit "LLM server error. Please provide guidance or retry."));
      (lit "suggested_plan",
        strs ["Step 0: Retry the query"; "Step 1: Use alternative approach"]%string) ].

Definition salvaged (code_value raw_text : str) : gmap str json :=
  list_to_map
    [ (lit "step_index", JInt 0);
      (lit "description", JStr (lit "Recovered partial JSON from LLM."));
      (lit "type", JStr (match code_value with [] => lit "NOP" | _ => lit "CODE" end));
      (lit "code", JStr code_value);
      (lit "conclusion", JStr []);
      (lit "plan_text",
        strs ["Step 0: Partial plan recovered due to JSON decode error."]%string);
      (lit "raw_text", JStr (firstn 1000 raw_text)) ].

Definition defaults : list (str * json) :=
  [ (lit "step_index", JInt 0);
    (lit "description", JStr (lit "Missing from LLM response"));
    (lit "type", JStr (lit "NOP"));
    (lit "code", JStr []);
    (lit "conclusion", JStr []);
    (lit "plan_text", strs ["Step 0: No valid plan returned by LLM."]%string) ].

(** [output.setdefault(key, default)] *)
Definition setdefault (output : gmap str json) (kd : str * json)
  : gmap str json :=
  match output !! kd.1 with
  | Some _ => output
  | None => <[kd.1 := kd.2]> output
  end.

(** The body of the outer [try]. *)
Definition parse (raw_text : str) : exn + gmap str json :=
  match group1 JSON_BLOCK raw_text with
  | None => inl (lit "No JSON block found")
  | Some json_block =>
      let output :=
        match json_loads L json_block with
        | Loaded m => inr m
        | LoadFailure e => inl e
        | JSONDecodeError _ =>
            match group1 CODE_FIELD json_block with
            | Some escaped =>
                match unicode_escape L escaped with
                | inr code_value => inr (salvaged code_value raw_text)
                | inl e => inl e
                end
            | None => inr (salvaged [] raw_text)
            end
        end in
      match output with
      | inl e => inl e
      | inr output =>
          (* # Handle flattened or nested format *)
          let output :=
            match output !! lit "next_step" with
            | Some (JObj next_step) =>
                inr (next_step ∪ delete (lit "next_step") output)
            | Some v =>
                update_from_sequence L (delete (lit "next_step") output) v
            | None => inr output
            end in
          match output with
          | inl e => inl e
          | inr output => inr (fold_left setdefault defaults output)
          end
      end
  end.

Definition failure_output (e : exn) (raw_text : str) : gmap str json :=
  list_to_map
    [ (lit "step_index", JInt 0);
      (lit "description", JStr (lit "Exception while parsing LLM output: " ++ e));
      (lit "type", JStr (lit "HUMAN_IN_LOOP"));
      (lit "code", JStr []);
      (lit "conclusion", JStr []);
      (lit "plan_text",
        strs ["Step 0: Failed to parse decision. Human intervention required."]%string);
      (lit "raw_text", JStr (firstn 1000 raw_text));
      (lit "human_in_loop_reason", JStr (lit "PLAN_FAILURE"));
      (lit "human_in_loop_message",
        JStr (lit "Failed to parse decision output: " ++ e
              ++ lit ". Please provide a valid plan."));
      (lit "suggested_plan",
        strs ["Step 0: Clarify the query"; "Step 1: Retry with simpler approach"]%string) ].

(** [Decision.run], from the call of the model on: what it returns, or
    the exception it lets through. *)
Definition run (reply : llm_reply) : exn + gmap str json :=
  match reply with
  | ServerError e => inr (server_error_output e)
  | Broken e => inl e
  | Reply text =>
      let raw_text := strip U text in
      match parse raw_text with
      | inr output => inr output
      | inl e => inr (failure_output e raw_text)
      end
  end.

(** The fields every step record must have. *)
Definition required : list str :=
  [lit "step_index"; lit "description"; lit "type"; lit "code";
   lit "conclusion"; lit "plan_text"].

End Decision.
End DecisionM.

(* ===================================================================== *)
(** * agent/agent_loop2.py *)
(* ===================================================================== *)

Module AgentLoop.

Definition GLOBAL_PREVIOUS_FAILURE_STEPS : nat := 3.
Definition MAX_STEPS : nat := 3.
Definition MAX_RETRIES : nat := 3.

(** ** The collaborators, by what they hand to the loop *)

(** The dict of [Perception.run], also the fields of PerceptionSnapshot. *)
Record PerceptionSnapshot := {
  local_goal_achieved : bool;
  original_goal_achieved : bool;
  solution_summary : str
}.

(** The dict of [Decision.run]. *)
Record decision_output := {
  step_index : Z;
  d_description : str;
  d_type : str;
  d_code : str;
  d_conclusion : str;
  plan_text : list str;
  d_human_in_loop_reason : option str;
  d_human_in_loop_message : option str;
  d_suggested_plan : option (list str)
}.

(** The dict of [run_user_code]. *)
Record executor_response := {
  requires_human_intervention : bool;
  r_human_in_loop_reason : option str;
  r_error : option str;
  r_result : option str
}.

(** One run of the process, seen from the loop: what the n-th call of
    each collaborator returns. *)
Record world := {
  perceive : nat -> PerceptionSnapshot;
  decide : nat -> decision_output;
  execute : nat -> executor_response
}.

(** What [step.execution_result] holds. *)
Inductive result_value :=
| FromExecutor (r : executor_response)
| FromConclusion (c : option str).

(** ** agent/agentSession.py *)

(** Modelled from the spec: the class Step of agent/agentSession.py, which
    is not among the sources.  Its fields are those that agent_loop2.py
    reads and writes; a new step has retry count 0 and status pending
    (spec, data model: "retry count", "status ∈ {pending, completed,
    awaiting_human, clarification_needed}"). *)
Record Step := {
  index : Z;
  description : str;
  type : str;
  code : option str;             (* ToolCode.tool_arguments["code"] *)
  conclusion : option str;
  retries : nat;
  status : str;
  human_in_loop_reason : option str;
  human_in_loop_message : option str;
  suggested_plan : option (list str);
  execution_result : option result_value;
  error : option str;
  perception : option PerceptionSnapshot
}.

(** A Step object is named by its position in the heap: the loop variable
    [step] and the lists of the plan versions hold the same object. *)
Abbreviation ref := nat.

Record PlanVersion := { pv_plan_text : list str; pv_steps : list ref }.

(** Modelled from the spec: the class AgentSession of
    agent/agentSession.py, which is not among the sources (spec, data
    model: the ordered list of plan versions, the cumulative
    steps_executed counter, the terminal state). *)
Record AgentSession := {
  original_query : str;
  heap : list Step;
  plan_versions : list PlanVersion;
  total_steps_executed : nat;
  perceptions : list PerceptionSnapshot;
  complete : bool;                       (* state["original_goal_achieved"] *)
  final_answer : option str
}.

(** An entry of the list [session_memory]. *)
Record failure_memory := {
  fm_query : str;
  fm_solution : option result_value      (* what [:300] is cut from *)
}.

(** Everything the methods of AgentLoop read and write. *)
Record state := {
  session : AgentSession;
  session_memory : list failure_memory;
  perceived : nat;          (* calls of Perception.run so far *)
  decided : nat;            (* calls of Decision.run so far *)
  executed : nat            (* calls of run_user_code so far *)
}.

(** ** A monad for the methods: state, and [None] for an exception
    (IndexError, AttributeError) that leaves the method. *)
Definition M (A : Type) := state -> option A * state.
Definition ret {A} (a : A) : M A := fun st => (Some a, st).
Definition raise {A} : M A := fun st => (None, st).
Definition bind {A B} (c : M A) (k : A -> M B) : M B :=
  fun st =>
    match c st with
    | (Some a, st') => k a st'
    | (None, st') => (None, st')
    end.
Notation "x <- c ;; k" := (bind c (fun x => k))
  (at level 100, c at next level, right associativity).
Notation "c ;;; k" := (bind c (fun _ => k))
  (at level 100, right associativity).

Definition get_session : M AgentSession := fun st => (Some (session st), st).
Definition update_session (f : AgentSession -> AgentSession) : M unit :=
  fun st => (Some tt, {| session := f (session st);
                    session_memory := session_memory st;
                    perceived := perceived st; decided := decided st;
                    executed := executed st |}).

Definition set_heap (h : list Step) (s : AgentSession) : AgentSession :=
  {| original_query := original_query s; heap := h;
     plan_versions := plan_versions s;
     total_steps_executed := total_steps_executed s;
     perceptions := perceptions s; complete := complete s;
     final_answer := final_answer s |}.

Definition set_plan_versions (p : list PlanVersion) (s : AgentSession)
  : AgentSession :=
  {| original_query := original_query s; heap := heap s;
     plan_versions := p;
     total_steps_executed := total_steps_executed s;
     perceptions := perceptions s; complete := complete s;
     final_answer := final_answer s |}.

Definition set_total (n : nat) (s : AgentSession) : AgentSession :=
  {| original_query := original_query s; heap := heap s;
     plan_versions := plan_versions s;
     total_steps_executed := n;
     perceptions := perceptions s; complete := complete s;
     final_answer := final_answer s |}.

(** [Step(...)]: a new object on the heap. *)
Definition new_step (s : Step) : M ref :=
  sess <- get_session ;;
  update_session (set_heap (heap sess ++ [s])) ;;;
  ret (length (heap sess)).

(** The object behind a reference. *)
Definition deref (r : ref) : M Step :=
  sess <- get_session ;;
  match heap sess !! r with Some s => ret s | None => raise end.

(** An assignment to fields of the object. *)
Definition write (r : ref) (f : Step -> Step) : M unit :=
  update_session (fun sess => set_heap (alter f r (heap sess)) sess).

(** Modelled from the spec: AgentSession.add_plan_version, which is not
    among the sources: "a new PlanVersion is appended whenever the oracle
    replans"; what it returns is the step the loop goes on with, the
    first of the steps it was given. *)
Definition add_plan_version (plan : list str) (steps : list ref)
  : M (option ref) :=
  update_session
    (fun sess =>
       set_plan_versions
         (plan_versions sess ++ [{| pv_plan_text := plan; pv_steps := steps |}])
         sess) ;;;
  ret (head steps).

(** Modelled from the spec: AgentSession.mark_complete, which is not among
    the sources: the session transitions to COMPLETE. *)
Definition mark_complete (p : PerceptionSnapshot) (answer : option str)
  : M unit :=
  update_session
    (fun s =>
       {| original_query := original_query s; heap := heap s;
          plan_versions := plan_versions s;
          total_steps_executed := total_steps_executed s;
          perceptions := perceptions s; complete := true;
          final_answer :=
            match answer with
            | Some a => Some a
            | None => Some (solution_summary p)
            end |}).

Definition add_perception (p : PerceptionSnapshot) : M unit :=
  update_session
    (fun s =>
       {| original_query := original_query s; heap := heap s;
          plan_versions := plan_versions s;
          total_steps_executed := total_steps_executed s;
          perceptions := perceptions s ++ [p]; complete := complete s;
          final_answer := final_answer s |}).

(** Field updates of a Step. *)
Definition to_human_in_loop (reason message : str)
    (plan : option (list str)) (s : Step) : Step :=
  {| index := index s; description := description s;
     type := lit "HUMAN_IN_LOOP"; code := code s;
     conclusion := conclusion s; retries := retries s;
     status := lit "awaiting_human";
     human_in_loop_reason := Some reason;
     human_in_loop_message := Some message;
     suggested_plan := plan;
     execution_result := execution_result s; error := error s;
     perception := perception s |}.

Definition set_status (v : str) (s : Step) : Step :=
  {| index := index s; description := description s; type := type s;
     code := code s; conclusion := conclusion s; retries := retries s;
     status := v;
     human_in_loop_reason := human_in_loop_reason s;
     human_in_loop_message := human_in_loop_message s;
     suggested_plan := suggested_plan s;
     execution_result := execution_result s; error := error s;
     perception := perception s |}.

Definition set_result (v : result_value) (e : option str) (s : Step) : Step :=
  {| index := index s; description := description s; type := type s;
     code := code s; conclusion := conclusion s; retries := retries s;
     status := status s;
     human_in_loop_reason := human_in_loop_reason s;
     human_in_loop_message := human_in_loop_message s;
     suggested_plan := suggested_plan s;
     execution_result := Some v; error := e;
     perception := perception s |}.

Definition set_perception (p : PerceptionSnapshot) (s : Step) : Step :=
  {| index := index s; description := description s; type := type s;
     code := code s; conclusion := conclusion s; retries := retries s;
     status := status s;
     human_in_loop_reason := human_in_loop_reason s;
     human_in_loop_message := human_in_loop_message s;
     suggested_plan := suggested_plan s;
     execution_result := execution_result s; error := error s;
     perception := Some p |}.

(** step.retries += 1 *)
Definition bump_retries (s : Step) : Step :=
  {| index := index s; description := description s; type := type s;
     code := code s; conclusion := conclusion s; retries := retries s + 1;
     status := status s;
     human_in_loop_reason := human_in_loop_reason s;
     human_in_loop_message := human_in_loop_message s;
     suggested_plan := suggested_plan s;
     execution_result := execution_result s; error := error s;
     perception := perception s |}.

Definition set_memory (m : list failure_memory) : M unit :=
  fun st => (Some tt, {| session := session st; session_memory := m;
                         perceived := perceived st; decided := decided st;
                         executed := executed st |}).
Definition get_memory : M (list failure_memory) :=
  fun st => (Some (session_memory st), st).

Section Methods.
Variable W : world.

(** self.perception.run(...) *)
Definition run_perception : M PerceptionSnapshot :=
  fun st => (Some (perceive W (perceived st)),
             {| session := session st; session_memory := session_memory st;
                perceived := perceived st + 1; decided := decided st;
                executed := executed st |}).

(** self.decision.run(...) *)
Definition decision_run : M decision_output :=
  fun st => (Some (decide W (decided st)),
             {| session := session st; session_memory := session_memory st;
                perceived := perceived st; decided := decided st + 1;
                executed := executed st |}).

(** await run_user_code(...) *)
Definition run_user_code : M executor_response :=
  fun st => (Some (execute W (executed st)),
             {| session := session st; session_memory := session_memory st;
                perceived := perceived st; decided := decided st;
                executed := executed st + 1 |}).

Definition is_type (t : string) (v : str) : bool := str_eqb v (lit t).

Definition create_step (d : decision_output) : Step :=
  {| index := step_index d;
     description := d_description d;
     type := d_type d;
     code := if is_type "CODE" (d_type d) then Some (d_code d) else None;
     conclusion := Some (d_conclusion d);
     retries := 0;
     status := lit "pending";
     human_in_loop_reason := d_human_in_loop_reason d;
     human_in_loop_message := d_human_in_loop_message d;
     suggested_plan := d_suggested_plan d;
     execution_result := None;
     error := None;
     perception := None |}.

Definition default (o : option str) (d : string) : str :=
  match o with Some s => s | None => lit d end.

Definition execute_step (step : ref) : M (option ref) :=
  s <- deref step ;;
  if is_type "CODE" (type s) then
    (* # Check retry limit *)
    if (MAX_RETRIES <=? retries s)%nat then
      write step
        (to_human_in_loop
           (lit "MAX_RETRIES_EXCEEDED")
           (lit "Step has been retried 3 times without success. Please provide guidance.")
           (Some [lit "Review the step logic";
                  lit "Provide alternative approach"; lit "Skip this step"])) ;;;
      ret (Some step)
    else
      _ <- match code s with Some c => ret c | None => raise end ;;
      executor_response <- run_user_code ;;
      (* # Check if execution requires human intervention *)
      if requires_human_intervention executor_response then
        write step
          (fun s =>
             bump_retries
               (set_result (FromExecutor executor_response)
                  (r_error executor_response)
                  (to_human_in_loop
                     (default (r_human_in_loop_reason executor_response)
                              "TOOL_FAILURE")
                     (lit "Tool execution failed: "
                        ++ default (r_error executor_response) "Unknown error")
                     (suggested_plan s) s))) ;;;
        ret (Some step)
      else
        write step
          (fun s =>
             set_status (lit "completed")
               (set_result (FromExecutor executor_response) (error s) s)) ;;;
        perception_result <- run_perception ;;
        write step (set_perception perception_result) ;;;
        (if negb (local_goal_achieved perception_result) then
           write step bump_retries ;;;
           mem <- get_memory ;;
           let mem :=
             mem ++ [{| fm_query := description s;
                        fm_solution := Some (FromExecutor executor_response) |}] in
           set_memory
             (if (GLOBAL_PREVIOUS_FAILURE_STEPS <? length mem)%nat
              then tail mem else mem)
         else ret tt) ;;;
        ret (Some step)
  else if is_type "CONCLUDE" (type s) then
    write step
      (fun s =>
         set_status (lit "completed")
           (set_result (FromConclusion (conclusion s)) (error s) s)) ;;;
    perception_result <- run_perception ;;
    write step (set_perception perception_result) ;;;
    mark_complete perception_result (conclusion s) ;;;
    ret None
  else if is_type "NOP" (type s) then
    write step (set_status (lit "clarification_needed")) ;;;
    ret None
  else if is_type "HUMAN_IN_LOOP" (type s) then
    write step (set_status (lit "awaiting_human")) ;;;
    ret (Some step)
  else ret None.

(** What evaluate_step, get_next_step and resume_with_guidance do with
    a new decision. *)
Definition plan_from (d : decision_output) : M (option ref) :=
  (* # Check if replanning resulted in HUMAN_IN_LOOP *)
  if is_type "HUMAN_IN_LOOP" (d_type d) then
    human_step <- new_step (set_status (lit "awaiting_human") (create_step d)) ;;
    add_plan_version (plan_text d) [human_step] ;;;
    ret (Some human_step)
  else
    s <- new_step (create_step d) ;;
    add_plan_version (plan_text d) [s].

Definition get_next_step (step : ref) : M (option ref) :=
  s <- deref step ;;
  sess <- get_session ;;
  let next_index := (index s + 1)%Z in
  last_plan <- match last (plan_versions sess) with
               | Some pv => ret pv | None => raise end ;;
  let total_steps := Z.of_nat (length (pv_plan_text last_plan)) in
  if (next_index <? total_steps)%Z then
    decision_output <- decision_run ;;
    plan_from decision_output
  else ret None.

Definition evaluate_step (step : ref) : M (option ref) :=
  s <- deref step ;;
  p <- match perception s with Some p => ret p | None => raise end ;;
  if original_goal_achieved p then
    mark_complete p None ;;;
    ret None
  else if local_goal_achieved p then
    get_next_step step
  else
    sess <- get_session ;;
    _ <- match last (plan_versions sess) with
         | Some pv => ret pv | None => raise end ;;
    decision_output <- decision_run ;;
    plan_from decision_output.

Definition max_steps_step (s : Step) : Step :=
  {| index := index s;
     description := lit "Maximum steps (3) reached";
     type := lit "HUMAN_IN_LOOP";
     code := None;
     conclusion := None;
     retries := 0;
     status := lit "awaiting_human";
     human_in_loop_reason := Some (lit "MAX_STEPS_EXCEEDED");
     human_in_loop_message :=
       Some (lit "Agent has executed 3 steps without completing the goal. Please provide guidance.");
     suggested_plan :=
       Some [lit "Review completed steps"; lit "Provide alternative approach";
             lit "Simplify the query"];
     execution_result := None;
     error := None;
     perception := None |}.

(** session.plan_versions[-1]["steps"].append(human_step) *)
Definition append_to_last_plan (r : ref) : M unit :=
  sess <- get_session ;;
  match last (plan_versions sess) with
  | None => raise
  | Some pv =>
      update_session
        (set_plan_versions
           (removelast (plan_versions sess)
              ++ [{| pv_plan_text := pv_plan_text pv;
                     pv_steps := pv_steps pv ++ [r] |}]))
  end.

Definition count_step : M unit :=
  update_session (fun s => set_total (total_steps_executed s + 1) s).

(** The [while step:] of [run]; [false] when [fuel] turns of the loop
    were not enough to leave it. *)
Fixpoint run_loop (fuel : nat) (step : option ref) : M bool :=
  match step with
  | None => ret true
  | Some step =>
      match fuel with
      | O => ret false
      | S fuel =>
          sess <- get_session ;;
          (* # Check MAX_STEPS limit *)
          if (MAX_STEPS <=? total_steps_executed sess)%nat then
            s <- deref step ;;
            human_step <- new_step (max_steps_step s) ;;
            append_to_last_plan human_step ;;;
            ret true
          else
            step_result <- execute_step step ;;
            match step_result with
            | None => ret true
            | Some step_result =>
                r <- deref step_result ;;
                (* # Check if step requires human intervention *)
                if is_type "HUMAN_IN_LOOP" (type r) then ret true
                else
                  count_step ;;;
                  next <- evaluate_step step_result ;;
                  run_loop fuel next
            end
      end
  end.

Definition handle_perception_completion (p : PerceptionSnapshot) : M unit :=
  mark_complete p None.

(** [AgentLoop.run], after the session object has been made. *)
Definition run_body : M bool :=
  perception_result <- run_perception ;;
  add_perception perception_result ;;;
  if original_goal_achieved perception_result then
    handle_perception_completion perception_result ;;;
    ret true
  else
    decision_output <- decision_run ;;
    step <- plan_from decision_output ;;
    if is_type "HUMAN_IN_LOOP" (d_type decision_output) then ret true
    else run_loop (S MAX_STEPS) step.

Definition new_session (query : str) : state :=
  {| session := {| original_query := query; heap := [];
                   plan_versions := []; total_steps_executed := 0;
                   perceptions := []; complete := false;
                   final_answer := None |};
     session_memory := []; perceived := 0; decided := 0; executed := 0 |}.

Definition run (query : str) : option bool * state :=
  run_body (new_session query).

(** The [while step:] of [resume_with_guidance]. *)
Fixpoint resume_loop (fuel : nat) (step : option ref) : M bool :=
  match step with
  | None => ret true
  | Some step =>
      match fuel with
      | O => ret false
      | S fuel =>
          sess <- get_session ;;
          (* # Check MAX_STEPS limit (cumulative) *)
          if (MAX_STEPS + 3 <=? total_steps_executed sess)%nat then ret true
          else
            step_result <- execute_step step ;;
            match step_result with
            | None => ret true
            | Some step_result =>
                r <- deref step_result ;;
                if is_type "HUMAN_IN_LOOP" (type r) then ret true
                else
                  count_step ;;;
                  next <- evaluate_step step_result ;;
                  resume_loop fuel next
            end
      end
  end.

Definition resume_with_guidance (guidance : str) : M bool :=
  sess <- get_session ;;
  (* session.plan_versions[-1]["steps"][-1] *)
  last_plan <- match last (plan_versions sess) with
               | Some pv => ret pv | None => raise end ;;
  _ <- match last (pv_steps last_plan) with
       | Some r => ret r | None => raise end ;;
  _ <- decision_run ;;
  decision_output <- decision_run ;;
  if is_type "HUMAN_IN_LOOP" (d_type decision_output) then ret true
  else
    s <- new_step (create_step decision_output) ;;
    step <- add_plan_version (plan_text decision_output) [s] ;;
    set_memory [] ;;;
    resume_loop (S (MAX_STEPS + 3)) step.

End Methods.
End AgentLoop.

(* ===================================================================== *)
(** * Notions used to state the properties *)
(* ===================================================================== *)

(** The character before the position reached after reading [pre]. *)
Definition before (prev : option char) (pre : str) : option char :=
  match last pre with Some c => Some c | None => prev end.

(** The texts by which the deny-list is described; the list of the code
    itself is [Heuristics.UNSAFE_PATTERNS]. *)
Definition deny_list : list str :=
  map lit ["../"; "<script"; "delete from"; "drop table"; "rm -rf"; "eval(";
           "exec("; "__import__"; "system("; "popen("]%string.

(** A text that [lower()] leaves as it is, wherever it stands. *)
Definition lowered (w : str) : bool :=
  forallb (fun c => is_ascii c && (ascii_lower c =? c)%N) w.

(** A pattern that reads [w] character by character under IGNORECASE. *)
Definition icl (U : unicode) (w : str) : Re.regex :=
  map (fun c => Re.One (ieq U c)) w.

(** [generic_visit] on a list of children. *)
Definition visit_all (c : list node) (l : Heuristics.linter) : Heuristics.linter :=
  fold_left (fun l x => Heuristics.visit x l) c l.

(** The children that the linter goes into from a node. *)
Definition descends (n : node) : list node :=
  match n with
  | Module_ c | AsyncFunctionDef _ c | Other c | While c => c
  | Call func args => func :: args
  | FunctionDef name c => if str_eqb name (lit "solve") then c else []
  | ClassDef _ _ | Import | ImportFrom | Name _ | Break => []
  end.

(** [reached n x]: the linter, visiting [n], comes to visit [x]. *)
Inductive reached : node -> node -> Prop :=
| reached_here n : reached n n
| reached_child n c x : In c (descends n) -> reached c x -> reached n x.

(** The linter, visiting [n], comes to a function definition named
    [solve]. *)
Fixpoint redefines_solve (n : node) : bool :=
  match n with
  | FunctionDef name _ => str_eqb name (lit "solve")
  | Module_ c | AsyncFunctionDef _ c | Other c | While c =>
      existsb redefines_solve c
  | Call func args => redefines_solve func || existsb redefines_solve args
  | ClassDef _ _ | Import | ImportFrom | Name _ | Break => false
  end.

(** What is forbidden inside [solve], with the item of the error list. *)
Definition offence (x : node) : option str :=
  match x with
  | FunctionDef name _ =>
      if str_eqb name (lit "solve") then None
      else Some (lit "Nested function definition not allowed: " ++ name)
  | ClassDef name _ => Some (lit "Class definitions not allowed: " ++ name)
  | Import | ImportFrom => Some (lit "Import statements not allowed in solve()")
  | Call (Name id) _ =>
      if bool_decide (id ∈ Heuristics.dangerous)
      then Some (lit "Dangerous function call not allowed: " ++ id)
      else None
  | While _ =>
      if Heuristics.has_break x then None
      else Some (lit "While loop without break statement (potential infinite loop)")
  | _ => None
  end.


(** The first default listed for a key. *)
Fixpoint listed (k : str) (ds : list (str * DecisionM.json)) : option DecisionM.json :=
  match ds with
  | [] => None
  | kd :: ds' => if str_eqb kd.1 k then Some kd.2 else listed k ds'
  end.

(** The counter of a session. *)
Definition total (st : AgentLoop.state) : nat :=
  AgentLoop.total_steps_executed (AgentLoop.session st).

(** A method that leaves the counter as it is. *)
Definition unchanged {A} (c : AgentLoop.M A) : Prop :=
  forall st, total (snd (c st)) = total st.

(** One turn of either loop once the limit has been checked; [again] is
    the rest of the loop. *)
Definition turn (W : AgentLoop.world) (again : option AgentLoop.ref -> AgentLoop.M bool)
    (step : AgentLoop.ref) : AgentLoop.M bool :=
  AgentLoop.bind (AgentLoop.execute_step W step)
    (fun step_result =>
       match step_result with
       | None => AgentLoop.ret true
       | Some step_result =>
           AgentLoop.bind (AgentLoop.deref step_result)
             (fun r =>
                if AgentLoop.is_type "HUMAN_IN_LOOP" (AgentLoop.type r)
                then AgentLoop.ret true
                else
                  AgentLoop.bind AgentLoop.count_step
                    (fun _ =>
                       AgentLoop.bind (AgentLoop.evaluate_step W step_result)
                         again))
       end).

(** A state in which the counter is within [limit], reached by a loop
    that did not run out of turns. *)
Definition within (limit : nat) (out : option bool * AgentLoop.state) : Prop :=
  (total (snd out) <= limit)%nat /\ fst out <> Some false.

(** The state after [run] has met the limit before the step [s]: a new
    step on the heap, appended to the steps of the last plan version [pv];
    nothing else differs. *)
Definition with_max_steps_step (st : AgentLoop.state) (s : AgentLoop.Step)
    (pv : AgentLoop.PlanVersion) : AgentLoop.state :=
  let sess := AgentLoop.session st in
  {| AgentLoop.session :=
       {| AgentLoop.original_query := AgentLoop.original_query sess;
          AgentLoop.heap := AgentLoop.heap sess ++ [AgentLoop.max_steps_step s];
          AgentLoop.plan_versions :=
            removelast (AgentLoop.plan_versions sess)
              ++ [{| AgentLoop.pv_plan_text := AgentLoop.pv_plan_text pv;
                     AgentLoop.pv_steps :=
                       AgentLoop.pv_steps pv ++ [length (AgentLoop.heap sess)] |}];
          AgentLoop.total_steps_executed := AgentLoop.total_steps_executed sess;
          AgentLoop.perceptions := AgentLoop.perceptions sess;
          AgentLoop.complete := AgentLoop.complete sess;
          AgentLoop.final_answer := AgentLoop.final_answer sess |};
     AgentLoop.session_memory := AgentLoop.session_memory st;
     AgentLoop.perceived := AgentLoop.perceived st;
     AgentLoop.decided := AgentLoop.decided st;
     AgentLoop.executed := AgentLoop.executed st |}.

(** No step of the session has been retried more than once, and the step
    [r] at most [b] times. *)
Definition bounded (r : AgentLoop.ref) (b : nat) (st : AgentLoop.state) : Prop :=
  forall i s,
    AgentLoop.heap (AgentLoop.session st) !! i = Some s ->
    (AgentLoop.retries s <= if Nat.eqb i r then b else 1)%nat.

Definition tidy (st : AgentLoop.state) : Prop :=
  forall i s,
    AgentLoop.heap (AgentLoop.session st) !! i = Some s ->
    (AgentLoop.retries s <= 1)%nat.

(** The step the loop is about to execute has not been retried. *)
Definition fresh (st : AgentLoop.state) (step : option AgentLoop.ref) : Prop :=
  match step with
  | None => True
  | Some r =>
      exists s, AgentLoop.heap (AgentLoop.session st) !! r = Some s /\
                AgentLoop.retries s = 0%nat
  end.

(** A method that retries nothing, and one that retries [r] at most
    once. *)
Definition neutral (r : AgentLoop.ref) {A} (c : AgentLoop.M A) : Prop :=
  forall b st, bounded r b st -> bounded r b (snd (c st)).

Definition bumps (r : AgentLoop.ref) {A} (c : AgentLoop.M A) : Prop :=
  forall st, bounded r 0 st -> bounded r 1 (snd (c st)).

(** What a method that plans may do to a tidy session: the session stays
    tidy and the step it hands back is fresh. *)
Definition plans {A} (c : AgentLoop.M A) (step : A -> option AgentLoop.ref) : Prop :=
  forall st, tidy st ->
    tidy (snd (c st)) /\
    forall a, fst (c st) = Some a -> fresh (snd (c st)) (step a).



(** A string of the form [[sandbox error: ...]]. *)
Definition sandbox_error (s : str) : Prop :=
  exists t, s = lit "[sandbox error: " ++ t ++ lit "]".



(** A list of scored records whose scores never go up. *)
Fixpoint descending (l : list (R * HistoricalIndex.item)) : Prop :=
  match l with
  | [] => True
  | x :: l' => (forall y, In y l' -> (fst y <= fst x)%R) /\ descending l'
  end.

(** [d[key]] for a dict given by the list of its items. *)
Fixpoint assoc {A} (key : str) (items : list (str * A)) : option A :=
  match items with
  | [] => None
  | (k, v) :: rest => if str_eqb k key then Some v else assoc key rest
  end.

(** The number of entries in the window of [recent_n] over a log of
    [entries] entries: the last [recent_n] for a positive [recent_n], all of
    them for 0, all but the first [- recent_n] for a negative one. *)
Definition window (recent_n : Z) (entries : nat) : nat :=
  Z.to_nat
    (if (0 <? recent_n)%Z then Z.min recent_n (Z.of_nat entries)
     else Z.max (Z.of_nat entries + recent_n) 0).

(** A method that leaves a component of the state as it is. *)
Definition same {X A} (component : AgentLoop.state -> X) (c : AgentLoop.M A)
  : Prop :=
  forall st, component (snd (c st)) = component st.

(** A method that keeps a property of the state. *)
Definition keeps {A} (P : AgentLoop.state -> Prop) (c : AgentLoop.M A) : Prop :=
  forall st, P st -> P (snd (c st)).

(** The number of plan versions of a session. *)
Definition planned (st : AgentLoop.state) : nat :=
  length (AgentLoop.plan_versions (AgentLoop.session st)).

(** The failure memory is within its limit. *)
Definition few_failures (st : AgentLoop.state) : Prop :=
  (length (AgentLoop.session_memory st)
   <= AgentLoop.GLOBAL_PREVIOUS_FAILURE_STEPS)%nat.

(** Every consultation of the decision model so far has been recorded as
    a plan version. *)
Definition all_planned (st : AgentLoop.state) : Prop :=
  planned st = AgentLoop.decided st.

(** The test of the confidence filter on one tool. *)
Definition passes (U : unicode) (ratio : str -> str -> R) (query : str)
    (recent_successes : list str) (threshold : R)
    (tool : Heuristics.tool_info) : Prop :=
  (threshold
   <= Heuristics.score_tool_confidence U ratio
        (get_or (Heuristics.t_name tool) [])
        query (get_or (Heuristics.t_description tool) [])
        recent_successes threshold)%R.

(* ===================================================================== *)
(** * Sample plans *)
(* ===================================================================== *)

(** Python texts with the syntax tree that [ast.parse] gives for them and
    with what running them does. *)
Module Samples.
Import Action.

Definition lines (l : list string) : str :=
  flat_map (fun x => lit x ++ [NL]) l.

(** A plan that calls a deny-listed built-in. *)
Definition eval_code : str := lit "def solve(): return eval('2+2')".

(** A plan without any [solve]:
<<
x = 1
>> *)
Definition no_solve_code : str := lines ["x = 1"]%string.
Definition no_solve_tree : node :=
  Module_ [Other (* Assign *) [Name (lit "x"); Other (* Constant *) []]].

(** A plan that leaves through SystemExit:
<<
def solve():
  raise SystemExit
>> *)
Definition exit_code : str := lines ["def solve():"; "    raise SystemExit"]%string.
Definition exit_tree : node :=
  Module_
    [FunctionDef (lit "solve")
       [Other (* arguments *) [];
        Other (* Raise *) [Name (lit "SystemExit")]]].
Definition system_exit : pyexc :=
  {| exc_class_of := NotAnException; exc_text := [] |}.

(** A plan that swallows what the gateway raises:
<<
async def solve():
  for i in range(11):
      try:
          await mcp.call_tool('add', {'a': 1, 'b': 2})
      except Exception:
          pass
  return 'ok'
>> *)
Definition swallow_code : str :=
  lines ["async def solve():";
         "    for i in range(11):";
         "        try:";
         "            await mcp.call_tool('add', {'a': 1, 'b': 2})";
         "        except Exception:";
         "            pass";
         "    return 'ok'"]%string.
Definition constant : node := Other [].
Definition swallow_tree : node :=
  Module_
    [AsyncFunctionDef (lit "solve")
       [Other (* arguments *) [];
        Other (* For *)
          [Name (lit "i");
           Call (Name (lit "range")) [constant];
           Other (* Try *)
             [Other (* Expr *)
                [Other (* Await *)
                   [Call (Other (* Attribute *) [Name (lit "mcp")])
                      [constant;
                       Other (* Dict *) [constant; constant; constant; constant]]]];
              Other (* ExceptHandler *)
                [Name (lit "Exception"); Other (* Pass *) []]]];
        Other (* Return *) [constant]]].
Definition add_input : pyvalue :=
  PDict [(PStr (lit "a"), PObj (lit "1")); (PStr (lit "b"), PObj (lit "2"))].
Fixpoint repeat_call (n : nat) (after : coro) : coro :=
  match n with
  | O => after
  | S n => CallTool (lit "add") add_input (fun _ => repeat_call n after)
  end.
Definition swallow_body : coro := repeat_call 11 (Return (PStr (lit "ok"))).

(** The same loop without the [try]:
<<
async def solve():
  for i in range(11):
      await mcp.call_tool('add', {'a': 1, 'b': 2})
  return 'ok'
>> *)
Definition loop_code : str :=
  lines ["async def solve():";
         "    for i in range(11):";
         "        await mcp.call_tool('add', {'a': 1, 'b': 2})";
         "    return 'ok'"]%string.
Definition loop_tree : node :=
  Module_
    [AsyncFunctionDef (lit "solve")
       [Other (* arguments *) [];
        Other (* For *)
          [Name (lit "i");
           Call (Name (lit "range")) [constant];
           Other (* Expr *)
             [Other (* Await *)
                [Call (Other (* Attribute *) [Name (lit "mcp")])
                   [constant;
                    Other (* Dict *) [constant; constant; constant; constant]]]]];
        Other (* Return *) [constant]]].
Fixpoint repeat_await (n : nat) (after : coro) : coro :=
  match n with
  | O => after
  | S n =>
      CallTool (lit "add") add_input
        (fun r => match r with
                  | Gave _ => repeat_await n after
                  | Threw e => Raise e
                  end)
  end.
Definition loop_body : coro := repeat_await 11 (Return (PStr (lit "ok"))).

(** A plan with an import inside a synchronous [solve]:
<<
def solve():
  import os
  return os.getcwd()
>> *)
Definition import_code : str :=
  lines ["def solve():"; "    import os"; "    return os.getcwd()"]%string.
Definition import_tree : node :=
  Module_
    [FunctionDef (lit "solve")
       [Other (* arguments *) [];
        Import;
        Other (* Return *)
          [Call (Other (* Attribute *) [Name (lit "os")]) []]]].

(** Python, on these texts. *)
Definition python : Action.python :=
  {| ast_parse := fun code =>
       if str_eqb code no_solve_code then Parsed no_solve_tree
       else if str_eqb code exit_code then Parsed exit_tree
       else if str_eqb code swallow_code then Parsed swallow_tree
       else if str_eqb code loop_code then Parsed loop_tree
       else if str_eqb code import_code then Parsed import_tree
       else SyntaxError (lit "invalid syntax");
     exec_module := fun code =>
       if str_eqb code no_solve_code then Defines None
       else if str_eqb code exit_code
         then Defines (Some (SyncFn (Raised system_exit)))
       else if str_eqb code swallow_code
         then Defines (Some (AsyncFn swallow_body))
       else if str_eqb code loop_code
         then Defines (Some (AsyncFn loop_body))
       else if str_eqb code import_code
         then Defines (Some (SyncFn (Returned (PStr (lit "/")))))
       else ExecRaises {| exc_class_of := OtherException;
                          exc_text := lit "invalid syntax" |};
     container_str := fun _ => lit "{...}";
     json_dumps := fun _ => inr (lit "{...}") |}.

(** A tool that always answers 3. *)
Definition adder : dispatcher := fun _ _ _ => Answer (PObj (lit "3")).

(** Two records that differ in their timestamp only, both numbers:
    the POSIX times 0 and -1. *)
Definition record_at (t : R) : HistoricalIndex.item :=
  {| HistoricalIndex.timestamp := HistoricalIndex.TsNumber t;
     HistoricalIndex.user := Some (lit "add 2 and 2");
     HistoricalIndex.assistant := Some (lit "4");
     HistoricalIndex.tool := HistoricalIndex.Text (lit "add");
     HistoricalIndex.success := Some true;
     HistoricalIndex.result := HistoricalIndex.Text (lit "4") |}.

(** A calendar that parses nothing. *)
Definition no_calendar : HistoricalIndex.calendar :=
  {| HistoricalIndex.posix_time := fun _ => None;
     HistoricalIndex.day_text := fun _ => None |}.

(** A library whose [json.loads] rejects every text. *)
Definition no_json : DecisionM.library :=
  {| DecisionM.json_loads := fun _ =>
       DecisionM.JSONDecodeError (lit "Expecting value: line 1 column 1 (char 0)");
     DecisionM.unicode_escape := fun s => inr s;
     DecisionM.update_from_sequence := fun m _ => inr m |}.

(** A reply whose block holds a nested step, and a library that loads
    that block:
<<
```json{"next_step": {"type": "NOP"}, "type": "CODE"}```
>> *)
Definition quoted (x : string) : str := [34%N] ++ lit x ++ [34%N].
Definition nested_block : str :=
  lit "{" ++ quoted "next_step" ++ lit ": {" ++ quoted "type" ++ lit ": "
    ++ quoted "NOP" ++ lit "}, " ++ quoted "type" ++ lit ": " ++ quoted "CODE"
    ++ lit "}".
Definition nested_reply : str := lit "```json" ++ nested_block ++ lit "```".
Definition nested_step : gmap str DecisionM.json :=
  {[ lit "type" := DecisionM.JStr (lit "NOP") ]}.
Definition nested_dict : gmap str DecisionM.json :=
  <[ lit "next_step" := DecisionM.JObj nested_step ]>
    {[ lit "type" := DecisionM.JStr (lit "CODE") ]}.
Definition nested_json : DecisionM.library :=
  {| DecisionM.json_loads := fun s =>
       if str_eqb s nested_block then DecisionM.Loaded nested_dict
       else DecisionM.JSONDecodeError (lit "Expecting value");
     DecisionM.unicode_escape := fun s => inr s;
     DecisionM.update_from_sequence := fun m _ => inr m |}.

(** A reply whose block is not JSON but has a code field:
<<
```json{code: "x = 1"}```
>> *)
Definition code_block : str := lit "{code: " ++ quoted "x = 1" ++ lit "}".
Definition code_reply : str := lit "```json" ++ code_block ++ lit "```".

(** A session in which every decision asks for a human. *)
Definition asking : AgentLoop.decision_output :=
  {| AgentLoop.step_index := 0;
     AgentLoop.d_description := lit "Which city?";
     AgentLoop.d_type := lit "HUMAN_IN_LOOP";
     AgentLoop.d_code := [];
     AgentLoop.d_conclusion := [];
     AgentLoop.plan_text := [lit "Step 0: Ask which city is meant"];
     AgentLoop.d_human_in_loop_reason := Some (lit "AMBIGUOUS");
     AgentLoop.d_human_in_loop_message := Some (lit "Which city?");
     AgentLoop.d_suggested_plan := None |}.
Definition asking_world : AgentLoop.world :=
  {| AgentLoop.perceive := fun _ =>
       {| AgentLoop.local_goal_achieved := false;
          AgentLoop.original_goal_achieved := false;
          AgentLoop.solution_summary := lit "Not ready yet" |};
     AgentLoop.decide := fun _ => asking;
     AgentLoop.execute := fun _ =>
       {| AgentLoop.requires_human_intervention := false;
          AgentLoop.r_human_in_loop_reason := None;
          AgentLoop.r_error := None;
          AgentLoop.r_result := None |} |}.

(** A session in which the tool fails at every attempt: every decision is
    a CODE step, the executor reports an error each time, and the
    perception never finds a goal achieved. *)
Definition failing_world : AgentLoop.world :=
  {| AgentLoop.perceive := fun _ =>
       {| AgentLoop.local_goal_achieved := false;
          AgentLoop.original_goal_achieved := false;
          AgentLoop.solution_summary := lit "Not ready yet" |};
     AgentLoop.decide := fun _ =>
       {| AgentLoop.step_index := 0;
          AgentLoop.d_description := lit "Call the tool";
          AgentLoop.d_type := lit "CODE";
          AgentLoop.d_code := lit "result = flaky()";
          AgentLoop.d_conclusion := [];
          AgentLoop.plan_text := [lit "Step 0: Call the tool"];
          AgentLoop.d_human_in_loop_reason := None;
          AgentLoop.d_human_in_loop_message := None;
          AgentLoop.d_suggested_plan := None |};
     AgentLoop.execute := fun _ =>
       {| AgentLoop.requires_human_intervention := false;
          AgentLoop.r_human_in_loop_reason := None;
          AgentLoop.r_error := Some (lit "tool failed");
          AgentLoop.r_result := None |} |}.

(** A session whose plan has five lines; every step succeeds at its own
    line and none achieves the goal.  The n-th decision is the step of
    line n. *)
Definition five_step_world : AgentLoop.world :=
  {| AgentLoop.perceive := fun _ =>
       {| AgentLoop.local_goal_achieved := true;
          AgentLoop.original_goal_achieved := false;
          AgentLoop.solution_summary := lit "Not ready yet" |};
     AgentLoop.decide := fun n =>
       {| AgentLoop.step_index := Z.of_nat n;
          AgentLoop.d_description := lit "Next line of the plan";
          AgentLoop.d_type := lit "CODE";
          AgentLoop.d_code := lit "result = step()";
          AgentLoop.d_conclusion := [];
          AgentLoop.plan_text :=
            [lit "Step 0"; lit "Step 1"; lit "Step 2"; lit "Step 3"; lit "Step 4"];
          AgentLoop.d_human_in_loop_reason := None;
          AgentLoop.d_human_in_loop_message := None;
          AgentLoop.d_suggested_plan := None |};
     AgentLoop.execute := fun _ =>
       {| AgentLoop.requires_human_intervention := false;
          AgentLoop.r_human_in_loop_reason := None;
          AgentLoop.r_error := None;
          AgentLoop.r_result := Some (lit "done") |} |}.
End Samples.
(* ===================================================================== *)
(** * The definitions on concrete inputs *)
(* ===================================================================== *)

Example tokens_of_a_question :
  HistoricalIndex.extract_query_terms ascii_only
    (lit "What is the Capital of France, and of Peru?")
  = [lit "what"; lit "capital"; lit "france"; lit "peru"].
Proof. vm_compute. reflexivity. Qed.

Example shell_command_is_unsafe :
  Heuristics.contains_unsafe_arguments ascii_only
    (lit "subprocess.run('RM   -rf /tmp/x')") = true.
Proof. vm_compute. reflexivity. Qed.

Example tool_call_is_not_unsafe :
  Heuristics.contains_unsafe_arguments ascii_only
    (lit "return await mcp.call_tool('add', {'a': 2, 'b': 2})") = false.
Proof. vm_compute. reflexivity. Qed.

Example three_calls_of_one_tool :
  let code := lit "mcp.call_tool('add', x); mcp.call_tool('add', y); mcp.call_tool('sub', z); mcp.call_tool('add', w)" in
  Heuristics.count_distinct_tools ascii_only code = 2%nat /\
  Heuristics.has_excessive_repeats ascii_only code 2 = true.
Proof. vm_compute. split; reflexivity. Qed.

Example output_is_cleaned :
  Heuristics.clean_output_structure ascii_only
    (Samples.lines ["```python"; "import os"; "def helper():"; "    pass";
                    "def solve():"; "    return 1"; "```"]%string)
  = lit "def solve():" ++ [NL] ++ lit "    return 1".
Proof. vm_compute. reflexivity. Qed.

Example swallowed_quota_error :
  Action.result
    (Action.run_python_sandbox ascii_only Samples.python Samples.swallow_code
       Samples.adder None)
  = Action.Returned (lit "ok").
Proof. vm_compute. reflexivity. Qed.

Example import_in_solve_is_rejected :
  Action.result
    (Action.run_python_sandbox ascii_only Samples.python Samples.import_code
       Samples.adder None)
  = Action.Returned
      (lit "[sandbox error: validation failed - Import statements not allowed in solve()]").
Proof. vm_compute. reflexivity. Qed.

Example salvaged_code_field :
  match DecisionM.parse ascii_only Samples.no_json
          (Samples.lines ["Here is the plan:"; "```json"]%string
           ++ lit "{type: CODE, code: " ++ [34%N] ++ lit "x = 1" ++ [34%N]
           ++ lit "}" ++ [NL] ++ lit "```") with
  | inr output =>
      output !! lit "type" = Some (DecisionM.JStr (lit "CODE")) /\
      output !! lit "code" = Some (DecisionM.JStr (lit "x = 1")) /\
      output !! lit "step_index" = Some (DecisionM.JInt 0)
  | inl _ => False
  end.
Proof. vm_compute. repeat split; reflexivity. Qed.

(* ===================================================================== *)
(** * Facts about the pattern matcher *)
(* ===================================================================== *)

Section ReFacts.
Import Re.

Lemma before_cons prev c pre : before prev (c :: pre) = before (Some c) pre.
Proof.
  unfold before. destruct pre as [|d pre]; [reflexivity|].
  change (last (c :: d :: pre)) with (last (d :: pre)).
  destruct (last (d :: pre)) eqn:E; [reflexivity|].
  apply last_None in E. discriminate.
Qed.

(** [search] finds a match as soon as the pattern matches somewhere. *)
Lemma search_from_finds re pre : forall prev suf i,
  is_Some (m re (before prev pre) suf 0 0 0) ->
  is_Some (search_from re prev (pre ++ suf) i).
Proof.
  induction pre as [|c pre IH]; intros prev suf i H.
  - unfold before in H; simpl in H.
    destruct suf; simpl;
      (destruct (m re prev _ 0 0 0); [eauto | destruct H; discriminate]).
  - simpl. destruct (m re prev (c :: pre ++ suf) 0 0 0); [eauto|].
    apply IH. rewrite before_cons in H. exact H.
Qed.

(** A run of pattern characters, each of which matches itself, reads
    its own text. *)
Lemma m_literal (eqc : char -> char -> bool) (w : str) :
  (forall c, eqc c c = true) ->
  forall re prev post n gs ge,
    m (map (fun c => One (eqc c)) w ++ re) prev (w ++ post) n gs ge
    = m re (before prev w) post (n + length w) gs ge.
Proof.
  intros Hrefl. induction w as [|c w IH]; intros re prev post n gs ge.
  - simpl. unfold before. simpl. f_equal. lia.
  - simpl. rewrite Hrefl. rewrite IH. rewrite before_cons. f_equal. lia.
Qed.

(** A class that does not hold of the next character takes nothing. *)
Lemma m_many_stop p g re prev c s n gs ge :
  p c = false ->
  m (Many p g :: re) prev (c :: s) n gs ge = m re prev (c :: s) n gs ge.
Proof. intros H. simpl. rewrite H. reflexivity. Qed.

(** A greedy class at the end of a pattern always succeeds. *)
Lemma m_many_last p gs ge : forall s prev n,
  is_Some (m [Many p true] prev s n gs ge).
Proof.
  induction s as [|c s IH]; intros prev n; simpl; [eauto|].
  destruct (p c); [|eauto].
  specialize (IH (Some c) (S n)). simpl in IH.
  destruct IH as [r ->]. eauto.
Qed.
End ReFacts.

(* ===================================================================== *)
(** * The pattern policy check *)
(* ===================================================================== *)

Section PatternPolicy.
Import Re Heuristics Action.
Variable U : unicode.

(** Lowering goes from left to right. *)
Lemma lower_from_app pre : forall before s,
  exists x, lower_from U before (pre ++ s) = x ++ lower_from U (before ++ pre) s.
Proof.
  induction pre as [|c pre IH]; intros before s.
  - exists []. rewrite app_nil_r. reflexivity.
  - simpl. destruct (IH (before ++ [c]) s) as [x Hx].
    eexists. rewrite Hx. rewrite app_assoc.
    replace ((before ++ [c]) ++ pre) with (before ++ c :: pre)
      by (rewrite <- app_assoc; reflexivity).
    reflexivity.
Qed.

Lemma lower_from_lowered w : forall before s,
  lowered w = true ->
  lower_from U before (w ++ s) = w ++ lower_from U (before ++ w) s.
Proof.
  induction w as [|c w IH]; intros before s H.
  - simpl. rewrite app_nil_r. reflexivity.
  - simpl in H. apply andb_true_iff in H. destruct H as [Hc Hw].
    apply andb_true_iff in Hc. destruct Hc as [Ha Hl].
    apply N.eqb_eq in Hl. simpl. rewrite Ha, Hl.
    rewrite (IH _ _ Hw). simpl.
    replace ((before ++ [c]) ++ w) with (before ++ c :: w)
      by (rewrite <- app_assoc; reflexivity).
    reflexivity.
Qed.

Lemma lower_occurs w code :
  lowered w = true -> occurs w code -> occurs w (lower U code).
Proof.
  intros Hw (pre & post & ->). unfold lower.
  destruct (lower_from_app pre [] (w ++ post)) as [x ->].
  rewrite (lower_from_lowered w _ _ Hw).
  eexists _, _. reflexivity.
Qed.

Lemma deny_list_lowered w : In w deny_list -> lowered w = true.
Proof.
  unfold deny_list. simpl.
  intros H; repeat (destruct H as [<- | H]; [reflexivity|]); destruct H.
Qed.

Lemma ieq_refl c : ieq U c c = true.
Proof. unfold ieq. rewrite N.eqb_refl. reflexivity. Qed.

#[local] Abbreviation icl := (icl U).

Lemma icl_matches w prev post : is_Some (m (icl w) prev (w ++ post) 0 0 0).
Proof.
  rewrite <- (app_nil_r (icl w)). unfold icl.
  rewrite (m_literal (ieq U) w ieq_refl). simpl. eauto.
Qed.

(** [a\s+b] matches [a b] when [b] does not start with a space. *)
Lemma icl_space_icl_matches a c b prev post :
  is_space U c = false ->
  is_Some (m (icl a ++ plus (is_space U) ++ icl (c :: b)) prev
             ((a ++ 32%N :: c :: b) ++ post) 0 0 0).
Proof.
  intros Hc. unfold icl at 1. rewrite <- app_assoc.
  rewrite (m_literal (ieq U) a ieq_refl).
  change (m (plus (is_space U) ++ icl (c :: b)) (before prev a)
            ((32%N :: c :: b) ++ post) (0 + length a) 0 0)
    with (m (Many (is_space U) true :: icl (c :: b)) (Some 32%N)
            (c :: b ++ post) (S (0 + length a)) 0 0).
  rewrite m_many_stop by exact Hc.
  rewrite <- (app_nil_r (icl (c :: b))). unfold icl.
  change (c :: b ++ post) with ((c :: b) ++ post).
  rewrite (m_literal (ieq U) (c :: b) ieq_refl). simpl. eauto.
Qed.

(** [a/+] matches [a/]. *)
Lemma icl_slashes_matches a prev post :
  is_Some (m (icl a ++ [One (ieq U 47%N); Many (ieq U 47%N) true]) prev
             ((a ++ [47%N]) ++ post) 0 0 0).
Proof.
  change (icl a ++ [One (ieq U 47%N); Many (ieq U 47%N) true])
    with (icl a ++ [One (ieq U 47%N)] ++ [Many (ieq U 47%N) true]).
  rewrite app_assoc.
  replace (icl a ++ [One (ieq U 47%N)]) with (icl (a ++ [47%N]))
    by (unfold icl; rewrite map_app; reflexivity).
  unfold icl. rewrite (m_literal (ieq U) _ ieq_refl).
  apply m_many_last.
Qed.

(** Each text of the list is matched by a pattern of UNSAFE_PATTERNS,
    wherever it stands and whatever follows it. *)
Lemma deny_list_pattern w :
  In w deny_list ->
  exists pattern, In pattern (UNSAFE_PATTERNS U) /\
    forall prev post, is_Some (m pattern prev (w ++ post) 0 0 0).
Proof.
  intros H.
  assert (Hin : forall k pattern,
    nth_error (UNSAFE_PATTERNS U) k = Some pattern ->
    In pattern (UNSAFE_PATTERNS U)) by (intros k q; apply nth_error_In).
  unfold deny_list in H. simpl in H.
  destruct H as [<- | [<- | [<- | [<- | [<- | [<- | [<- | [<- | [<- | [<- | []]]]]]]]]]].
  - eexists; split; [apply (Hin 0%nat); reflexivity|].
    intros. apply (icl_slashes_matches (lit "..")).
  - eexists; split; [apply (Hin 1%nat); reflexivity|].
    intros. apply (icl_matches (lit "<script")).
  - eexists; split; [apply (Hin 3%nat); reflexivity|].
    intros. apply (icl_space_icl_matches (lit "delete") 102%N (lit "rom")).
    reflexivity.
  - eexists; split; [apply (Hin 4%nat); reflexivity|].
    intros. apply (icl_space_icl_matches (lit "drop") 116%N (lit "able")).
    reflexivity.
  - eexists; split; [apply (Hin 5%nat); reflexivity|].
    intros. apply (icl_space_icl_matches (lit "rm") 45%N (lit "rf")).
    reflexivity.
  - eexists; split; [apply (Hin 6%nat); reflexivity|].
    intros. apply (icl_matches (lit "eval(")).
  - eexists; split; [apply (Hin 7%nat); reflexivity|].
    intros. apply (icl_matches (lit "exec(")).
  - eexists; split; [apply (Hin 8%nat); reflexivity|].
    intros. apply (icl_matches (lit "__import__")).
  - eexists; split; [apply (Hin 9%nat); reflexivity|].
    intros. apply (icl_matches (lit "system(")).
  - eexists; split; [apply (Hin 10%nat); reflexivity|].
    intros. apply (icl_matches (lit "popen(")).
Qed.

Lemma contains_unsafe_arguments_occurs code w :
  In w deny_list -> occurs w code -> contains_unsafe_arguments U code = true.
Proof.
  intros Hw Hocc.
  destruct (lower_occurs w code (deny_list_lowered w Hw) Hocc)
    as (pre & post & Hl).
  destruct (deny_list_pattern w Hw) as (pattern & Hin & Hm).
  unfold contains_unsafe_arguments.
  apply existsb_exists. exists pattern. split; [exact Hin|].
  apply bool_decide_eq_true. rewrite Hl.
  unfold search. apply search_from_finds. apply Hm.
Qed.
End PatternPolicy.

(** C1.  A code string in which a text of the deny-list occurs is answered
    with the policy-violation string; the text is neither compiled nor
    executed and the dispatcher is never called (there are no events), and
    the gateway handle and the context are untouched. *)
Theorem sandbox_rejects_deny_listed_code
    (U : unicode) (P : Action.python) (code : str) (d : Action.dispatcher)
    (ctx : Action.context) (w : str) :
  In w deny_list ->
  occurs w code ->
  Action.run_python_sandbox U P code d ctx
  = {| Action.result :=
         Action.Returned (lit "[sandbox error: unsafe code patterns detected]");
       Action.events := [];
       Action.handle := Action.no_handle;
       Action.context_after := ctx |}.
Proof.
  intros Hw Hocc. unfold Action.run_python_sandbox.
  rewrite (contains_unsafe_arguments_occurs U code w Hw Hocc). reflexivity.
Qed.

Lemma sandbox_rejects_deny_listed_code_witness :
  Action.run_python_sandbox ascii_only Samples.python Samples.eval_code
    Samples.adder None
  = {| Action.result :=
         Action.Returned (lit "[sandbox error: unsafe code patterns detected]");
       Action.events := [];
       Action.handle := Action.no_handle;
       Action.context_after := None |}.
Proof.
  apply (sandbox_rejects_deny_listed_code ascii_only Samples.python
           Samples.eval_code Samples.adder None (lit "eval(")).
  - unfold deny_list. simpl. tauto.
  - exists (lit "def solve(): return "), (lit "'2+2')"). reflexivity.
Defined.

(* ===================================================================== *)
(** * The sandboxed executor *)
(* ===================================================================== *)

Section Executor.
Import Action.
Variable U : unicode.
Variable P : python.
Variable d : dispatcher.






(** What [run_python_sandbox] keeps of the [try] body. *)
Lemma run_python_sandbox_events code ctx :
  let r := run_python_sandbox U P code d ctx in
  (events r = [] /\ handle r = no_handle) \/
  (Heuristics.contains_unsafe_arguments U code = false /\
   fst (Heuristics.validate_solve_code U (ast_parse P) code) = true /\
   events r = events (try_body U P code d ctx) /\
   handle r = handle (try_body U P code d ctx)).
Proof.
  unfold run_python_sandbox.
  destruct (Heuristics.contains_unsafe_arguments U code); [left; auto|].
  destruct (Heuristics.validate_solve_code U (ast_parse P) code)
    as [is_valid errors].
  destruct is_valid; simpl; [|left; auto].
  right. repeat split; try reflexivity;
    (destruct (result (try_body U P code d ctx)) as [s | e |];
     [reflexivity | destruct (exc_class_of e); reflexivity | reflexivity]).
Qed.

End Executor.

Section ExecutorResults.
Import Action.
Variable U : unicode.
Variable P : python.
Variable d : dispatcher.

Lemma run_python_sandbox_unsafe code ctx :
  Heuristics.contains_unsafe_arguments U code = true ->
  result (run_python_sandbox U P code d ctx)
  = Returned (lit "[sandbox error: unsafe code patterns detected]").
Proof. intros H. unfold run_python_sandbox. rewrite H. reflexivity. Qed.

Lemma run_python_sandbox_invalid code ctx :
  Heuristics.contains_unsafe_arguments U code = false ->
  fst (Heuristics.validate_solve_code U (ast_parse P) code) = false ->
  result (run_python_sandbox U P code d ctx)
  = Returned (lit "[sandbox error: validation failed - "
              ++ join (lit "; ")
                   (snd (Heuristics.validate_solve_code U (ast_parse P) code))
              ++ lit "]").
Proof.
  intros H1 H2. unfold run_python_sandbox. rewrite H1.
  destruct (Heuristics.validate_solve_code U (ast_parse P) code)
    as [is_valid errors].
  simpl in *. subst is_valid. reflexivity.
Qed.

Lemma sandbox_error_intro t : sandbox_error (lit "[sandbox error: " ++ t ++ lit "]").
Proof. exists t. reflexivity. Qed.
End ExecutorResults.







(* ===================================================================== *)
(** * The structural policy check *)
(* ===================================================================== *)

Section NodeInduction.
Variable Q : node -> Prop.
Hypothesis HModule : forall c, Forall Q c -> Q (Module_ c).
Hypothesis HFunctionDef : forall name c, Forall Q c -> Q (FunctionDef name c).
Hypothesis HAsync : forall name c, Forall Q c -> Q (AsyncFunctionDef name c).
Hypothesis HClassDef : forall name c, Forall Q c -> Q (ClassDef name c).
Hypothesis HImport : Q Import.
Hypothesis HImportFrom : Q ImportFrom.
Hypothesis HCall : forall f a, Q f -> Forall Q a -> Q (Call f a).
Hypothesis HName : forall id, Q (Name id).
Hypothesis HWhile : forall c, Forall Q c -> Q (While c).
Hypothesis HBreak : Q Break.
Hypothesis HOther : forall c, Forall Q c -> Q (Other c).

Fixpoint node_induction (n : node) : Q n :=
  let all := fix all (l : list node) : Forall Q l :=
    match l with
    | [] => List.Forall_nil Q
    | x :: l' => @List.Forall_cons _ Q x l' (node_induction x) (all l')
    end in
  match n with
  | Module_ c => HModule c (all c)
  | FunctionDef name c => HFunctionDef name c (all c)
  | AsyncFunctionDef name c => HAsync name c (all c)
  | ClassDef name c => HClassDef name c (all c)
  | Import => HImport
  | ImportFrom => HImportFrom
  | Call f a => HCall f a (node_induction f) (all a)
  | Name id => HName id
  | While c => HWhile c (all c)
  | Break => HBreak
  | Other c => HOther c (all c)
  end.
End NodeInduction.

Section Linter.
Import Heuristics.

(** The equations of [visit], with [generic_visit] as [visit_all]. *)
Lemma visit_children c l :
  (fix generic_visit (c : list node) (l : linter) : linter :=
     match c with [] => l | x :: c' => generic_visit c' (visit x l) end) c l
  = visit_all c l.
Proof.
  revert l. induction c as [|x c IH]; intros l; [reflexivity|].
  simpl. apply IH.
Qed.

Lemma visit_module c l : visit (Module_ c) l = visit_all c l.
Proof. rewrite <- visit_children. reflexivity. Qed.

Lemma visit_async name c l : visit (AsyncFunctionDef name c) l = visit_all c l.
Proof. rewrite <- visit_children. reflexivity. Qed.

Lemma visit_other c l : visit (Other c) l = visit_all c l.
Proof. rewrite <- visit_children. reflexivity. Qed.

Lemma visit_solve c l :
  visit (FunctionDef (lit "solve") c) l
  = set_in_solve false (visit_all c (set_in_solve true l)).
Proof. rewrite <- visit_children. reflexivity. Qed.

Lemma visit_call f a l :
  visit (Call f a) l
  = visit_all a
      (visit f
         (if in_solve l then
            match f with
            | Name id =>
                if bool_decide (id ∈ dangerous)
                then report (lit "Dangerous function call not allowed: " ++ id) l
                else l
            | _ => l
            end
          else l)).
Proof. rewrite <- visit_children. reflexivity. Qed.

Lemma visit_while c l :
  visit (While c) l
  = visit_all c
      (if in_solve l then
         if has_break (While c) then l
         else report (lit "While loop without break statement (potential infinite loop)") l
       else l).
Proof. rewrite <- visit_children. reflexivity. Qed.

Lemma visit_all_app a b l : visit_all (a ++ b) l = visit_all b (visit_all a l).
Proof. unfold visit_all. apply fold_left_app. Qed.

(** The linter only ever adds to its error list. *)
Definition grows (n : node) : Prop :=
  forall l, exists extra, errors (visit n l) = errors l ++ extra.

Lemma visit_all_grows c :
  Forall grows c ->
  forall l, exists extra, errors (visit_all c l) = errors l ++ extra.
Proof.
  induction 1 as [|x c Hx _ IH]; intros l.
  - exists []. simpl. rewrite app_nil_r. reflexivity.
  - simpl. destruct (Hx l) as [e1 H1]. destruct (IH (visit x l)) as [e2 H2].
    exists (e1 ++ e2). unfold visit_all in *. simpl. rewrite H2, H1.
    rewrite app_assoc. reflexivity.
Qed.

Lemma report_grows e l : exists extra, errors (report e l) = errors l ++ extra.
Proof. exists [e]. reflexivity. Qed.

Lemma same_grows (l : linter) : exists extra, errors l = errors l ++ extra.
Proof. exists []. rewrite app_nil_r. reflexivity. Qed.

Lemma visit_grows n : grows n.
Proof.
  induction n using node_induction; intros l.
  - rewrite visit_module. apply visit_all_grows; assumption.
  - destruct (str_eqb name (lit "solve")) eqn:En.
    + apply bool_decide_eq_true in En. subst name. rewrite visit_solve.
      destruct (visit_all_grows c H (set_in_solve true l)) as [ex E].
      exists ex. simpl. exact E.
    + simpl. rewrite En. destruct (in_solve l); [apply report_grows | apply same_grows].
  - rewrite visit_async. apply visit_all_grows; assumption.
  - simpl. destruct (in_solve l); [apply report_grows | apply same_grows].
  - simpl. destruct (in_solve l); [apply report_grows | apply same_grows].
  - simpl. destruct (in_solve l); [apply report_grows | apply same_grows].
  - rewrite visit_call.
    match goal with |- context [visit n ?l0] => set (l1 := l0) end.
    assert (H1 : exists extra, errors l1 = errors l ++ extra).
    { subst l1. destruct (in_solve l); [|apply same_grows].
      destruct n; try apply same_grows.
      destruct (bool_decide _); [apply report_grows | apply same_grows]. }
    destruct H1 as [e1 H1]. destruct (IHn l1) as [e2 H2].
    destruct (visit_all_grows a H (visit n l1)) as [e3 H3].
    exists (e1 ++ e2 ++ e3). rewrite H3, H2, H1. rewrite !app_assoc. reflexivity.
  - simpl. apply same_grows.
  - rewrite visit_while.
    match goal with |- context [visit_all c ?l0] => set (l1 := l0) end.
    assert (H1 : exists extra, errors l1 = errors l ++ extra).
    { subst l1. destruct (in_solve l); [|apply same_grows].
      destruct (has_break _); [apply same_grows | apply report_grows]. }
    destruct H1 as [e1 H1].
    destruct (visit_all_grows c H l1) as [e2 H2].
    exists (e1 ++ e2). rewrite H2, H1. rewrite app_assoc. reflexivity.
  - simpl. apply same_grows.
  - rewrite visit_other. apply visit_all_grows; assumption.
Qed.

Lemma visit_keeps_errors n l e : In e (errors l) -> In e (errors (visit n l)).
Proof.
  intros H. destruct (visit_grows n l) as [ex ->]. apply in_or_app. auto.
Qed.

Lemma visit_all_keeps_errors c l e :
  In e (errors l) -> In e (errors (visit_all c l)).
Proof.
  intros H.
  destruct (visit_all_grows c (proj2 (Forall_forall _ _) (fun x _ => visit_grows x)) l)
    as [ex ->].
  apply in_or_app. auto.
Qed.
(** Outside a function definition named [solve] the flag stays as it is. *)
Definition keeps_flag (n : node) : Prop :=
  redefines_solve n = false -> forall l, in_solve (visit n l) = in_solve l.

Lemma visit_all_keeps_flag c :
  Forall keeps_flag c ->
  existsb redefines_solve c = false ->
  forall l, in_solve (visit_all c l) = in_solve l.
Proof.
  induction 1 as [|x c Hx _ IH]; intros He l; [reflexivity|].
  simpl in He. apply orb_false_iff in He. destruct He as [H1 H2].
  change (visit_all (x :: c) l) with (visit_all c (visit x l)).
  rewrite (IH H2). apply Hx. exact H1.
Qed.

Lemma visit_keeps_flag n : keeps_flag n.
Proof.
  induction n using node_induction; intros Hr l; simpl in Hr.
  - rewrite visit_module. apply visit_all_keeps_flag; assumption.
  - simpl. rewrite Hr. destruct (in_solve l) eqn:E; simpl; auto.
  - rewrite visit_async. apply visit_all_keeps_flag; assumption.
  - simpl. destruct (in_solve l) eqn:E; simpl; auto.
  - simpl. destruct (in_solve l) eqn:E; simpl; auto.
  - simpl. destruct (in_solve l) eqn:E; simpl; auto.
  - apply orb_false_iff in Hr. destruct Hr as [H1 H2].
    rewrite visit_call. rewrite (visit_all_keeps_flag a H H2).
    rewrite (IHn H1).
    destruct (in_solve l) eqn:E; [|exact E].
    destruct n; try exact E. destruct (bool_decide _); exact E.
  - reflexivity.
  - rewrite visit_while. rewrite (visit_all_keeps_flag c H Hr).
    destruct (in_solve l) eqn:E; [|exact E].
    destruct (has_break _); exact E.
  - reflexivity.
  - rewrite visit_other. apply visit_all_keeps_flag; assumption.
Qed.

Lemma visit_all_flag c l :
  existsb redefines_solve c = false ->
  in_solve (visit_all c l) = in_solve l.
Proof.
  intros H. apply visit_all_keeps_flag; [|exact H].
  apply Forall_forall. intros x _. apply visit_keeps_flag.
Qed.

(** What one child reports in [solve] is in the list after all children
    have been visited. *)
Lemma visit_all_reports cs c e l :
  In c cs ->
  existsb redefines_solve cs = false ->
  in_solve l = true ->
  (forall l', in_solve l' = true -> In e (errors (visit c l'))) ->
  In e (errors (visit_all cs l)).
Proof.
  intros Hin Hr Hl Hc.
  destruct (in_split _ _ Hin) as (pre & post & ->).
  rewrite existsb_app in Hr. apply orb_false_iff in Hr. destruct Hr as [Hpre _].
  rewrite visit_all_app.
  change (visit_all (c :: post) (visit_all pre l))
    with (visit_all post (visit c (visit_all pre l))).
  apply visit_all_keeps_errors. apply Hc.
  rewrite (visit_all_flag pre l Hpre). exact Hl.
Qed.

Lemma descends_redefines n c :
  redefines_solve n = false -> In c (descends n) -> redefines_solve c = false.
Proof.
  intros Hr Hin.
  assert (Hl : forall cs, existsb redefines_solve cs = false -> In c cs ->
                          redefines_solve c = false).
  { intros cs He Hc. destruct (redefines_solve c) eqn:E; [|reflexivity].
    rewrite <- He. symmetry. apply existsb_exists. eauto. }
  destruct n; simpl in *; try contradiction; eauto.
  - rewrite Hr in Hin. contradiction.
  - apply orb_false_iff in Hr. destruct Hr as [H1 H2].
    destruct Hin as [<- | Hin]; eauto.
Qed.

(** Inside [solve], what the linter comes to and is forbidden is
    reported. *)
Lemma visit_reports n x e :
  reached n x ->
  offence x = Some e ->
  redefines_solve n = false ->
  forall l, in_solve l = true -> In e (errors (visit n l)).
Proof.
  induction 1 as [n | n c x Hc Hreach IH]; intros Ho Hr l Hl.
  - destruct n; unfold offence in Ho; try discriminate.
    + destruct (str_eqb name (lit "solve")) eqn:En; [discriminate|].
      injection Ho as <-. simpl. rewrite En, Hl. simpl.
      apply in_or_app. right. left. reflexivity.
    + injection Ho as <-. simpl. rewrite Hl. simpl.
      apply in_or_app. right. left. reflexivity.
    + injection Ho as <-. simpl. rewrite Hl. simpl.
      apply in_or_app. right. left. reflexivity.
    + injection Ho as <-. simpl. rewrite Hl. simpl.
      apply in_or_app. right. left. reflexivity.
    + destruct n; try discriminate.
      destruct (bool_decide (id ∈ dangerous)) eqn:Ed; [|discriminate].
      injection Ho as <-. rewrite visit_call, Hl, Ed.
      apply visit_all_keeps_errors. apply visit_keeps_errors. simpl.
      apply in_or_app. right. left. reflexivity.
    + destruct (has_break (While children)) eqn:Eb; [discriminate|].
      injection Ho as <-. rewrite visit_while, Hl, Eb.
      apply visit_all_keeps_errors. simpl.
      apply in_or_app. right. left. reflexivity.
  - pose proof (descends_redefines n c Hr Hc) as Hrc.
    specialize (IH Ho Hrc).
    destruct n; simpl in Hc; try contradiction.
    + rewrite visit_module. apply (visit_all_reports body c); auto.
    + simpl in Hr. rewrite Hr in Hc. contradiction.
    + rewrite visit_async. apply (visit_all_reports children c); auto.
    + simpl in Hr. apply orb_false_iff in Hr. destruct Hr as [H1 H2].
      rewrite visit_call.
      match goal with |- context [visit n ?l0] => set (l1 := l0) end.
      assert (Hl1 : in_solve l1 = true).
      { subst l1. rewrite Hl. destruct n; try exact Hl.
        destruct (bool_decide _); exact Hl. }
      destruct Hc as [<- | Hc].
      * apply visit_all_keeps_errors. apply IH. exact Hl1.
      * apply (visit_all_reports args c); auto.
        rewrite (visit_keeps_flag n H1). exact Hl1.
    + rewrite visit_while.
      match goal with |- context [visit_all children ?l0] => set (l1 := l0) end.
      assert (Hl1 : in_solve l1 = true).
      { subst l1. rewrite Hl. destruct (has_break _); exact Hl. }
      apply (visit_all_reports children c); auto.
    + rewrite visit_other. apply (visit_all_reports children c); auto.
Qed.

(** The linter on a text with a top-level [def solve]. *)
Lemma lint_solve_function_reports ast_parse code body children c x e :
  ast_parse code = Parsed (Module_ body) ->
  In (FunctionDef (lit "solve") children) body ->
  existsb redefines_solve children = false ->
  In c children ->
  reached c x ->
  offence x = Some e ->
  exists errs, lint_solve_function ast_parse code = (false, errs) /\ In e errs.
Proof.
  intros Hp Hs Hr Hc Hx Ho.
  unfold lint_solve_function. rewrite Hp.
  set (l0 := {| errors := []; in_solve := false |}).
  assert (He : In e (errors (visit (Module_ body) l0))).
  { rewrite visit_module.
    destruct (in_split _ _ Hs) as (pre & post & ->).
    rewrite visit_all_app.
    change (visit_all (FunctionDef (lit "solve") children :: post) (visit_all pre l0))
      with (visit_all post
              (visit (FunctionDef (lit "solve") children) (visit_all pre l0))).
    apply visit_all_keeps_errors. rewrite visit_solve. simpl.
    apply (visit_all_reports children c); auto.
    intros l' Hl'. apply (visit_reports c x e); auto.
    apply (descends_redefines (Other children) c); auto. }
  destruct (errors (visit (Module_ body) l0)) as [|e0 rest] eqn:E.
  - destruct He.
  - eauto.
Qed.
End Linter.

Lemma validate_solve_code_rejects U ast_parse code errs e :
  Heuristics.lint_solve_function ast_parse code = (false, errs) ->
  In e errs ->
  fst (Heuristics.validate_solve_code U ast_parse code) = false /\
  In e (snd (Heuristics.validate_solve_code U ast_parse code)).
Proof.
  intros Hl He. unfold Heuristics.validate_solve_code. rewrite Hl.
  match goal with
  | |- fst (bool_decide (length (?acc ++ errs) = 0%nat), _) = false /\ _ =>
      set (errors := acc)
  end.
  simpl. split.
  - apply bool_decide_eq_false. rewrite length_app.
    destruct errs; [destruct He | simpl; lia].
  - apply in_or_app. right. exact He.
Qed.

(** C6, as amended.  For a text that parses to a module with a top-level
    [def solve] in which no function named [solve] is defined again: when
    the linter, going through a statement of that body, comes to a nested
    [def] or a class definition, an import statement, a call by name of
    [eval], [exec], [compile], [__import__], [open] or [system], or a
    [while] loop with no [break] anywhere inside it, then the structural
    check fails and lists the matching item, and [run_python_sandbox]
    returns an error string without any event: the text is not run. *)
Theorem structural_check_rejects_offences_in_solve
    (U : unicode) (P : Action.python) (code : str) (d : Action.dispatcher)
    (ctx : Action.context) (body children : list node) (c x : node) (e : str) :
  Action.ast_parse P code = Parsed (Module_ body) ->
  In (FunctionDef (lit "solve") children) body ->
  existsb redefines_solve children = false ->
  In c children ->
  reached c x ->
  offence x = Some e ->
  let v := Heuristics.validate_solve_code U (Action.ast_parse P) code in
  let r := Action.run_python_sandbox U P code d ctx in
  fst v = false /\
  In e (snd v) /\
  Action.events r = [] /\
  (exists s, Action.result r = Action.Returned s /\ sandbox_error s) /\
  (Heuristics.contains_unsafe_arguments U code = false ->
   Action.result r
   = Action.Returned (lit "[sandbox error: validation failed - "
                      ++ join (lit "; ") (snd v) ++ lit "]")).
Proof.
  intros Hp Hs Hr Hc Hx Ho v r.
  destruct (lint_solve_function_reports (Action.ast_parse P) code body children
              c x e Hp Hs Hr Hc Hx Ho) as (errs & Hl & He).
  destruct (validate_solve_code_rejects U (Action.ast_parse P) code errs e Hl He)
    as [Hv Hin].
  fold v in Hv, Hin.
  split; [exact Hv|]. split; [exact Hin|].
  assert (Hev : Action.events r = []).
  { destruct (run_python_sandbox_events U P d code ctx)
      as [[H _] | (_ & H & _)]; [exact H|].
    fold v in H. congruence. }
  split; [exact Hev|].
  destruct (Heuristics.contains_unsafe_arguments U code) eqn:Hu.
  - split; [|discriminate].
    eexists. split; [apply run_python_sandbox_unsafe; exact Hu|].
    apply (sandbox_error_intro (lit "unsafe code patterns detected")).
  - pose proof (run_python_sandbox_invalid U P d code ctx Hu Hv) as Hres.
    split; [|intros _; exact Hres].
    eexists. split; [exact Hres|].
    apply (sandbox_error_intro (lit "validation failed - " ++ _)).
Qed.

Lemma structural_check_rejects_offences_in_solve_witness :
  Action.result
    (Action.run_python_sandbox ascii_only Samples.python Samples.import_code
       Samples.adder None)
  = Action.Returned
      (lit "[sandbox error: validation failed - "
       ++ join (lit "; ")
            (snd (Heuristics.validate_solve_code ascii_only
                    (Action.ast_parse Samples.python) Samples.import_code))
       ++ lit "]").
Proof.
  apply (structural_check_rejects_offences_in_solve ascii_only Samples.python
           Samples.import_code Samples.adder None
           [FunctionDef (lit "solve")
              [Other []; Import;
               Other [Call (Other [Name (lit "os")]) []]]]
           [Other []; Import; Other [Call (Other [Name (lit "os")]) []]]
           Import Import (lit "Import statements not allowed in solve()")).
  - reflexivity.
  - left. reflexivity.
  - reflexivity.
  - right. left. reflexivity.
  - apply reached_here.
  - reflexivity.
  - reflexivity.
Defined.

(** C6, the input on which the claim as it stands fails: a text that
    defines no [solve] at all passes the structural check. *)
Lemma structural_check_accepts_text_without_solve :
  Heuristics.validate_solve_code ascii_only (Action.ast_parse Samples.python)
    Samples.no_solve_code
  = (true, []).
Proof. vm_compute. reflexivity. Qed.

(* ===================================================================== *)
(** * The memory scorer: the digest *)
(* ===================================================================== *)

Section Digest.
Import HistoricalIndex.
Variable U : unicode.
Variable K : calendar.
Variable format_2f : R -> str.





End Digest.


(* ===================================================================== *)
(** * The memory scorer: the score *)
(* ===================================================================== *)

Section Score.
Import HistoricalIndex.
Local Open Scope R_scope.
Variable U : unicode.
Variable K : calendar.

Lemma simple_cosine_similarity_range a b :
  0 <= simple_cosine_similarity U a b <= 1.
Proof.
  unfold simple_cosine_similarity.
  set (w1 := list_to_set (extract_query_terms U a) : gset str).
  set (w2 := list_to_set (extract_query_terms U b) : gset str).
  destruct (bool_decide (w1 = ∅) || bool_decide (w2 = ∅)); [lra|].
  destruct (bool_decide (w1 ∪ w2 = ∅)) eqn:E; [lra|].
  apply bool_decide_eq_false in E.
  assert (Hs : (size (w1 ∩ w2) <= size (w1 ∪ w2))%nat).
  { apply subseteq_size. intros x Hx. apply elem_of_intersection in Hx.
    apply elem_of_union. tauto. }
  assert (Hp : (0 < size (w1 ∪ w2))%nat).
  { destruct (size (w1 ∪ w2)) eqn:Ez; [|lia].
    apply size_empty_inv in Ez. exfalso. apply E. apply leibniz_equiv. exact Ez. }
  apply le_INR in Hs. apply lt_0_INR in Hp.
  pose proof (pos_INR (size (w1 ∩ w2))) as H0.
  split.
  - apply Rmult_le_pos; [exact H0|]. left. apply Rinv_0_lt_compat. exact Hp.
  - apply (Rmult_le_reg_r (INR (size (w1 ∪ w2)))); [exact Hp|].
    unfold Rdiv. rewrite Rmult_assoc, Rinv_l; lra.
Qed.

Lemma exp_le_1 x : x <= 0 -> exp x <= 1.
Proof.
  intros [H | ->].
  - left. rewrite <- exp_0. apply exp_increasing. exact H.
  - rewrite exp_0. lra.
Qed.

Lemma exp_monotone x y : x <= y -> exp x <= exp y.
Proof.
  intros [H | ->]; [left; apply exp_increasing; exact H | lra].
Qed.

(** The recency component of a record that is not from the future. *)
Lemma recency_past it current_time t :
  item_time K it = Some t ->
  t <= current_time ->
  recency K it current_time
  = exp (- age_hours current_time t / 168) * (30 / 100).
Proof.
  intros Ht Hle. unfold recency. rewrite Ht.
  destruct (Rle_dec _ EXP_MAX) as [_ | Hn]; [reflexivity|].
  exfalso. apply Hn. unfold age_hours, EXP_MAX. lra.
Qed.

Lemma semantic_range it query_terms :
  0 <= semantic U it query_terms <= 30 / 100.
Proof.
  unfold semantic.
  pose proof (simple_cosine_similarity_range
                (join (lit " ") query_terms) (item_text U it)).
  lra.
Qed.

Lemma tool_signal_range it : 0 <= tool_signal it <= 15 / 100.
Proof.
  unfold tool_signal.
  destruct (_ && _); [lra|]. destruct (truthy _); lra.
Qed.

Lemma provenance_range it : 0 <= provenance it <= 10 / 100.
Proof.
  unfold provenance.
  destruct (timestamp_truthy _), (truthy (tool it)), (truthy (result it)); lra.
Qed.

Lemma length_penalty_range it : 0 <= length_penalty U it <= 10 / 100.
Proof.
  unfold length_penalty.
  repeat (destruct (_ <? _)%nat; [lra|]). lra.
Qed.

Lemma diversity_range it seen_texts :
  0 <= diversity U it seen_texts <= 5 / 100.
Proof. unfold diversity. destruct (is_diverse _ _ _); lra. Qed.
End Score.

(** C10.  For a record whose timestamp parses to an instant that is not
    after the current time, the score is between 0 and 1: each of the six
    components is non-negative, and they are at most 0.30, 0.30, 0.15, 0.10,
    0.10 and 0.05. *)
Theorem score_between_0_and_1
    (U : unicode) (K : HistoricalIndex.calendar) (it : HistoricalIndex.item)
    (query_terms : list str) (current_time : R) (seen_texts : gset str) (t : R) :
  HistoricalIndex.item_time K it = Some t ->
  (0 <= HistoricalIndex.age_hours current_time t)%R ->
  (0 <= HistoricalIndex.calculate_historical_score U K it query_terms
          current_time seen_texts <= 1)%R.
Proof.
  intros Ht Hage.
  assert (Hle : (t <= current_time)%R)
    by (unfold HistoricalIndex.age_hours in Hage; lra).
  unfold HistoricalIndex.calculate_historical_score.
  rewrite (recency_past K it current_time t Ht Hle).
  pose proof (exp_pos (- HistoricalIndex.age_hours current_time t / 168)) as Hp.
  assert (H1 : (exp (- HistoricalIndex.age_hours current_time t / 168) <= 1)%R)
    by (apply exp_le_1; lra).
  pose proof (semantic_range U it query_terms).
  pose proof (tool_signal_range it).
  pose proof (provenance_range it).
  pose proof (length_penalty_range U it).
  pose proof (diversity_range U it seen_texts).
  lra.
Qed.

Lemma score_between_0_and_1_witness :
  (0 <= HistoricalIndex.calculate_historical_score ascii_only Samples.no_calendar
          (Samples.record_at 0) [lit "add"] 3600 ∅ <= 1)%R.
Proof.
  apply (score_between_0_and_1 ascii_only Samples.no_calendar
           (Samples.record_at 0) [lit "add"] 3600 ∅ 0).
  - reflexivity.
  - unfold HistoricalIndex.age_hours. lra.
Defined.




(* ===================================================================== *)
(** * The step-proposal validator *)
(* ===================================================================== *)

Section Validator.
Import DecisionM.
Variable U : unicode.
Variable L : library.

(** After the loop of [setdefault], a key holds what it held, or else its
    default. *)
Lemma setdefault_all ds : forall (output : gmap str json) k,
  fold_left setdefault ds output !! k
  = match output !! k with
    | Some v => Some v
    | None => listed k ds
    end.
Proof.
  induction ds as [|[k0 d0] ds IH]; intros output k; simpl.
  - destruct (output !! k); reflexivity.
  - rewrite IH. unfold setdefault. simpl.
    unfold str_eqb. destruct (output !! k0) eqn:E0.
    + destruct (output !! k) eqn:Ek; [reflexivity|].
      destruct (bool_decide (k0 = k)) eqn:Eb; [|reflexivity].
      apply bool_decide_eq_true in Eb. subst. congruence.
    + destruct (bool_decide (k0 = k)) eqn:Eb.
      * apply bool_decide_eq_true in Eb. subst.
        rewrite lookup_insert_eq, E0. reflexivity.
      * apply bool_decide_eq_false in Eb.
        rewrite lookup_insert_ne by exact Eb. reflexivity.
Qed.

Lemma required_listed k : In k required -> is_Some (listed k defaults).
Proof.
  unfold required. simpl.
  intros H; repeat (destruct H as [<- | H]; [vm_compute; eauto|]); destruct H.
Qed.

Lemma setdefault_required (output : gmap str json) k :
  In k required -> is_Some (fold_left setdefault defaults output !! k).
Proof.
  intros H. rewrite setdefault_all.
  destruct (output !! k); [eauto | apply required_listed; exact H].
Qed.

(** What [parse] returns went through the loop of [setdefault]. *)
Lemma parse_returns raw_text output :
  parse U L raw_text = inr output ->
  exists before_defaults, output = fold_left setdefault defaults before_defaults.
Proof.
  unfold parse. intros H.
  destruct (group1 (JSON_BLOCK U) raw_text) as [json_block|]; [|discriminate].
  match type of H with
  | match ?x with inl _ => _ | inr _ => _ end = _ => destruct x as [e | m]
  end; [discriminate|].
  match type of H with
  | match ?x with inl _ => _ | inr _ => _ end = _ => destruct x as [e | m']
  end; [discriminate|].
  injection H as <-. eauto.
Qed.

Lemma failure_output_fields e raw_text k :
  In k required -> is_Some (failure_output e raw_text !! k).
Proof.
  unfold required. simpl.
  intros H; repeat (destruct H as [<- | H]; [vm_compute; eauto|]); destruct H.
Qed.
End Validator.

(** C4.  On every text of the oracle, [Decision.run] returns a record
    (it raises nothing) in which [step_index], [description], [type],
    [code], [conclusion] and [plan_text] are all present.  When parsing
    raises, the record is the HUMAN_IN_LOOP proposal with reason
    PLAN_FAILURE.  When the json block loads to a dict that has no
    [next_step], each of the six fields holds what the dict holds for it, or
    else its default (0, "Missing from LLM response", NOP, ...). *)
Theorem step_proposal_is_total
    (U : unicode) (L : DecisionM.library) (text : str) :
  exists output : gmap str DecisionM.json,
    DecisionM.run U L (DecisionM.Reply text) = inr output /\
    (forall k, In k DecisionM.required -> is_Some (output !! k)) /\
    (forall e, DecisionM.parse U L (strip U text) = inl e ->
       output = DecisionM.failure_output e (strip U text) /\
       output !! lit "type" = Some (DecisionM.JStr (lit "HUMAN_IN_LOOP")) /\
       output !! lit "human_in_loop_reason"
       = Some (DecisionM.JStr (lit "PLAN_FAILURE"))) /\
    (forall json_block m,
       DecisionM.group1 (DecisionM.JSON_BLOCK U) (strip U text) = Some json_block ->
       DecisionM.json_loads L json_block = DecisionM.Loaded m ->
       m !! lit "next_step" = None ->
       forall k dflt, In (k, dflt) DecisionM.defaults ->
         output !! k = Some (default dflt (m !! k))).
Proof.
  unfold DecisionM.run.
  destruct (DecisionM.parse U L (strip U text)) as [e | output] eqn:Hp.
  - eexists. split; [reflexivity|]. split; [|split].
    + intros k Hk. apply failure_output_fields. exact Hk.
    + intros e' [= <-]. split; [reflexivity|]. split; vm_compute; reflexivity.
    + intros json_block m Hb Hl Hn. exfalso.
      unfold DecisionM.parse in Hp. rewrite Hb, Hl, Hn in Hp. discriminate.
  - exists output. split; [reflexivity|]. split; [|split].
    + intros k Hk. destruct (parse_returns U L _ _ Hp) as [m0 ->].
      apply setdefault_required. exact Hk.
    + discriminate.
    + intros json_block m Hb Hl Hn k dflt Hk.
      unfold DecisionM.parse in Hp. rewrite Hb, Hl, Hn in Hp.
      injection Hp as <-.
      change (fold_left DecisionM.setdefault DecisionM.defaults m !! k
              = Some (default dflt (m !! k))).
      rewrite setdefault_all.
      destruct (m !! k) as [v|] eqn:Em; [reflexivity|]. simpl.
      unfold DecisionM.defaults in Hk. simpl in Hk.
      repeat (destruct Hk as [[= <- <-] | Hk]; [vm_compute; reflexivity|]).
      destruct Hk.
Qed.

Lemma step_proposal_is_total_witness :
  exists output : gmap str DecisionM.json,
    DecisionM.run ascii_only Samples.no_json (DecisionM.Reply []) = inr output /\
    output !! lit "type" = Some (DecisionM.JStr (lit "HUMAN_IN_LOOP")) /\
    output !! lit "human_in_loop_reason"
    = Some (DecisionM.JStr (lit "PLAN_FAILURE")).
Proof.
  destruct (step_proposal_is_total ascii_only Samples.no_json [])
    as (output & Hrun & _ & Hfail & _).
  exists output. split; [exact Hrun|].
  destruct (Hfail (lit "No JSON block found") eq_refl) as (_ & Ht & Hr).
  split; assumption.
Defined.

(* ===================================================================== *)
(** * The control loop: the step budget *)
(* ===================================================================== *)

Section Budget.
Import AgentLoop.
Variable W : world.

Lemma unchanged_ret {A} (a : A) : unchanged (ret a).
Proof. intros st. reflexivity. Qed.

Lemma unchanged_raise {A} : unchanged (@raise A).
Proof. intros st. reflexivity. Qed.

Lemma unchanged_bind {A B} (c : M A) (k : A -> M B) :
  unchanged c -> (forall a, unchanged (k a)) -> unchanged (bind c k).
Proof.
  intros Hc Hk st. unfold bind. specialize (Hc st).
  destruct (c st) as [[a|] st']; simpl in *; [|exact Hc].
  rewrite (Hk a st'). exact Hc.
Qed.

Lemma unchanged_get_session : unchanged get_session.
Proof. intros st. reflexivity. Qed.

Lemma unchanged_update_session f :
  (forall s, total_steps_executed (f s) = total_steps_executed s) ->
  unchanged (update_session f).
Proof. intros H st. unfold total. simpl. apply H. Qed.

Lemma unchanged_get_memory : unchanged get_memory.
Proof. intros st. reflexivity. Qed.

Lemma unchanged_set_memory m : unchanged (set_memory m).
Proof. intros st. reflexivity. Qed.

Lemma unchanged_run_perception : unchanged (run_perception W).
Proof. intros st. reflexivity. Qed.

Lemma unchanged_decision_run : unchanged (decision_run W).
Proof. intros st. reflexivity. Qed.

Lemma unchanged_run_user_code : unchanged (run_user_code W).
Proof. intros st. reflexivity. Qed.

Create HintDb budget.
Hint Resolve unchanged_ret unchanged_raise unchanged_get_session
  unchanged_get_memory unchanged_set_memory unchanged_run_perception
  unchanged_decision_run unchanged_run_user_code : budget.

(** Goes through a method made of [bind], [if] and [match]. *)
Ltac frame :=
  repeat first
    [ solve [auto with budget]
    | progress cbv zeta
    | apply unchanged_bind; [|intros ?]
    | apply unchanged_update_session; intros ?; reflexivity
    | match goal with
      | |- unchanged (if ?b then _ else _) => destruct b
      | |- unchanged (match ?x with _ => _ end) => destruct x
      end ].

Lemma unchanged_new_step s : unchanged (new_step s).
Proof. unfold new_step. frame. Qed.

Lemma unchanged_deref r : unchanged (deref r).
Proof. unfold deref. frame. Qed.

Lemma unchanged_write r f : unchanged (write r f).
Proof. unfold write. frame. Qed.

Lemma unchanged_add_plan_version p steps : unchanged (add_plan_version p steps).
Proof. unfold add_plan_version. frame. Qed.

Lemma unchanged_mark_complete p a : unchanged (mark_complete p a).
Proof. unfold mark_complete. frame. Qed.

Lemma unchanged_add_perception p : unchanged (add_perception p).
Proof. unfold add_perception. frame. Qed.

Lemma unchanged_append_to_last_plan r : unchanged (append_to_last_plan r).
Proof. unfold append_to_last_plan. frame. Qed.

Hint Resolve unchanged_new_step unchanged_deref unchanged_write
  unchanged_add_plan_version unchanged_mark_complete unchanged_add_perception
  unchanged_append_to_last_plan : budget.

Lemma unchanged_execute_step r : unchanged (execute_step W r).
Proof. unfold execute_step. frame. Qed.

Lemma unchanged_plan_from d : unchanged (plan_from d).
Proof. unfold plan_from. frame. Qed.

Hint Resolve unchanged_execute_step unchanged_plan_from : budget.

Lemma unchanged_get_next_step r : unchanged (get_next_step W r).
Proof. unfold get_next_step. frame. Qed.

Hint Resolve unchanged_get_next_step : budget.

Lemma unchanged_evaluate_step r : unchanged (evaluate_step W r).
Proof. unfold evaluate_step. frame. Qed.

Lemma total_count_step st : total (snd (count_step st)) = S (total st).
Proof. unfold count_step, total. simpl. lia. Qed.

Lemma bind_not_false {A} (c : M A) (k : A -> M bool) st :
  (forall a st', fst (k a st') <> Some false) ->
  fst (bind c k st) <> Some false.
Proof.
  intros H. unfold bind. destruct (c st) as [[a|] st']; [apply H | discriminate].
Qed.

Lemma bind_step {A B} (c : M A) (k : A -> M B) st :
  bind c k st
  = match c st with
    | (Some a, st') => k a st'
    | (None, st') => (None, st')
    end.
Proof. reflexivity. Qed.

(** A turn adds at most one to the counter before the loop goes on. *)
Lemma turn_budget (again : option ref -> M bool) (limit fuel : nat) step st :
  (total st < limit)%nat ->
  (forall next st',
     (total st' <= limit)%nat ->
     (total (snd (again next st')) <= limit)%nat /\
     ((limit - total st' < fuel)%nat -> fst (again next st') <> Some false)) ->
  (total (snd (turn W again step st)) <= limit)%nat /\
  ((limit - total st < S fuel)%nat -> fst (turn W again step st) <> Some false).
Proof.
  intros Hlt Hagain. unfold turn. rewrite bind_step.
  pose proof (unchanged_execute_step step st) as T1.
  destruct (execute_step W step st) as [[[r'|]|] st1]; simpl in T1.
  2:{ simpl. split; [lia | discriminate]. }
  2:{ simpl. split; [lia | discriminate]. }
  rewrite bind_step.
  pose proof (unchanged_deref r' st1) as T2.
  destruct (deref r' st1) as [[s|] st2]; simpl in T2.
  2:{ simpl. split; [lia | discriminate]. }
  destruct (is_type "HUMAN_IN_LOOP" (type s)).
  { simpl. split; [lia | discriminate]. }
  rewrite bind_step.
  pose proof (total_count_step st2) as T3.
  destruct (count_step st2) as [[u|] st3] eqn:E3; simpl in T3;
    [|unfold count_step, update_session in E3; discriminate].
  rewrite bind_step.
  pose proof (unchanged_evaluate_step r' st3) as T4.
  destruct (evaluate_step W r' st3) as [[next|] st4]; simpl in T4.
  2:{ simpl. split; [lia | discriminate]. }
  destruct (Hagain next st4) as [B1 B2]; [lia|].
  split; [exact B1|]. intros Hf. apply B2. lia.
Qed.

Lemma run_loop_turn fuel step st :
  (MAX_STEPS <=? total st)%nat = false ->
  run_loop W (S fuel) (Some step) st = turn W (run_loop W fuel) step st.
Proof.
  intros H. cbn [run_loop]. rewrite bind_step. unfold get_session.
  unfold total in H. rewrite H. reflexivity.
Qed.

Lemma resume_loop_turn fuel step st :
  (MAX_STEPS + 3 <=? total st)%nat = false ->
  resume_loop W (S fuel) (Some step) st = turn W (resume_loop W fuel) step st.
Proof.
  intros H. cbn [resume_loop]. rewrite bind_step. unfold get_session.
  unfold total in H. rewrite H. reflexivity.
Qed.

(** [run_loop] keeps the counter within MAX_STEPS and, given a turn
    more than the budget left, leaves the loop. *)
Lemma run_loop_budget fuel : forall step st,
  (total st <= MAX_STEPS)%nat ->
  (total (snd (run_loop W fuel step st)) <= MAX_STEPS)%nat /\
  ((MAX_STEPS - total st < fuel)%nat ->
   fst (run_loop W fuel step st) <> Some false).
Proof.
  induction fuel as [|fuel IH]; intros [step|] st H;
    try (simpl; split; [exact H | intros; (lia || discriminate)]).
  destruct (MAX_STEPS <=? total st)%nat eqn:E.
  - cbn [run_loop]. rewrite bind_step. unfold get_session.
    unfold total in E. rewrite E. fold (total st) in E.
    split.
    + match goal with |- (total (snd (?c st)) <= _)%nat =>
        assert (Hc : unchanged c) by frame end.
      rewrite Hc. exact H.
    + intros _. repeat (apply bind_not_false; intros). discriminate.
  - rewrite run_loop_turn by exact E.
    apply Nat.leb_gt in E.
    apply turn_budget; [exact E | exact IH].
Qed.

(** [resume_loop] keeps the counter within MAX_STEPS + 3 and leaves the
    loop likewise. *)
Lemma resume_loop_budget fuel : forall step st,
  (total st <= MAX_STEPS + 3)%nat ->
  (total (snd (resume_loop W fuel step st)) <= MAX_STEPS + 3)%nat /\
  ((MAX_STEPS + 3 - total st < fuel)%nat ->
   fst (resume_loop W fuel step st) <> Some false).
Proof.
  induction fuel as [|fuel IH]; intros [step|] st H;
    try (simpl; split; [exact H | intros; (lia || discriminate)]).
  destruct (MAX_STEPS + 3 <=? total st)%nat eqn:E.
  - cbn [resume_loop]. rewrite bind_step. unfold get_session.
    unfold total in E. rewrite E.
    simpl. split; [exact H | discriminate].
  - rewrite resume_loop_turn by exact E.
    apply Nat.leb_gt in E.
    apply turn_budget; [exact E | exact IH].
Qed.

Lemma within_bind {A} limit (c : M A) (k : A -> M bool) st :
  unchanged c ->
  (total st <= limit)%nat ->
  (forall a st', total st' = total st -> within limit (k a st')) ->
  within limit (bind c k st).
Proof.
  intros Hc Hle Hk. rewrite bind_step. specialize (Hc st).
  destruct (c st) as [[a|] st']; simpl in Hc.
  - apply Hk. exact Hc.
  - split; simpl; [lia | discriminate].
Qed.

Lemma within_ret limit st : (total st <= limit)%nat -> within limit (ret true st).
Proof. intros H. split; simpl; [exact H | discriminate]. Qed.

Lemma run_within query : within MAX_STEPS (run W query).
Proof.
  unfold run, run_body.
  assert (H0 : (total (new_session query) <= MAX_STEPS)%nat)
    by (unfold total; simpl; lia).
  revert H0. generalize (new_session query). intros st H0.
  apply within_bind; [auto with budget | exact H0 |]. intros p st1 T1.
  apply within_bind; [auto with budget | lia |]. intros u st2 T2.
  destruct (original_goal_achieved p).
  - apply within_bind; [unfold handle_perception_completion; auto with budget | lia |].
    intros u' st3 T3. apply within_ret. lia.
  - apply within_bind; [auto with budget | lia |]. intros d st3 T3.
    apply within_bind; [auto with budget | lia |]. intros step st4 T4.
    destruct (is_type "HUMAN_IN_LOOP" (d_type d)); [apply within_ret; lia|].
    destruct (run_loop_budget (S MAX_STEPS) step st4) as [B1 B2]; [lia|].
    split; [exact B1 | apply B2; lia].
Qed.

Lemma resume_within guidance st :
  (total st <= MAX_STEPS + 3)%nat ->
  within (MAX_STEPS + 3) (resume_with_guidance W guidance st).
Proof.
  intros H0. unfold resume_with_guidance.
  apply within_bind; [auto with budget | exact H0 |]. intros sess st1 T1.
  apply within_bind; [frame | lia |]. intros pv st2 T2.
  apply within_bind; [frame | lia |]. intros r st3 T3.
  apply within_bind; [auto with budget | lia |]. intros d0 st4 T4.
  apply within_bind; [auto with budget | lia |]. intros d st5 T5.
  destruct (is_type "HUMAN_IN_LOOP" (d_type d)); [apply within_ret; lia|].
  apply within_bind; [auto with budget | lia |]. intros s st6 T6.
  apply within_bind; [auto with budget | lia |]. intros step st7 T7.
  apply within_bind; [auto with budget | lia |]. intros u st8 T8.
  destruct (resume_loop_budget (S (MAX_STEPS + 3)) step st8) as [B1 B2]; [lia|].
  split; [exact B1 | apply B2; lia].
Qed.

(** At the limit, [run] does not execute the step: it appends the
    synthesized step and stops. *)
Lemma run_loop_at_limit fuel r st s pv :
  (MAX_STEPS <= total st)%nat ->
  heap (session st) !! r = Some s ->
  last (plan_versions (session st)) = Some pv ->
  run_loop W (S fuel) (Some r) st = (Some true, with_max_steps_step st s pv).
Proof.
  intros Hl Hs Hp. cbn [run_loop]. rewrite bind_step. unfold get_session.
  apply Nat.leb_le in Hl. unfold total in Hl. rewrite Hl.
  unfold deref, new_step, append_to_last_plan.
  rewrite !bind_step. unfold get_session. rewrite Hs.
  repeat (rewrite ?bind_step;
          progress cbn [ret update_session set_heap session plan_versions heap]).
  rewrite Hp.
  repeat (rewrite ?bind_step;
          progress cbn [ret update_session set_heap session plan_versions heap]).
  reflexivity.
Qed.

(** At its limit, [resume_with_guidance] stops and appends nothing. *)
Lemma resume_loop_at_limit fuel r st :
  (MAX_STEPS + 3 <= total st)%nat ->
  resume_loop W (S fuel) (Some r) st = (Some true, st).
Proof.
  intros Hl. cbn [resume_loop]. rewrite bind_step. unfold get_session.
  apply Nat.leb_le in Hl. unfold total in Hl. rewrite Hl. reflexivity.
Qed.
End Budget.

(** C3, as amended.  In [run] the counter never exceeds MAX_STEPS, and the
    loop always ends; when the counter has reached MAX_STEPS before a step
    starts, [run] does not execute the step: it appends the synthesized
    HUMAN_IN_LOOP step with reason MAX_STEPS_EXCEEDED to the last plan
    version and stops.  In [resume_with_guidance] the bound is
    MAX_STEPS + 3, and at that bound the loop stops without appending
    anything. *)
Theorem step_budget (W : AgentLoop.world) :
  (forall query, within AgentLoop.MAX_STEPS (AgentLoop.run W query)) /\
  (forall fuel r st s pv,
     (AgentLoop.MAX_STEPS <= total st)%nat ->
     AgentLoop.heap (AgentLoop.session st) !! r = Some s ->
     last (AgentLoop.plan_versions (AgentLoop.session st)) = Some pv ->
     AgentLoop.run_loop W (S fuel) (Some r) st
     = (Some true, with_max_steps_step st s pv) /\
     AgentLoop.human_in_loop_reason (AgentLoop.max_steps_step s)
     = Some (lit "MAX_STEPS_EXCEEDED") /\
     AgentLoop.type (AgentLoop.max_steps_step s) = lit "HUMAN_IN_LOOP") /\
  (forall guidance st,
     (total st <= AgentLoop.MAX_STEPS + 3)%nat ->
     within (AgentLoop.MAX_STEPS + 3)
       (AgentLoop.resume_with_guidance W guidance st)) /\
  (forall fuel r st,
     (AgentLoop.MAX_STEPS + 3 <= total st)%nat ->
     AgentLoop.resume_loop W (S fuel) (Some r) st = (Some true, st)).
Proof.
  split; [apply run_within|].
  split.
  { intros fuel r st s pv Hl Hs Hp.
    split; [apply run_loop_at_limit; assumption|]. split; reflexivity. }
  split; [apply resume_within|].
  apply resume_loop_at_limit.
Qed.

Lemma step_budget_witness :
  within (AgentLoop.MAX_STEPS + 3)
    (AgentLoop.resume_with_guidance Samples.five_step_world (lit "go on")
       (snd (AgentLoop.run Samples.five_step_world (lit "five steps")))).
Proof.
  apply (step_budget Samples.five_step_world).
  vm_compute. lia.
Defined.

(** C3, the input on which the claim as it stands fails: a session whose
    [run] stopped at MAX_STEPS = 3 is resumed; the loop of
    [resume_with_guidance] starts a step although the counter has reached
    MAX_STEPS, and the counter goes to 4. *)
Lemma resumed_session_exceeds_max_steps :
  let st0 := snd (AgentLoop.run Samples.five_step_world (lit "five steps")) in
  let out :=
    AgentLoop.resume_with_guidance Samples.five_step_world (lit "go on") st0 in
  total st0 = AgentLoop.MAX_STEPS /\
  AgentLoop.executed st0 = 3%nat /\
  fst out = Some true /\
  AgentLoop.executed (snd out) = 4%nat /\
  total (snd out) = 4%nat /\
  (AgentLoop.MAX_STEPS < total (snd out))%nat.
Proof. vm_compute. repeat split; lia. Qed.


(* ===================================================================== *)
(** * The control loop: the retry count *)
(* ===================================================================== *)

Section Retries.
Import AgentLoop.
Variable W : world.

Lemma bounded_tidy r st : bounded r 1 st <-> tidy st.
Proof.
  split; intros H i s Hs.
  - specialize (H i s Hs). destruct (Nat.eqb i r); exact H.
  - specialize (H i s Hs). destruct (Nat.eqb i r); exact H.
Qed.

Lemma bounded_fresh r st : tidy st -> fresh st (Some r) -> bounded r 0 st.
Proof.
  intros Ht (s0 & Hs0 & Hr) i s Hs.
  destruct (Nat.eqb i r) eqn:E.
  - apply Nat.eqb_eq in E. subst i.
    assert (s = s0) by congruence. subst s. lia.
  - apply (Ht i s Hs).
Qed.

Lemma neutral_same_heap r {A} (c : M A) :
  (forall st, heap (session (snd (c st))) = heap (session st)) ->
  neutral r c.
Proof. intros H b st Hb i s Hs. rewrite H in Hs. apply (Hb i s Hs). Qed.

Lemma neutral_bind r {A B} (c : M A) (k : A -> M B) :
  neutral r c -> (forall a, neutral r (k a)) -> neutral r (bind c k).
Proof.
  intros Hc Hk b st Hb. rewrite bind_step. specialize (Hc b st Hb).
  destruct (c st) as [[a|] st']; simpl in *; [apply Hk; exact Hc | exact Hc].
Qed.

Lemma neutral_write r r' f :
  (forall s, retries (f s) = retries s) -> neutral r (write r' f).
Proof.
  intros Hf b st Hb i s Hs. simpl in Hs.
  destruct (Nat.eq_dec r' i) as [-> | Hne].
  - rewrite list_lookup_alter_eq in Hs.
    destruct (heap (session st) !! i) as [s0|] eqn:E; simpl in Hs;
      [|discriminate].
    injection Hs as <-. rewrite Hf. apply (Hb i s0 E).
  - rewrite list_lookup_alter_ne in Hs by exact Hne. apply (Hb i s Hs).
Qed.

Lemma bumps_write r f :
  (forall s, (retries (f s) <= retries s + 1)%nat) -> bumps r (write r f).
Proof.
  intros Hf st Hb i s Hs. simpl in Hs.
  destruct (Nat.eq_dec r i) as [Heq | Hne].
  - subst i. rewrite list_lookup_alter_eq in Hs.
    destruct (heap (session st) !! r) as [s0|] eqn:E; simpl in Hs;
      [|discriminate].
    injection Hs as <-. rewrite Nat.eqb_refl.
    specialize (Hb r s0 E). rewrite Nat.eqb_refl in Hb.
    specialize (Hf s0). lia.
  - rewrite list_lookup_alter_ne in Hs by exact Hne.
    specialize (Hb i s Hs).
    destruct (Nat.eqb i r) eqn:En; [|exact Hb].
    apply Nat.eqb_eq in En. congruence.
Qed.

Lemma neutral_bumps r {A} (c : M A) : neutral r c -> bumps r c.
Proof.
  intros H st Hb. apply (bounded_tidy r). apply (bounded_tidy r).
  apply H. intros i s Hs. specialize (Hb i s Hs).
  destruct (Nat.eqb i r); lia.
Qed.

Lemma bumps_bind_neutral r {A B} (c : M A) (k : A -> M B) :
  neutral r c -> (forall a, bumps r (k a)) -> bumps r (bind c k).
Proof.
  intros Hc Hk st Hb. rewrite bind_step.
  pose proof (Hc 0%nat st Hb) as H0.
  destruct (c st) as [[a|] st']; simpl in *; [apply Hk; exact H0|].
  intros i s Hs. specialize (H0 i s Hs). destruct (Nat.eqb i r); lia.
Qed.

Lemma bumps_bind_bump r {A B} (c : M A) (k : A -> M B) :
  bumps r c -> (forall a, neutral r (k a)) -> bumps r (bind c k).
Proof.
  intros Hc Hk st Hb. rewrite bind_step. specialize (Hc st Hb).
  destruct (c st) as [[a|] st']; simpl in *; [apply Hk; exact Hc | exact Hc].
Qed.

Ltac neutral_tac :=
  repeat first
    [ apply neutral_same_heap; intros ?; reflexivity
    | apply neutral_write; intros ?; reflexivity
    | progress cbv zeta
    | apply neutral_bind; [|intros ?]
    | match goal with
      | |- neutral _ (if ?b then _ else _) => destruct b
      | |- neutral _ (match ?x with _ => _ end) => destruct x
      end ].

Ltac bumps_tac :=
  first
    [ solve [apply neutral_bumps; neutral_tac]
    | solve [apply bumps_write; intros ?; simpl; lia]
    | progress cbv zeta; bumps_tac
    | apply bumps_bind_neutral; [solve [neutral_tac] | intros ?; bumps_tac]
    | apply bumps_bind_bump; [solve [bumps_tac] | intros ?; solve [neutral_tac]]
    | match goal with
      | |- bumps _ (if ?b then _ else _) => destruct b; bumps_tac
      | |- bumps _ (match ?x with _ => _ end) => destruct x; bumps_tac
      end ].

(** [execute_step] retries the step it is given at most once and no
    other. *)
Lemma execute_step_bumps r : bumps r (execute_step W r).
Proof. unfold execute_step. bumps_tac. Qed.

Lemma neutral_deref r r' : neutral r (deref r').
Proof. unfold deref. neutral_tac. Qed.

Lemma neutral_count_step r : neutral r count_step.
Proof. unfold count_step. neutral_tac. Qed.

(** A new step with no retry, on a tidy heap. *)
Lemma plans_new_step s :
  retries s = 0%nat -> plans (new_step s) Some.
Proof.
  intros Hs st Ht. unfold new_step. rewrite !bind_step. simpl.
  split.
  - intros i s' Hi. simpl in Hi.
    apply lookup_app_Some in Hi.
    destruct Hi as [H | [_ H]]; [apply (Ht i s' H)|].
    destruct (i - length (heap (session st)))%nat; [|discriminate].
    simpl in H. injection H as <-. lia.
  - intros a [= <-]. exists s. split; [|exact Hs]. simpl.
    rewrite lookup_app_r by lia. rewrite Nat.sub_diag. reflexivity.
Qed.

Lemma plans_plan_from d : plans (plan_from d) (fun step => step).
Proof.
  intros st Ht. unfold plan_from.
  destruct (is_type "HUMAN_IN_LOOP" (d_type d)).
  - destruct (plans_new_step (set_status (lit "awaiting_human") (create_step d))
                eq_refl st Ht) as [T F].
    rewrite bind_step.
    destruct (new_step _ st) as [[r|] st1] eqn:E; simpl in T, F; [|split; [exact T | discriminate]].
    rewrite !bind_step. simpl. split; [exact T|].
    intros a [= <-]. apply (F r eq_refl).
  - destruct (plans_new_step (create_step d) eq_refl st Ht) as [T F].
    rewrite bind_step.
    destruct (new_step _ st) as [[r|] st1] eqn:E; simpl in T, F; [|split; [exact T | discriminate]].
    unfold add_plan_version. rewrite !bind_step. simpl. split; [exact T|].
    intros a [= <-]. apply (F r eq_refl).
Qed.

Lemma plans_bind {A B} (c : M A) (k : A -> M B) step :
  (forall st, heap (session (snd (c st))) = heap (session st)) ->
  (forall a, plans (k a) step) ->
  plans (bind c k) step.
Proof.
  intros Hc Hk st Ht. rewrite bind_step. specialize (Hc st).
  assert (Ht' : tidy (snd (c st))).
  { intros i s Hs. rewrite Hc in Hs. apply (Ht i s Hs). }
  destruct (c st) as [[a|] st']; simpl in *.
  - apply Hk. exact Ht'.
  - split; [exact Ht' | discriminate].
Qed.

Lemma plans_ret_none : plans (ret (@None ref)) (fun step => step).
Proof. intros st Ht. split; [exact Ht|]. intros a [= <-]. exact I. Qed.

Lemma plans_raise {A} step : plans (@raise A) step.
Proof. intros st Ht. split; [exact Ht | discriminate]. Qed.

Ltac same_heap :=
  intros ?st; unfold deref; rewrite ?bind_step; simpl;
  repeat match goal with
         | |- context [match ?x with _ => _ end] => destruct x; simpl
         end;
  reflexivity.

Ltac plans_tac :=
  repeat first
    [ apply plans_plan_from
    | apply plans_ret_none
    | apply plans_raise
    | progress cbv zeta
    | apply plans_bind; [solve [same_heap] | intros ?]
    | match goal with
      | |- plans (if ?b then _ else _) _ => destruct b
      | |- plans (match ?x with _ => _ end) _ => destruct x
      end ].

Lemma plans_get_next_step r : plans (get_next_step W r) (fun step => step).
Proof. unfold get_next_step. plans_tac. Qed.

(** After [evaluate_step] the session is still tidy, and the step to go
    on with is a new one. *)
Lemma plans_evaluate_step r : plans (evaluate_step W r) (fun step => step).
Proof.
  unfold evaluate_step.
  repeat first
    [ apply plans_get_next_step
    | apply plans_plan_from
    | apply plans_ret_none
    | apply plans_raise
    | apply plans_bind; [solve [same_heap] | intros ?]
    | match goal with
      | |- plans (if ?b then _ else _) _ => destruct b
      | |- plans (match ?x with _ => _ end) _ => destruct x
      end ].
Qed.

(** A turn of either loop keeps the session tidy. *)
Lemma turn_tidy (again : option ref -> M bool) step st :
  tidy st ->
  fresh st (Some step) ->
  (forall next st', tidy st' -> fresh st' next -> tidy (snd (again next st'))) ->
  tidy (snd (turn W again step st)).
Proof.
  intros Ht Hf Hagain. unfold turn. rewrite bind_step.
  pose proof (execute_step_bumps step st (bounded_fresh step st Ht Hf)) as T1.
  apply bounded_tidy in T1.
  destruct (execute_step W step st) as [[[r'|]|] st1]; simpl in T1;
    [|exact T1|exact T1].
  rewrite bind_step.
  pose proof (neutral_deref r' r' 1%nat st1) as T2.
  rewrite !bounded_tidy in T2. specialize (T2 T1).
  destruct (deref r' st1) as [[s|] st2]; simpl in T2; [|exact T2].
  destruct (is_type "HUMAN_IN_LOOP" (type s)); [exact T2|].
  rewrite bind_step.
  pose proof (neutral_count_step r' 1%nat st2) as T3.
  rewrite !bounded_tidy in T3. specialize (T3 T2).
  destruct (count_step st2) as [[u|] st3]; simpl in T3; [|exact T3].
  rewrite bind_step.
  destruct (plans_evaluate_step r' st3 T3) as [T4 F4].
  destruct (evaluate_step W r' st3) as [[next|] st4]; simpl in T4, F4;
    [|exact T4].
  apply Hagain; [exact T4 | apply (F4 next eq_refl)].
Qed.

Lemma run_loop_tidy fuel : forall step st,
  tidy st -> fresh st step -> tidy (snd (run_loop W fuel step st)).
Proof.
  induction fuel as [|fuel IH]; intros [step|] st Ht Hf; try exact Ht.
  destruct (MAX_STEPS <=? total st)%nat eqn:E.
  - cbn [run_loop]. rewrite bind_step. unfold get_session.
    unfold total in E. rewrite E.
    rewrite bind_step.
    pose proof (neutral_deref step step 1%nat st) as T1.
    rewrite !bounded_tidy in T1. specialize (T1 Ht).
    destruct (deref step st) as [[s|] st1]; simpl in T1; [|exact T1].
    rewrite bind_step.
    destruct (plans_new_step (max_steps_step s) eq_refl st1 T1) as [T2 _].
    destruct (new_step (max_steps_step s) st1) as [[h|] st2]; simpl in T2;
      [|exact T2].
    rewrite bind_step.
    assert (T3 : tidy (snd (append_to_last_plan h st2))).
    { assert (Hh : heap (session (snd (append_to_last_plan h st2)))
                   = heap (session st2)).
      { unfold append_to_last_plan. rewrite bind_step. simpl.
        destruct (last (plan_versions (session st2))); reflexivity. }
      intros i s' Hs. rewrite Hh in Hs. apply (T2 i s' Hs). }
    destruct (append_to_last_plan h st2) as [[u|] st3]; exact T3.
  - rewrite run_loop_turn by exact E.
    apply turn_tidy; [exact Ht | exact Hf | exact IH].
Qed.

Lemma tidy_bind {A B} (c : M A) (k : A -> M B) st :
  (forall st, heap (session (snd (c st))) = heap (session st)) ->
  tidy st ->
  (forall a st', tidy st' -> tidy (snd (k a st'))) ->
  tidy (snd (bind c k st)).
Proof.
  intros Hc Ht Hk. rewrite bind_step. specialize (Hc st).
  assert (Ht' : tidy (snd (c st))).
  { intros i s Hs. rewrite Hc in Hs. apply (Ht i s Hs). }
  destruct (c st) as [[a|] st']; simpl in *; [apply Hk|]; exact Ht'.
Qed.

(** In [run] no step is ever retried more than once: the test of
    MAX_RETRIES in [execute_step] never holds there. *)
Lemma run_tidy query : tidy (snd (run W query)).
Proof.
  unfold run, run_body.
  assert (H0 : tidy (new_session query)).
  { intros i s Hs. simpl in Hs. rewrite lookup_nil in Hs. discriminate. }
  revert H0. generalize (new_session query). intros st H0.
  apply tidy_bind; [same_heap | exact H0 |]. intros p st1 T1.
  apply tidy_bind; [same_heap | exact T1 |]. intros u st2 T2.
  destruct (original_goal_achieved p).
  - apply tidy_bind; [same_heap | exact T2 |]. intros u' st3 T3. exact T3.
  - apply tidy_bind; [same_heap | exact T2 |]. intros d st3 T3.
    rewrite bind_step.
    destruct (plans_plan_from d st3 T3) as [T4 F4].
    destruct (plan_from d st3) as [[step|] st4]; simpl in T4, F4; [|exact T4].
    destruct (is_type "HUMAN_IN_LOOP" _); [exact T4|].
    apply run_loop_tidy; [exact T4 | apply (F4 step eq_refl)].
Qed.
End Retries.

(** C2, what the code does instead.  In [run] no Step object is ever
    retried more than once, whatever the oracle, the tools and the
    evaluation do, so the test [step.retries >= MAX_RETRIES] of
    [execute_step] never holds.  When the tool fails at every attempt, each
    CODE step is attempted once and then replaced by a newly planned step,
    and after three attempts the loop stops for MAX_STEPS_EXCEEDED: no step
    is converted for MAX_RETRIES_EXCEEDED, and the three attempts have used
    up the step budget. *)
Theorem always_failing_tool_ends_in_max_steps_exceeded :
  (forall (W : AgentLoop.world) (query : str) i s,
     AgentLoop.heap (AgentLoop.session (snd (AgentLoop.run W query))) !! i = Some s ->
     (AgentLoop.retries s <= 1 < AgentLoop.MAX_RETRIES)%nat) /\
  let out := AgentLoop.run Samples.failing_world (lit "call the flaky tool") in
  let steps := AgentLoop.heap (AgentLoop.session (snd out)) in
  fst out = Some true /\
  AgentLoop.executed (snd out) = 3%nat /\
  total (snd out) = 3%nat /\
  map AgentLoop.retries steps = [1; 1; 1; 0; 0]%nat /\
  map AgentLoop.type steps
  = [lit "CODE"; lit "CODE"; lit "CODE"; lit "CODE"; lit "HUMAN_IN_LOOP"] /\
  map AgentLoop.human_in_loop_reason steps
  = [None; None; None; None; Some (lit "MAX_STEPS_EXCEEDED")] /\
  map AgentLoop.pv_steps (AgentLoop.plan_versions (AgentLoop.session (snd out)))
  = [[0]; [1]; [2]; [3; 4]]%nat.
Proof.
  split.
  - intros W query i s Hs. split.
    + apply (run_tidy W query i s Hs).
    + unfold AgentLoop.MAX_RETRIES. lia.
  - vm_compute. repeat split; reflexivity.
Qed.

(* ===================================================================== *)
(** * Further properties of modules/heuristics_code.py *)
(* ===================================================================== *)

Section StringFacts.
Variable U : unicode.

Lemma starts_with_app w : forall s,
  starts_with w s = true <-> exists post, s = w ++ post.
Proof.
  induction w as [|a w IH]; intros s; simpl.
  - split; [eauto | reflexivity].
  - destruct s as [|b s].
    + split; [discriminate | intros [post H]; discriminate].
    + rewrite andb_true_iff, N.eqb_eq, IH. split.
      * intros [-> [post ->]]. eauto.
      * intros [post H]. injection H as -> ->. eauto.
Qed.

(** The operator [in] finds exactly the occurrences. *)
Lemma contains_occurs w : forall s, contains w s = true <-> occurs w s.
Proof.
  induction s as [|c s IH].
  - simpl. rewrite orb_false_r, starts_with_app. split.
    + intros [post H]. exists [], post. exact H.
    + intros (pre & post & H). destruct pre; [eauto|discriminate].
  - cbn [contains]. rewrite orb_true_iff, starts_with_app, IH. split.
    + intros [[post H] | (pre & post & H)].
      * exists [], post. exact H.
      * exists (c :: pre), post. rewrite H. reflexivity.
    + intros (pre & post & H). destruct pre as [|a pre].
      * left. eauto.
      * right. injection H as -> ->. eexists _, _. reflexivity.
Qed.

Lemma lstrip_blank s :
  (forall c, In c s -> is_space U c = true) -> lstrip U s = [].
Proof.
  induction s as [|c s IH]; intros H; [reflexivity|].
  simpl. rewrite (H c) by (left; reflexivity).
  apply IH. intros x Hx. apply H. right. exact Hx.
Qed.

(** Stripping on the left keeps everything from the first character that
    is not whitespace. *)
Lemma lstrip_keeps c w post : forall pre,
  is_space U c = false ->
  exists pre', lstrip U (pre ++ c :: w ++ post) = pre' ++ c :: w ++ post.
Proof.
  induction pre as [|a pre IH]; intros Hc.
  - exists []. simpl. rewrite Hc. reflexivity.
  - simpl. destruct (is_space U a).
    + apply IH. exact Hc.
    + exists (a :: pre). reflexivity.
Qed.

Lemma strip_keeps w pre post :
  w <> [] -> (forall c, In c w -> is_space U c = false) ->
  exists pre' post', strip U (pre ++ w ++ post) = pre' ++ w ++ post'.
Proof.
  intros Hne Hw. unfold strip.
  destruct w as [|c w]; [contradiction|].
  change ((c :: w) ++ post) with (c :: w ++ post).
  destruct (lstrip_keeps c w post pre) as [pre' ->];
    [apply Hw; left; reflexivity|].
  change (c :: w ++ post) with ((c :: w) ++ post).
  assert (Hr : exists d v, rev (c :: w) = d :: v /\ is_space U d = false).
  { destruct (rev (c :: w)) as [|d v] eqn:E.
    - apply (f_equal (@length _)) in E. rewrite length_rev in E. discriminate.
    - exists d, v. split; [reflexivity|]. apply Hw.
      apply in_rev. rewrite E. left. reflexivity. }
  destruct Hr as (d & v & Hr & Hd).
  replace (rev (pre' ++ (c :: w) ++ post))
    with (rev post ++ d :: v ++ rev pre')
    by (rewrite !rev_app_distr, Hr, <- !app_assoc; reflexivity).
  destruct (lstrip_keeps d v (rev pre') (rev post) Hd) as [post' ->].
  exists pre', (rev post').
  rewrite rev_app_distr.
  change (d :: v ++ rev pre') with ((d :: v) ++ rev pre').
  rewrite rev_app_distr, rev_involutive, <- Hr, rev_involutive.
  rewrite <- app_assoc. reflexivity.
Qed.

(** What stripping leaves neither starts nor ends with whitespace. *)
Lemma lstrip_head s c : head (lstrip U s) = Some c -> is_space U c = false.
Proof.
  induction s as [|a s IH]; simpl; [discriminate|].
  destruct (is_space U a) eqn:E; [exact IH|].
  simpl. intros H. injection H as <-. exact E.
Qed.

Lemma lstrip_suffix s : exists pre, s = pre ++ lstrip U s.
Proof.
  induction s as [|a s [pre IH]]; [exists []; reflexivity|].
  simpl. destruct (is_space U a).
  - exists (a :: pre). simpl. f_equal. exact IH.
  - exists []. reflexivity.
Qed.

Lemma head_rev_last (s : str) : head (rev s) = last s.
Proof.
  induction s as [|a s IH]; [reflexivity|].
  simpl rev. destruct s as [|b s]; [reflexivity|].
  change (last (a :: b :: s)) with (last (b :: s)). rewrite <- IH.
  simpl rev. destruct (rev s ++ [b]) eqn:E; [|reflexivity].
  destruct (rev s); discriminate.
Qed.

Lemma last_app_nonempty (a b : str) : b <> [] -> last (a ++ b) = last b.
Proof.
  intros H. destruct b as [|x b]; [contradiction|]. clear H.
  revert x. induction b as [|y b IH] using rev_ind; intros x.
  - rewrite last_snoc. reflexivity.
  - rewrite app_comm_cons, app_assoc, !last_snoc. reflexivity.
Qed.

Lemma strip_ends s c :
  head (strip U s) = Some c \/ last (strip U s) = Some c ->
  is_space U c = false.
Proof.
  unfold strip. set (t := lstrip U s). set (u := lstrip U (rev t)).
  intros [H | H].
  - rewrite head_rev_last in H.
    destruct (lstrip_suffix (rev t)) as [pre Hp]. fold u in Hp.
    destruct u as [|x u'] eqn:Eu; [discriminate|].
    assert (Hl : last (rev t) = Some c).
    { rewrite Hp. rewrite last_app_nonempty by discriminate. exact H. }
    rewrite <- head_rev_last, rev_involutive in Hl.
    apply (lstrip_head s). exact Hl.
  - rewrite <- head_rev_last, rev_involutive in H.
    apply (lstrip_head (rev t)). exact H.
Qed.

(** A letter, in either case, of a lower-case ASCII word. *)
Lemma ascii_lower_letter c x :
  ascii_lower c = x -> (97 <= x)%N -> (x <= 122)%N ->
  is_ascii c = true /\ is_space U c = false.
Proof.
  unfold ascii_lower, is_space, is_ascii. intros H H1 H2.
  destruct (N.leb_spec 65 c), (N.leb_spec c 90); simpl in H;
    assert (Ha : (c <? 128)%N = true) by (apply N.ltb_lt; lia);
    rewrite Ha; (split; [reflexivity|]);
    destruct (N.leb_spec 9 c), (N.leb_spec c 13), (N.leb_spec 28 c),
      (N.leb_spec c 32); simpl; try reflexivity; lia.
Qed.

(** Lowering a stretch of ASCII text lowers each of its characters. *)
Lemma lower_from_ascii w : forall before s,
  (forall c, In c w -> is_ascii c = true) ->
  lower_from U before (w ++ s)
  = map ascii_lower w ++ lower_from U (before ++ w) s.
Proof.
  induction w as [|c w IH]; intros before s H.
  - simpl. rewrite app_nil_r. reflexivity.
  - simpl. rewrite (H c) by (left; reflexivity).
    rewrite IH by (intros x Hx; apply H; right; exact Hx).
    simpl. replace ((before ++ [c]) ++ w) with (before ++ c :: w)
      by (rewrite <- app_assoc; reflexivity).
    reflexivity.
Qed.

(** A word written in any mix of upper and lower case is found, in lower
    case, in the lowered and stripped text. *)
Lemma lower_strip_occurs w target pre post :
  map ascii_lower w = target -> target <> [] ->
  (forall x, In x target -> (97 <= x)%N /\ (x <= 122)%N) ->
  occurs target (lower U (strip U (pre ++ w ++ post))).
Proof.
  intros Hw Hne Ht.
  assert (Hc : forall c, In c w -> is_ascii c = true /\ is_space U c = false).
  { intros c Hin. apply (ascii_lower_letter c (ascii_lower c) eq_refl);
      apply Ht; rewrite <- Hw; apply in_map; exact Hin. }
  destruct (strip_keeps w pre post) as (pre' & post' & ->).
  - intros ->. apply Hne. symmetry. exact Hw.
  - intros c Hin. apply Hc. exact Hin.
  - unfold lower.
    destruct (lower_from_app U pre' [] (w ++ post')) as [x ->].
    rewrite lower_from_ascii by (intros c Hin; apply Hc; exact Hin).
    rewrite Hw. eexists _, _. reflexivity.
Qed.
End StringFacts.

Lemma apply_query_length_guard_length (query : str) (max_length : Z) :
  (max_length < Z.of_nat (length query))%Z ->
  Z.of_nat (length (Heuristics.apply_query_length_guard query max_length))
  = (if (50 <=? max_length)%Z then max_length - 25
     else Z.max 0 (Z.of_nat (length query) + max_length - 50) + 25)%Z.
Proof.
  intros H. unfold Heuristics.apply_query_length_guard.
  destruct (Z.leb_spec (Z.of_nat (length query)) max_length); [lia|].
  rewrite length_app.
  change (length (lit "...[truncated for length]")) with 25%nat.
  unfold up_to.
  destruct (Z.leb_spec 0 (max_length - 50)), (Z.leb_spec 50 max_length);
    rewrite length_firstn; lia.
Qed.

(** X1.  The query length guard brings a query that is longer than
    [max_length] within [max_length] exactly when [max_length] is at least
    50: the cut is made at [max_length - 50], which for a smaller
    [max_length] is a negative index and counts from the end of the
    query. *)
Theorem query_length_guard_bound (query : str) (max_length : Z) :
  (max_length < Z.of_nat (length query))%Z ->
  (Z.of_nat (length (Heuristics.apply_query_length_guard query max_length))
   <= max_length)%Z
  <-> (50 <= max_length)%Z.
Proof.
  intros H. rewrite (apply_query_length_guard_length query max_length H).
  destruct (Z.leb_spec 50 max_length); lia.
Qed.

Lemma query_length_guard_bound_witness :
  (Z.of_nat (length (Heuristics.apply_query_length_guard
                       (repeat 120%N 100) 60)) <= 60)%Z
  <-> (50 <= 60)%Z.
Proof.
  apply (query_length_guard_bound (repeat 120%N 100) 60).
  vm_compute. reflexivity.
Defined.

(** X2.  With [max_length] at least 50 the guard is idempotent: what it
    returns is within the bound, so a second pass returns it as it is. *)
Theorem query_length_guard_idempotent (query : str) (max_length : Z) :
  (50 <= max_length)%Z ->
  Heuristics.apply_query_length_guard
    (Heuristics.apply_query_length_guard query max_length) max_length
  = Heuristics.apply_query_length_guard query max_length.
Proof.
  intros H.
  destruct (Z.leb_spec (Z.of_nat (length query)) max_length) as [Hle | Hgt].
  - unfold Heuristics.apply_query_length_guard.
    apply Z.leb_le in Hle. rewrite Hle, Hle. reflexivity.
  - pose proof (apply_query_length_guard_length query max_length Hgt) as Hl.
    destruct (Z.leb_spec 50 max_length); [|lia].
    unfold Heuristics.apply_query_length_guard at 1.
    replace (Z.of_nat (length (Heuristics.apply_query_length_guard query max_length))
             <=? max_length)%Z with true by (symmetry; apply Z.leb_le; lia).
    reflexivity.
Qed.

Lemma query_length_guard_idempotent_witness :
  Heuristics.apply_query_length_guard
    (Heuristics.apply_query_length_guard (repeat 120%N 100) 60) 60
  = Heuristics.apply_query_length_guard (repeat 120%N 100) 60.
Proof.
  apply (query_length_guard_idempotent (repeat 120%N 100) 60). lia.
Defined.

(** X3.  When the similarity ratio is between 0 and 1, so is the
    confidence score of a tool; a tool among the recent successes scores at
    least 0.3, any other tool at most 0.7. *)
Theorem tool_confidence_between_0_and_1
    (U : unicode) (ratio : str -> str -> R)
    (tool_name query tool_description : str) (recent_successes : list str)
    (threshold : R) :
  (forall a b, 0 <= ratio a b <= 1)%R ->
  let score :=
    Heuristics.score_tool_confidence U ratio tool_name query tool_description
      recent_successes threshold in
  (0 <= score <= 1)%R /\
  (tool_name ∈ recent_successes -> 3 / 10 <= score)%R /\
  (tool_name ∉ recent_successes -> score <= 7 / 10)%R.
Proof.
  intros H. unfold Heuristics.score_tool_confidence. cbv zeta.
  pose proof (H (lower U query) (lower U tool_description)) as Hr.
  destruct (bool_decide_reflect (tool_name ∈ recent_successes)) as [Hin | Hin].
  - split; [lra|]. split; [intros _; lra | intros Hn; contradiction].
  - split; [lra|]. split; [intros Hy; contradiction | intros _; lra].
Qed.

Lemma tool_confidence_between_0_and_1_witness :
  (0 <= Heuristics.score_tool_confidence ascii_only (fun _ _ => 1%R)
          (lit "add") (lit "add 2 and 2") (lit "adds two numbers")
          [lit "add"] (3 / 10) <= 1)%R.
Proof.
  apply (tool_confidence_between_0_and_1 ascii_only (fun _ _ => 1%R)
           (lit "add") (lit "add 2 and 2") (lit "adds two numbers")
           [lit "add"] (3 / 10)%R).
  intros a b. lra.
Defined.

Section Confidence.
Variable U : unicode.
Variable ratio : str -> str -> R.

Lemma filter_tools_by_confidence_cases tools query recent_successes threshold :
  let kept :=
    Heuristics.filter_tools_by_confidence U ratio tools query
      recent_successes threshold in
  (kept = tools /\
   forall tool, In tool tools ->
     ~ passes U ratio query recent_successes threshold tool) \/
  (kept <> [] /\
   forall tool, In tool kept <->
     In tool tools /\ passes U ratio query recent_successes threshold tool).
Proof.
  unfold Heuristics.filter_tools_by_confidence. cbv zeta.
  match goal with |- context [List.filter ?f tools] => set (test := f) end.
  assert (Ht : forall tool, test tool = true
                            <-> passes U ratio query recent_successes threshold tool).
  { intros tool. unfold test, passes. destruct (Rle_dec _ _); split; auto.
    discriminate. }
  destruct (List.filter test tools) as [|x kept] eqn:E.
  - left. split; [reflexivity|]. intros tool Hin Hp.
    assert (Hf : In tool (List.filter test tools))
      by (apply filter_In; split; [exact Hin | apply Ht; exact Hp]).
    rewrite E in Hf. destruct Hf.
  - right. split; [discriminate|]. intros tool. rewrite <- E.
    rewrite filter_In, Ht. reflexivity.
Qed.
End Confidence.



(** X5.  With a non-negative similarity ratio and a threshold of at most
    0.3 (the default), a tool that is among the recent successes always
    passes the confidence filter, whatever its description. *)
Theorem recent_success_passes_the_filter
    (U : unicode) (ratio : str -> str -> R) (tools : list Heuristics.tool_info)
    (query : str) (recent_successes : list str) (threshold : R)
    (tool : Heuristics.tool_info) :
  (forall a b, 0 <= ratio a b)%R ->
  (threshold <= 3 / 10)%R ->
  In tool tools ->
  get_or (Heuristics.t_name tool) [] ∈ recent_successes ->
  In tool (Heuristics.filter_tools_by_confidence U ratio tools query
             recent_successes threshold).
Proof.
  intros Hr Ht Hin Hrecent.
  assert (Hp : passes U ratio query recent_successes threshold tool).
  { unfold passes, Heuristics.score_tool_confidence. cbv zeta.
    rewrite bool_decide_true by exact Hrecent.
    pose proof (Hr (lower U query)
                  (lower U (get_or (Heuristics.t_description tool) []))).
    lra. }
  destruct (filter_tools_by_confidence_cases U ratio tools query
              recent_successes threshold) as [[_ Hnone] | [_ Hk]].
  - destruct (Hnone tool Hin Hp).
  - apply Hk. split; assumption.
Qed.

Lemma recent_success_passes_the_filter_witness :
  In {| Heuristics.t_name := Some (lit "add"); Heuristics.t_description := None |}
     (Heuristics.filter_tools_by_confidence ascii_only (fun _ _ => 0%R)
        [{| Heuristics.t_name := Some (lit "add");
            Heuristics.t_description := None |}]
        (lit "add 2 and 2") [lit "add"] (3 / 10)).
Proof.
  apply (recent_success_passes_the_filter ascii_only (fun _ _ => 0%R)
           [{| Heuristics.t_name := Some (lit "add");
               Heuristics.t_description := None |}]
           (lit "add 2 and 2") [lit "add"] (3 / 10)%R).
  - intros a b. lra.
  - lra.
  - left. reflexivity.
  - simpl. apply list_elem_of_singleton. reflexivity.
Defined.

(** X6.  The memory guard never stores the result of a failed call, a
    result that is empty or only whitespace, a result whose stripped text
    is already stored, or a result in which the word error or failed
    occurs, in whatever mix of upper and lower case. *)
Theorem memory_guard_never_stores
    (U : unicode) (tool_result : str) (success : bool)
    (existing_results : list str) :
  success = false \/
  (forall c, In c tool_result -> is_space U c = true) \/
  strip U tool_result ∈ existing_results \/
  (exists pre w post,
     tool_result = pre ++ w ++ post /\
     (map ascii_lower w = lit "error" \/ map ascii_lower w = lit "failed")) ->
  Heuristics.should_store_in_memory U tool_result success existing_results
  = false.
Proof.
  unfold Heuristics.should_store_in_memory. cbv zeta.
  intros [-> | H]; [reflexivity|].
  destruct success; [simpl | reflexivity].
  destruct H as [Hblank | [Hdup | (pre & w & post & -> & Hw)]].
  - unfold strip. rewrite (lstrip_blank U tool_result Hblank). reflexivity.
  - destruct (_ || _ || _); [reflexivity|].
    rewrite bool_decide_true by exact Hdup. reflexivity.
  - destruct (_ || _ || _); [reflexivity|].
    destruct (bool_decide _); [reflexivity|].
    assert (Hc : contains (lit "error")
                   (lower U (strip U (pre ++ w ++ post)))
                 || contains (lit "failed")
                      (lower U (strip U (pre ++ w ++ post))) = true).
    { apply orb_true_iff.
      destruct Hw as [Hw | Hw]; [left | right]; apply contains_occurs;
        apply (lower_strip_occurs U w _ pre post Hw); try discriminate;
        intros x Hx; simpl in Hx;
        repeat (destruct Hx as [<- | Hx]; [split; lia|]); destruct Hx. }
    rewrite Hc. reflexivity.
Qed.

Lemma memory_guard_never_stores_witness :
  Heuristics.should_store_in_memory ascii_only
    (lit "Tool call FAILED: timeout") true []
  = false.
Proof.
  apply (memory_guard_never_stores ascii_only
           (lit "Tool call FAILED: timeout") true []).
  right. right. right.
  exists (lit "Tool call "), (lit "FAILED"), (lit ": timeout").
  split; [reflexivity | right; reflexivity].
Defined.

(** X7.  The server filter only ever returns available servers; it returns
    some server whenever any is available, and when at least one selected
    server is available it returns selected servers only. *)
Theorem server_filter_returns_available_servers
    (selected_servers available_servers : list str) :
  let kept :=
    Heuristics.filter_available_servers selected_servers available_servers in
  (forall s, In s kept -> In s available_servers) /\
  (available_servers <> [] -> kept <> []) /\
  ((exists s, In s selected_servers /\ In s available_servers) ->
   forall s, In s kept -> In s selected_servers).
Proof.
  unfold Heuristics.filter_available_servers. cbv zeta.
  set (test := fun s : str => bool_decide (s ∈ available_servers)).
  assert (Ht : forall s, test s = true <-> In s available_servers).
  { intros s. unfold test. rewrite bool_decide_eq_true.
    apply list_elem_of_In. }
  destruct (List.filter test selected_servers) as [|x kept] eqn:E.
  - split; [auto|]. split; [auto|].
    intros (s & Hs & Ha).
    assert (Hf : In s (List.filter test selected_servers))
      by (apply filter_In; split; [exact Hs | apply Ht; exact Ha]).
    rewrite E in Hf. destruct Hf.
  - rewrite <- E. split.
    + intros s Hs. apply filter_In in Hs. apply Ht. apply Hs.
    + split; [intros _; rewrite E; discriminate|].
      intros _ s Hs. apply filter_In in Hs. apply Hs.
Qed.

Lemma server_filter_returns_available_servers_witness :
  Heuristics.filter_available_servers [lit "math"; lit "web"] [lit "web"]
  <> [].
Proof.
  apply (proj1 (proj2 (server_filter_returns_available_servers
                         [lit "math"; lit "web"] [lit "web"]))).
  discriminate.
Defined.

Section LinterOutsideSolve.
Import Heuristics.



End LinterOutsideSolve.



(* ===================================================================== *)
(** * Further properties of modules/action.py *)
(* ===================================================================== *)

Section ToolRecord.
Import Action.
Variable U : unicode.
Variable P : python.
Variable d : dispatcher.






End ToolRecord.





(* ===================================================================== *)
(** * Further properties of modules/historical_index.py *)
(* ===================================================================== *)

Section WordMatches.
Import Re.
Variable p : char -> bool.

(** The equation of a quantified class on a non-empty text. *)
Lemma m_many_cons g re prev c s n gs ge :
  m (Many p g :: re) prev (c :: s) n gs ge
  = if p c then
      if g then
        match m (Many p g :: re) (Some c) s (S n) gs ge with
        | Some r => Some r
        | None => m re prev (c :: s) n gs ge
        end
      else
        match m re prev (c :: s) n gs ge with
        | Some r => Some r
        | None => m (Many p g :: re) (Some c) s (S n) gs ge
        end
    else m re prev (c :: s) n gs ge.
Proof. reflexivity. Qed.

Lemma m_many_nil g re prev n gs ge :
  m (Many p g :: re) prev [] n gs ge = m re prev [] n gs ge.
Proof. reflexivity. Qed.

(** A quantified class takes some characters of its class and leaves the
    rest of the text to the rest of the pattern. *)
Lemma m_many_takes g re gs ge r : forall s prev n,
  m (Many p g :: re) prev s n gs ge = Some r ->
  exists k prev',
    (k <= length s)%nat /\
    (forall c, In c (firstn k s) -> p c = true) /\
    m re prev' (skipn k s) (n + k) gs ge = Some r.
Proof.
  induction s as [|c s IH]; intros prev n H.
  - rewrite m_many_nil in H. exists 0%nat, prev. simpl.
    rewrite Nat.add_0_r. split; [lia|]. split; [tauto | exact H].
  - rewrite m_many_cons in H.
    assert (Hstay : m re prev (c :: s) n gs ge = Some r ->
                    exists k prev',
                      (k <= length (c :: s))%nat /\
                      (forall x, In x (firstn k (c :: s)) -> p x = true) /\
                      m re prev' (skipn k (c :: s)) (n + k) gs ge = Some r).
    { intros Hm. exists 0%nat, prev. simpl. rewrite Nat.add_0_r.
      split; [lia|]. split; [tauto | exact Hm]. }
    assert (Hgo : p c = true ->
                  forall prev0,
                  m (Many p g :: re) prev0 s (S n) gs ge = Some r ->
                  exists k prev',
                    (k <= length (c :: s))%nat /\
                    (forall x, In x (firstn k (c :: s)) -> p x = true) /\
                    m re prev' (skipn k (c :: s)) (n + k) gs ge = Some r).
    { intros Hc prev0 Hm.
      destruct (IH _ _ Hm) as (k & prev' & Hk & Hp & Hr).
      exists (S k), prev'. simpl. split; [lia|]. split.
      - intros x [<- | Hx]; [exact Hc | apply Hp; exact Hx].
      - replace (n + S k)%nat with (S n + k)%nat by lia. exact Hr. }
    destruct (p c) eqn:Hc; [|apply Hstay; exact H].
    destruct g.
    + destruct (m (Many p true :: re) (Some c) s (S n) gs ge) eqn:E.
      * injection H as ->. apply (Hgo eq_refl (Some c)). exact E.
      * apply Hstay. exact H.
    + destruct (m re prev (c :: s) n gs ge) eqn:E.
      * injection H as ->. apply Hstay. reflexivity.
      * apply (Hgo eq_refl (Some c)). exact H.
Qed.

Lemma m_wordb w re prev s n gs ge :
  m (WordB w :: re) prev s n gs ge
  = if xorb (at_word w prev) (at_word w (head s))
    then m re prev s n gs ge else None.
Proof. reflexivity. Qed.

Lemma m_one q re prev s n gs ge :
  m (One q :: re) prev s n gs ge
  = match s with
    | c :: s' => if q c then m re (Some c) s' (S n) gs ge else None
    | [] => None
    end.
Proof. reflexivity. Qed.

(** \b\w+\b reads a non-empty run of word characters. *)
Lemma m_word prev s r :
  m ([WordB p] ++ plus p ++ [WordB p]) prev s 0 0 0 = Some r ->
  (1 <= m_len r <= length s)%nat /\
  forall c, In c (firstn (m_len r) s) -> p c = true.
Proof.
  unfold plus. cbn [app]. rewrite m_wordb.
  destruct (xorb _ _); [|discriminate].
  rewrite m_one.
  destruct s as [|c s]; [discriminate|].
  destruct (p c) eqn:Hc; [|discriminate].
  intros H. apply m_many_takes in H.
  destruct H as (k & prev' & Hk & Hp & H).
  rewrite m_wordb in H. destruct (xorb _ _); [|discriminate].
  injection H as <-. cbn [m_len]. simpl length. split; [lia|].
  simpl. intros x [<- | Hx]; [exact Hc | apply Hp; exact Hx].
Qed.

Lemma findall_whole_word : forall s prev skip t,
  In t (findall_from true ([WordB p] ++ plus p ++ [WordB p]) prev s skip) ->
  t <> [] /\ forall c, In c t -> p c = true.
Proof.
  set (re := [WordB p] ++ plus p ++ [WordB p]).
  assert (Hm : forall prev s r t,
            m re prev s 0 0 0 = Some r ->
            t = firstn (m_len r) s ->
            t <> [] /\ forall c, In c t -> p c = true).
  { intros prev s r t H ->. apply m_word in H. destruct H as [Hl Hp].
    split; [|exact Hp].
    intros E. apply (f_equal (@length _)) in E.
    rewrite length_firstn in E. simpl in E. lia. }
  clearbody re.
  induction s as [|c s IH]; intros prev skip t.
  - destruct skip; cbn [findall_from]; [|intros []].
    destruct (m re prev [] 0 0 0) eqn:E; [|intros []].
    intros [<- | []]. eapply Hm; [exact E | reflexivity].
  - destruct skip as [|k]; cbn [findall_from]; [|apply IH].
    destruct (m re prev (c :: s) 0 0 0) eqn:E; [|apply IH].
    intros [<- | Hin]; [eapply Hm; [exact E | reflexivity]|].
    eapply IH. exact Hin.
Qed.
End WordMatches.

(** X11.  Every query term is a run of at least three word characters
    that is not a stop word: no punctuation and no whitespace reaches the
    scorer. *)
Theorem query_terms_are_words (U : unicode) (user_input : str) (t : str) :
  In t (HistoricalIndex.extract_query_terms U user_input) ->
  (3 <= length t)%nat /\
  (t ∉ HistoricalIndex.stop_words) /\
  forall c, In c t -> is_word U c = true.
Proof.
  unfold HistoricalIndex.extract_query_terms. cbv zeta.
  intros H. apply filter_In in H. destruct H as [Hin Hf].
  apply andb_true_iff in Hf. destruct Hf as [Hs Hl].
  apply negb_true_iff, bool_decide_eq_false in Hs.
  apply Nat.ltb_lt in Hl.
  split; [lia|]. split; [exact Hs|].
  apply (findall_whole_word (is_word U) _ _ _ _ Hin).
Qed.

Lemma query_terms_are_words_witness :
  (3 <= length (lit "weather"))%nat /\
  (lit "weather" ∉ HistoricalIndex.stop_words) /\
  forall c, In c (lit "weather") -> is_word ascii_only c = true.
Proof.
  apply (query_terms_are_words ascii_only (lit "What is the weather?")).
  vm_compute. right. left. reflexivity.
Defined.

Section Similarity.
Import HistoricalIndex.
Local Open Scope R_scope.
Variable U : unicode.

Lemma list_to_set_nonempty (l : list str) :
  l <> [] -> (list_to_set l : gset str) <> ∅.
Proof.
  destruct l as [|x l]; [contradiction|]. intros _ H.
  assert (Hx : x ∈ (list_to_set (x :: l) : gset str))
    by (apply elem_of_list_to_set; left).
  rewrite H in Hx. apply elem_of_empty in Hx. exact Hx.
Qed.

(** A text with no terms is similar to nothing. *)
Lemma simple_cosine_similarity_no_terms a b :
  extract_query_terms U a = [] -> simple_cosine_similarity U a b = 0.
Proof.
  intros H. unfold simple_cosine_similarity. rewrite H. reflexivity.
Qed.

(** A text with a term is wholly similar to itself. *)
Lemma simple_cosine_similarity_self a :
  extract_query_terms U a <> [] -> simple_cosine_similarity U a a = 1.
Proof.
  intros H. unfold simple_cosine_similarity.
  set (w := list_to_set (extract_query_terms U a) : gset str).
  assert (Hw : w <> ∅) by (apply list_to_set_nonempty; exact H).
  rewrite (bool_decide_false _ Hw). cbn [orb].
  assert (Hi : w ∩ w = w) by apply (idemp_L (∩)).
  assert (Hu : w ∪ w = w) by apply (idemp_L (∪)).
  rewrite Hi, Hu.
  rewrite (bool_decide_false _ Hw).
  assert (Hs : INR (size w) <> 0).
  { apply not_0_INR. apply size_non_empty_iff. intros E. apply Hw.
    apply leibniz_equiv. exact E. }
  field. exact Hs.
Qed.
End Similarity.

(** X12.  The similarity of two texts does not depend on their order. *)
Theorem similarity_is_symmetric (U : unicode) (text1 text2 : str) :
  HistoricalIndex.simple_cosine_similarity U text1 text2
  = HistoricalIndex.simple_cosine_similarity U text2 text1.
Proof.
  unfold HistoricalIndex.simple_cosine_similarity. cbv zeta.
  set (w1 := list_to_set (HistoricalIndex.extract_query_terms U text1) : gset str).
  set (w2 := list_to_set (HistoricalIndex.extract_query_terms U text2) : gset str).
  rewrite orb_comm.
  assert (Hi : w2 ∩ w1 = w1 ∩ w2) by apply (comm_L (∩)).
  assert (Hu : w2 ∪ w1 = w1 ∪ w2) by apply (comm_L (∪)).
  rewrite Hi, Hu.
  reflexivity.
Qed.

(** X13.  A record whose text has a query term and was already seen gets
    no diversity bonus; a record whose text has no term at all (an empty
    text, or stop words and short words only) always gets it, however
    often it was seen. *)
Theorem diversity_bonus_of_repeated_text
    (U : unicode) (it : HistoricalIndex.item) (seen_texts : gset str) :
  (HistoricalIndex.item_text U it ∈ seen_texts ->
   HistoricalIndex.extract_query_terms U (HistoricalIndex.item_text U it) <> [] ->
   HistoricalIndex.diversity U it seen_texts = 0%R) /\
  (HistoricalIndex.extract_query_terms U (HistoricalIndex.item_text U it) = [] ->
   HistoricalIndex.diversity U it seen_texts = (5 / 100)%R).
Proof.
  unfold HistoricalIndex.diversity, HistoricalIndex.is_diverse. split.
  - intros Hin Hne.
    match goal with |- context [existsb ?f _] => set (test := f) end.
    assert (He : existsb test (elements seen_texts) = true).
    { apply existsb_exists. exists (HistoricalIndex.item_text U it). split.
      - apply list_elem_of_In. apply elem_of_elements. exact Hin.
      - unfold test. rewrite (simple_cosine_similarity_self U _ Hne).
        destruct (Rlt_dec (8 / 10) 1) as [_ | Hn]; [reflexivity|].
        exfalso. apply Hn. lra. }
    rewrite He. reflexivity.
  - intros Hnone.
    match goal with |- context [existsb ?f _] => set (test := f) end.
    assert (He : existsb test (elements seen_texts) = false).
    { apply not_true_is_false. intros He. apply existsb_exists in He.
      destruct He as (x & _ & Hx). unfold test in Hx.
      rewrite (simple_cosine_similarity_no_terms U _ x Hnone) in Hx.
      destruct (Rlt_dec (8 / 10) 0) as [Hlt | _]; [lra | discriminate]. }
    rewrite He. reflexivity.
Qed.

Lemma diversity_bonus_of_repeated_text_witness :
  HistoricalIndex.diversity ascii_only (Samples.record_at 0)
    {[ HistoricalIndex.item_text ascii_only (Samples.record_at 0) ]}
  = 0%R.
Proof.
  apply (proj1 (diversity_bonus_of_repeated_text ascii_only
                  (Samples.record_at 0)
                  {[ HistoricalIndex.item_text ascii_only
                       (Samples.record_at 0) ]})).
  - apply elem_of_singleton. reflexivity.
  - vm_compute. discriminate.
Defined.

Section Sorting.
Import HistoricalIndex.
Local Open Scope R_scope.

Lemma insert_desc_permutation x : forall l,
  Permutation (insert_desc x l) (x :: l).
Proof.
  induction l as [|y l IH]; simpl; [reflexivity|].
  destruct (Rlt_dec (fst y) (fst x)); [reflexivity|].
  rewrite IH. apply perm_swap.
Qed.

Lemma insert_desc_descending x : forall l,
  descending l -> descending (insert_desc x l).
Proof.
  induction l as [|y l IH]; simpl; [tauto|].
  intros [Hy Hl]. destruct (Rlt_dec (fst y) (fst x)) as [Hlt | Hge].
  - simpl. split; [|split; assumption].
    intros z [<- | Hz]; [lra|]. specialize (Hy z Hz). lra.
  - simpl. split; [|apply IH; exact Hl].
    intros z Hz.
    apply (Permutation_in _ (insert_desc_permutation x l)) in Hz.
    destruct Hz as [<- | Hz]; [lra | apply Hy; exact Hz].
Qed.

Lemma sort_desc_from l : forall acc,
  descending acc ->
  let sorted := fold_left (fun acc x => insert_desc x acc) l acc in
  Permutation sorted (l ++ acc) /\ descending sorted.
Proof.
  induction l as [|x l IH]; intros acc Ha; simpl; [split; [reflexivity|exact Ha]|].
  destruct (IH (insert_desc x acc) (insert_desc_descending x acc Ha))
    as [Hp Hd].
  split; [|exact Hd].
  rewrite Hp, insert_desc_permutation. symmetry. apply Permutation_middle.
Qed.

End Sorting.

Section Ranking.
Import HistoricalIndex.
Variable K : calendar.
Variable format_2f : R -> str.

(** The loop of [compress_to_bullets] stops at the first bullet that does
    not fit: what it has collected are the bullets of a prefix. *)
Lemma collect_prefix items : forall max_chars total_chars,
  exists n,
    collect K format_2f items max_chars total_chars
    = map (fun p => bullet_of K format_2f p.1 p.2) (firstn n items).
Proof.
  induction items as [|[score it] items IH]; intros max_chars total_chars.
  - exists 0%nat. reflexivity.
  - cbn [collect]. cbv zeta.
    destruct (_ <? _)%nat.
    + exists 0%nat. reflexivity.
    + destruct (IH max_chars
                  (total_chars + length (bullet_of K format_2f score it) + 1)%nat)
        as [n Hn].
      exists (S n). cbn [firstn map fst snd]. f_equal. exact Hn.
Qed.

Lemma bullets_prefix items max_bullets max_chars :
  exists n,
    (n <= max_bullets)%nat /\
    bullets K format_2f items max_bullets max_chars
    = map (fun p => bullet_of K format_2f p.1 p.2) (firstn n items).
Proof.
  unfold bullets.
  destruct (collect_prefix (firstn max_bullets items) max_chars 0) as [n ->].
  exists (Nat.min n max_bullets). split; [lia|].
  rewrite firstn_firstn. reflexivity.
Qed.
End Ranking.

(** X14.  The historical context is never the empty text: where there is
    no store, an empty store, a query without terms or an empty digest,
    it is the sentence [No relevant historical context found.] *)
Theorem historical_context_is_never_empty
    (U : unicode) (K : HistoricalIndex.calendar) (format_2f : R -> str)
    (user_input : str) (store : option (list HistoricalIndex.entry))
    (current_time : R) :
  let context :=
    HistoricalIndex.get_historical_context U K format_2f user_input store
      current_time in
  context <> [] /\
  (store = None \/ store = Some [] \/
   HistoricalIndex.extract_query_terms U user_input = [] ->
   context = HistoricalIndex.NOTHING).
Proof.
  cbv zeta. unfold HistoricalIndex.get_historical_context. split.
  - destruct store as [[|e l]|]; try discriminate.
    destruct (HistoricalIndex.extract_query_terms U user_input);
      [discriminate|].
    cbv zeta.
    match goal with
    | |- context [bool_decide (length ?s = 0%nat) || _] =>
        destruct (bool_decide_reflect (length s = 0%nat)) as [Hz | Hz];
        [discriminate|]
    end.
    cbn [orb]. destruct (bool_decide _); [discriminate|].
    intros E. apply Hz. rewrite E. reflexivity.
  - intros [-> | [-> | H]]; [reflexivity | reflexivity |].
    destruct store as [[|e l]|]; try reflexivity.
    rewrite H. reflexivity.
Qed.

Lemma historical_context_is_never_empty_witness :
  HistoricalIndex.get_historical_context ascii_only Samples.no_calendar
    (fun _ => lit "0.00") (lit "add 2 and 2") None 0
  = HistoricalIndex.NOTHING.
Proof.
  apply (proj2 (historical_context_is_never_empty ascii_only
                  Samples.no_calendar (fun _ => lit "0.00")
                  (lit "add 2 and 2") None 0%R)).
  left. reflexivity.
Defined.

(** X15.  The records are ranked by score, highest first, and the digest
    lists the records at the top of that ranking without a gap: it is
    the fallback sentence, or the bullets of the first n records of the
    ranking for some n up to 10, joined by newlines.  The loop stops at
    the first bullet that does not fit; it does not go on to a shorter
    one further down. *)
Theorem digest_lists_the_top_of_the_ranking
    (U : unicode) (K : HistoricalIndex.calendar) (format_2f : R -> str)
    (user_input : str) (memory_items : list HistoricalIndex.entry)
    (current_time : R) :
  let scored :=
    HistoricalIndex.score_all U K memory_items
      (HistoricalIndex.extract_query_terms U user_input) current_time ∅ in
  let ranking := HistoricalIndex.sort_desc scored in
  let context :=
    HistoricalIndex.get_historical_context U K format_2f user_input
      (Some memory_items) current_time in
  Permutation ranking scored /\
  descending ranking /\
  exists n,
    (n <= 10)%nat /\
    (context = HistoricalIndex.NOTHING \/
     context
     = join [NL]
         (map (fun p => HistoricalIndex.bullet_of K format_2f p.1 p.2)
              (firstn n ranking))).
Proof.
  cbv zeta.
  destruct (sort_desc_from
              (HistoricalIndex.score_all U K memory_items
                 (HistoricalIndex.extract_query_terms U user_input)
                 current_time ∅) [] I) as [Hp Hd].
  rewrite app_nil_r in Hp.
  split; [exact Hp|]. split; [exact Hd|].
  unfold HistoricalIndex.get_historical_context.
  destruct memory_items as [|e l] eqn:Em; [exists 0%nat; split; [lia | left; reflexivity]|].
  rewrite <- Em.
  destruct (HistoricalIndex.extract_query_terms U user_input) as [|t ts] eqn:Et;
    [exists 0%nat; split; [lia | left; reflexivity]|].
  cbv zeta. unfold HistoricalIndex.compress_to_bullets.
  destruct (bullets_prefix K format_2f
              (HistoricalIndex.sort_desc
                 (HistoricalIndex.score_all U K memory_items (t :: ts)
                    current_time ∅)) 10 1500) as (n & Hn & ->).
  exists n. split; [exact Hn|].
  destruct (_ || _); [left | right]; reflexivity.
Qed.

Section Staleness.
Import HistoricalIndex.
Local Open Scope R_scope.

Lemma exp_3 : 6 < exp 3.
Proof.
  assert (H1 : 2 < exp 1) by (pose proof (exp_ineq1 1); lra).
  replace 3 with (1 + (1 + 1)) by lra. rewrite !exp_plus.
  assert (H2 : 4 < exp 1 * exp 1) by nra.
  nra.
Qed.

Lemma exp_minus_3 x : x <= -3 -> exp x < 1 / 6.
Proof.
  intros H.
  assert (He : exp x <= exp (-3)) by (apply exp_monotone; exact H).
  assert (Hi : exp (-3) * exp 3 = 1)
    by (rewrite <- exp_plus; replace (-3 + 3) with 0 by lra; apply exp_0).
  pose proof exp_3. pose proof (exp_pos (-3)). nra.
Qed.
End Staleness.

(** X16.  A timestamp that cannot be read earns a recency of 0.05, which
    is more than the recency of any record whose timestamp can be read and
    is at least three weeks (504 hours) old: the fallback of the scorer is
    not the smallest recency. *)
Theorem unreadable_timestamp_beats_stale_record
    (K : HistoricalIndex.calendar) (unreadable stale : HistoricalIndex.item)
    (current_time t : R) :
  HistoricalIndex.item_time K unreadable = None ->
  HistoricalIndex.item_time K stale = Some t ->
  (504 <= HistoricalIndex.age_hours current_time t)%R ->
  HistoricalIndex.recency K unreadable current_time = (5 / 100)%R /\
  (HistoricalIndex.recency K stale current_time
   < HistoricalIndex.recency K unreadable current_time)%R.
Proof.
  intros Hu Hs Hage.
  assert (Hr : HistoricalIndex.recency K unreadable current_time = (5 / 100)%R)
    by (unfold HistoricalIndex.recency; rewrite Hu; reflexivity).
  split; [exact Hr|]. rewrite Hr.
  rewrite (recency_past K stale current_time t Hs)
    by (unfold HistoricalIndex.age_hours in Hage; lra).
  pose proof (exp_minus_3 (- HistoricalIndex.age_hours current_time t / 168)).
  lra.
Qed.

Lemma unreadable_timestamp_beats_stale_record_witness :
  (HistoricalIndex.recency Samples.no_calendar (Samples.record_at 0) 1814400
   < HistoricalIndex.recency Samples.no_calendar
       {| HistoricalIndex.timestamp := HistoricalIndex.TsNull;
          HistoricalIndex.user := None; HistoricalIndex.assistant := None;
          HistoricalIndex.tool := HistoricalIndex.Absent;
          HistoricalIndex.success := None;
          HistoricalIndex.result := HistoricalIndex.Absent |} 1814400)%R.
Proof.
  apply (unreadable_timestamp_beats_stale_record Samples.no_calendar
           {| HistoricalIndex.timestamp := HistoricalIndex.TsNull;
              HistoricalIndex.user := None; HistoricalIndex.assistant := None;
              HistoricalIndex.tool := HistoricalIndex.Absent;
              HistoricalIndex.success := None;
              HistoricalIndex.result := HistoricalIndex.Absent |}
           (Samples.record_at 0) 1814400 0).
  - reflexivity.
  - reflexivity.
  - unfold HistoricalIndex.age_hours. lra.
Defined.

(* ===================================================================== *)
(** * Further properties of decision/decision.py *)
(* ===================================================================== *)

Section SearchFacts.
Import Re.

(** Where [search] finds a match, the pattern matches a suffix of the
    text. *)
Lemma search_from_sound re : forall s prev i j r,
  search_from re prev s i = Some (j, r) ->
  exists pre suf prev', s = pre ++ suf /\ m re prev' suf 0 0 0 = Some r.
Proof.
  induction s as [|c s IH]; intros prev i j r H.
  - simpl in H. destruct (m re prev [] 0 0 0) eqn:E; [|discriminate].
    injection H as _ <-. exists [], [], prev. split; [reflexivity | exact E].
  - cbn [search_from] in H.
    destruct (m re prev (c :: s) 0 0 0) eqn:E.
    + injection H as _ <-. exists [], (c :: s), prev.
      split; [reflexivity | exact E].
    + destruct (IH _ _ _ _ H) as (pre & suf & prev' & -> & Hm).
      exists (c :: pre), suf, prev'. split; [reflexivity | exact Hm].
Qed.

(** A pattern that starts with a literal text only matches where that
    text stands. *)
Lemma m_text_prefix w re r : forall s prev n gs ge,
  m (map chr w ++ re) prev s n gs ge = Some r -> exists post, s = w ++ post.
Proof.
  induction w as [|c w IH]; intros s prev n gs ge H; [exists s; reflexivity|].
  cbn [map app] in H. unfold chr at 1 in H. rewrite m_one in H.
  destruct s as [|x s]; [discriminate|].
  destruct (N.eqb_spec c x) as [<- | _]; [|discriminate].
  destruct (IH _ _ _ _ _ H) as [post ->]. exists post. reflexivity.
Qed.

Lemma search_text_occurs t re s found :
  search (text t ++ re) s = Some found -> occurs (lit t) s.
Proof.
  destruct found as [j r]. unfold search. intros H.
  apply search_from_sound in H. destruct H as (pre & suf & prev' & -> & Hm).
  unfold text in Hm. apply m_text_prefix in Hm. destruct Hm as [post ->].
  exists pre, post. reflexivity.
Qed.
End SearchFacts.

Section StripFacts.
Variable U : unicode.

(** What stripping leaves is a stretch of the text. *)
Lemma strip_substring s : exists pre post, s = pre ++ strip U s ++ post.
Proof.
  unfold strip.
  destruct (lstrip_suffix U s) as [pre Hp].
  destruct (lstrip_suffix U (rev (lstrip U s))) as [q Hq].
  exists pre, (rev q).
  rewrite <- rev_app_distr, <- Hq, rev_involutive. exact Hp.
Qed.

Lemma strip_occurs w s : occurs w (strip U s) -> occurs w s.
Proof.
  intros (a & b & H). destruct (strip_substring s) as (pre & post & Hs).
  exists (pre ++ a), (b ++ post). rewrite Hs, H.
  rewrite <- !app_assoc. reflexivity.
Qed.
End StripFacts.

(** X17.  A reply in which the fence [```json] does not occur is not
    raised as an error: [Decision.run] returns the HUMAN_IN_LOOP proposal
    with reason PLAN_FAILURE, whose description says that no JSON block
    was found. *)
Theorem reply_without_json_fence_is_a_plan_failure
    (U : unicode) (L : DecisionM.library) (text : str) :
  ~ occurs (lit "```json") text ->
  DecisionM.run U L (DecisionM.Reply text)
  = inr (DecisionM.failure_output (lit "No JSON block found") (strip U text)) /\
  DecisionM.failure_output (lit "No JSON block found") (strip U text)
    !! lit "description"
  = Some (DecisionM.JStr
            (lit "Exception while parsing LLM output: No JSON block found")).
Proof.
  intros Hno. split; [|vm_compute; reflexivity].
  unfold DecisionM.run, DecisionM.parse, DecisionM.group1.
  destruct (Re.search (DecisionM.JSON_BLOCK U) (strip U text))
    as [found|] eqn:E; [|reflexivity].
  exfalso. apply Hno. apply (strip_occurs U).
  unfold DecisionM.JSON_BLOCK in E.
  apply (search_text_occurs _ _ _ _ E).
Qed.

Lemma reply_without_json_fence_is_a_plan_failure_witness :
  DecisionM.run ascii_only Samples.no_json (DecisionM.Reply (lit "I cannot help."))
  = inr (DecisionM.failure_output (lit "No JSON block found")
           (strip ascii_only (lit "I cannot help."))).
Proof.
  apply (reply_without_json_fence_is_a_plan_failure ascii_only Samples.no_json
           (lit "I cannot help.")).
  intros H. apply contains_occurs in H. vm_compute in H. discriminate.
Defined.

(** X18.  When the json block loads to a dict whose [next_step] is itself
    a dict, the record is flattened: each key holds what [next_step] holds
    for it, or else what the top level holds (the key [next_step] itself
    is dropped from the top level), or else its default. *)
Theorem nested_next_step_takes_precedence
    (U : unicode) (L : DecisionM.library) (text json_block : str)
    (m next_step : gmap str DecisionM.json) :
  DecisionM.group1 (DecisionM.JSON_BLOCK U) (strip U text) = Some json_block ->
  DecisionM.json_loads L json_block = DecisionM.Loaded m ->
  m !! lit "next_step" = Some (DecisionM.JObj next_step) ->
  exists output : gmap str DecisionM.json,
    DecisionM.run U L (DecisionM.Reply text) = inr output /\
    forall k,
      output !! k
      = match next_step !! k with
        | Some v => Some v
        | None =>
            match (if str_eqb k (lit "next_step") then None else m !! k) with
            | Some v => Some v
            | None => listed k DecisionM.defaults
            end
        end.
Proof.
  intros Hb Hl Hn. unfold DecisionM.run, DecisionM.parse.
  rewrite Hb, Hl, Hn. eexists. split; [reflexivity|]. intros k.
  rewrite setdefault_all, lookup_union.
  destruct (next_step !! k) as [v|];
    [destruct (delete (lit "next_step") m !! k); reflexivity|].
  unfold str_eqb. destruct (bool_decide_reflect (k = lit "next_step")) as [-> | Hk].
  - rewrite lookup_delete_eq. reflexivity.
  - rewrite lookup_delete_ne by congruence.
    destruct (m !! k); reflexivity.
Qed.

Lemma nested_next_step_takes_precedence_witness :
  exists output : gmap str DecisionM.json,
    DecisionM.run ascii_only Samples.nested_json
      (DecisionM.Reply Samples.nested_reply) = inr output /\
    output !! lit "type" = Some (DecisionM.JStr (lit "NOP")).
Proof.
  destruct (nested_next_step_takes_precedence ascii_only Samples.nested_json
              Samples.nested_reply Samples.nested_block Samples.nested_dict
              Samples.nested_step) as (output & Hrun & Hk).
  - vm_compute. reflexivity.
  - vm_compute. reflexivity.
  - vm_compute. reflexivity.
  - exists output. split; [exact Hrun|]. rewrite Hk. vm_compute. reflexivity.
Defined.

(** X19.  When the json block cannot be decoded, the record is salvaged
    from it: with no [code] field to be found it is a NOP with empty code;
    with a [code] field whose text can be unescaped, the record carries
    that code, and its type is CODE unless the code is empty. *)
Theorem undecodable_block_is_salvaged
    (U : unicode) (L : DecisionM.library) (text json_block e : str) :
  DecisionM.group1 (DecisionM.JSON_BLOCK U) (strip U text) = Some json_block ->
  DecisionM.json_loads L json_block = DecisionM.JSONDecodeError e ->
  (DecisionM.group1 (DecisionM.CODE_FIELD U) json_block = None ->
   exists output : gmap str DecisionM.json,
     DecisionM.run U L (DecisionM.Reply text) = inr output /\
     output !! lit "type" = Some (DecisionM.JStr (lit "NOP")) /\
     output !! lit "code" = Some (DecisionM.JStr [])) /\
  (forall escaped code_value,
     DecisionM.group1 (DecisionM.CODE_FIELD U) json_block = Some escaped ->
     DecisionM.unicode_escape L escaped = inr code_value ->
     exists output : gmap str DecisionM.json,
       DecisionM.run U L (DecisionM.Reply text) = inr output /\
       output !! lit "type"
       = Some (DecisionM.JStr
                 (match code_value with [] => lit "NOP" | _ => lit "CODE" end)) /\
       output !! lit "code" = Some (DecisionM.JStr code_value) /\
       output !! lit "raw_text"
       = Some (DecisionM.JStr (firstn 1000 (strip U text)))).
Proof.
  intros Hb Hl.
  assert (Hs : forall code_value,
            exists output : gmap str DecisionM.json,
              fold_left DecisionM.setdefault DecisionM.defaults
                (DecisionM.salvaged code_value (strip U text)) = output /\
              DecisionM.salvaged code_value (strip U text) !! lit "next_step"
              = None /\
              output !! lit "type"
              = Some (DecisionM.JStr
                        (match code_value with
                         | [] => lit "NOP" | _ => lit "CODE" end)) /\
              output !! lit "code" = Some (DecisionM.JStr code_value) /\
              output !! lit "raw_text"
              = Some (DecisionM.JStr (firstn 1000 (strip U text)))).
  { intros code_value. eexists. split; [reflexivity|].
    split; [vm_compute; reflexivity|].
    rewrite !setdefault_all.
    repeat split; vm_compute; reflexivity. }
  split.
  - intros Hc. destruct (Hs []) as (output & <- & Hn & Ht & Hcode & _).
    eexists. split; [|split; [exact Ht | exact Hcode]].
    unfold DecisionM.run, DecisionM.parse. rewrite Hb, Hl, Hc, Hn.
    reflexivity.
  - intros escaped code_value Hc Hu.
    destruct (Hs code_value) as (output & <- & Hn & Ht & Hcode & Hraw).
    eexists. split; [|split; [exact Ht | split; [exact Hcode | exact Hraw]]].
    unfold DecisionM.run, DecisionM.parse. rewrite Hb, Hl, Hc, Hu, Hn.
    reflexivity.
Qed.

Lemma undecodable_block_is_salvaged_witness :
  exists output : gmap str DecisionM.json,
    DecisionM.run ascii_only Samples.no_json
      (DecisionM.Reply Samples.code_reply) = inr output /\
    output !! lit "type" = Some (DecisionM.JStr (lit "CODE")) /\
    output !! lit "code" = Some (DecisionM.JStr (lit "x = 1")).
Proof.
  destruct (proj2 (undecodable_block_is_salvaged ascii_only Samples.no_json
                     Samples.code_reply Samples.code_block
                     (lit "Expecting value: line 1 column 1 (char 0)")
                     ltac:(vm_compute; reflexivity)
                     ltac:(vm_compute; reflexivity))
              (lit "x = 1") (lit "x = 1"))
    as (output & Hrun & Ht & Hc & _).
  - vm_compute. reflexivity.
  - reflexivity.
  - exists output. split; [exact Hrun|]. split; [exact Ht | exact Hc].
Defined.

(* ===================================================================== *)
(** * Properties of agent/tool_performance.py *)
(* ===================================================================== *)

Section Statistics.
Import ToolPerformance.
Variable round2 : R -> R.

Lemma count_successes_le recent n :
  count_successes recent = Some n -> (n <= length recent)%nat.
Proof.
  revert n. induction recent as [|e recent IH]; intros n H; simpl in H.
  - injection H as <-. simpl. lia.
  - destruct (success e) as [b|]; [|discriminate].
    destruct (count_successes recent) as [k|]; [|discriminate].
    injection H as <-. specialize (IH k eq_refl). simpl.
    destruct b; lia.
Qed.

Lemma count_failures_le l : (count_failures l <= length l)%nat.
Proof.
  induction l as [|e l IH]; simpl; [lia|].
  destruct (success e) as [[|]|]; lia.
Qed.

Lemma length_from_index {A} (start : Z) (l : list A) :
  Z.of_nat (length (from_index start l))
  = (if (start <? 0)%Z
     then Z.min (Z.of_nat (length l)) (- start)
     else Z.max (Z.of_nat (length l) - start) 0)%Z.
Proof.
  unfold from_index. destruct (Z.ltb_spec start 0); rewrite length_skipn; lia.
Qed.

Lemma summarize_some entries recent_n st :
  summarize round2 entries recent_n = Some (Some st) ->
  (0 <= success_rate st <= 1)%R /\
  (recent_failures st <= Nat.min 10 (total_calls st))%nat /\
  total_calls st = window recent_n (length entries) /\
  total_calls st <> 0%nat.
Proof.
  unfold summarize. cbv zeta.
  match goal with
  | |- context [match ?x with [] => _ | _ :: _ => _ end] => set (recent := x)
  end.
  assert (Hw : length recent = window recent_n (length entries)).
  { unfold recent, window.
    destruct (Z.ltb_spec recent_n (Z.of_nat (length entries))).
    - apply Nat2Z.inj. rewrite length_from_index.
      destruct (Z.ltb_spec (- recent_n) 0), (Z.ltb_spec 0 recent_n); lia.
    - destruct (Z.ltb_spec 0 recent_n); lia. }
  destruct recent as [|e rest] eqn:Er; [discriminate|]. rewrite <- Er in *.
  destruct (count_successes recent) as [s|] eqn:Es; [|discriminate].
  destruct (sum_latency recent); [|discriminate].
  intros [= <-]. cbn [success_rate recent_failures total_calls].
  apply count_successes_le in Es.
  assert (Hp : (0 < length recent)%nat) by (rewrite Er; simpl; lia).
  split; [|split; [|split; [exact Hw | lia]]].
  - apply le_INR in Es. apply lt_0_INR in Hp.
    pose proof (pos_INR s).
    split.
    + apply Rmult_le_pos; [assumption|]. left. apply Rinv_0_lt_compat. exact Hp.
    + apply (Rmult_le_reg_r (INR (length recent))); [exact Hp|].
      unfold Rdiv. rewrite Rmult_assoc, Rinv_l; lra.
  - pose proof (count_failures_le (rev (from_index (-10) recent))) as Hc.
    rewrite length_rev in Hc.
    pose proof (length_from_index (-10) recent) as Hl.
    change (-10 <? 0)%Z with true in Hl. cbv iota in Hl. lia.
Qed.

Lemma summarize_none_window entries recent_n :
  summarize round2 entries recent_n = Some None ->
  window recent_n (length entries) = 0%nat.
Proof.
  unfold summarize. cbv zeta.
  match goal with
  | |- context [match ?x with [] => _ | _ :: _ => _ end] => set (recent := x)
  end.
  assert (Hw : length recent = window recent_n (length entries)).
  { unfold recent, window.
    destruct (Z.ltb_spec recent_n (Z.of_nat (length entries))).
    - apply Nat2Z.inj. rewrite length_from_index.
      destruct (Z.ltb_spec (- recent_n) 0), (Z.ltb_spec 0 recent_n); lia.
    - destruct (Z.ltb_spec 0 recent_n); lia. }
  destruct recent as [|e rest] eqn:Er; [intros _; rewrite <- Hw; reflexivity|].
  destruct (count_successes (e :: rest)); [|discriminate].
  destruct (sum_latency (e :: rest)); discriminate.
Qed.
End Statistics.

(** X20.  Whatever the log holds, the statistics of a tool are in range:
    the success rate is between 0 and 1, and the count of consecutive
    recent failures is at most 10 and at most the number of calls counted.
    The calls counted are the last [recent_n] entries of the tool only for a
    positive [recent_n]; for [recent_n = 0] they are all its entries, since
    [entries[-0:]] is the whole list. *)
Theorem tool_stats_are_in_range
    (round2 : R -> R) (file : ToolPerformance.log) (tool : str)
    (recent_n : Z) (st : ToolPerformance.stats) :
  ToolPerformance.get_tool_stats round2 file tool recent_n = Some st ->
  (0 <= ToolPerformance.success_rate st <= 1)%R /\
  (ToolPerformance.recent_failures st
   <= Nat.min 10 (ToolPerformance.total_calls st))%nat /\
  ToolPerformance.total_calls st
  = match file with
    | None => 0%nat
    | Some lines =>
        window recent_n (length (ToolPerformance.entries_of lines tool))
    end.
Proof.
  unfold ToolPerformance.get_tool_stats.
  assert (Hd : (0 <= ToolPerformance.success_rate ToolPerformance.no_calls <= 1)%R /\
               (ToolPerformance.recent_failures ToolPerformance.no_calls
                <= Nat.min 10 (ToolPerformance.total_calls ToolPerformance.no_calls))%nat)
    by (simpl; split; [lra | lia]).
  destruct file as [lines|].
  - destruct (ToolPerformance.summarize round2
                (ToolPerformance.entries_of lines tool) recent_n)
      as [[st'|]|] eqn:E; [| |discriminate].
    + intros [= <-]. apply summarize_some in E. tauto.
    + intros [= <-]. apply summarize_none_window in E.
      rewrite E. split; [apply Hd|]. split; [apply Hd | reflexivity].
  - intros [= <-]. split; [apply Hd|]. split; [apply Hd | reflexivity].
Qed.

Lemma tool_stats_are_in_range_witness :
  ToolPerformance.total_calls
    {| ToolPerformance.success_rate := 0 / INR 1;
       ToolPerformance.avg_latency_ms := (0 + 0) / INR 1;
       ToolPerformance.recent_failures := 1;
       ToolPerformance.total_calls := 1 |}
  = window 0 (length (ToolPerformance.entries_of
                        [Some {| ToolPerformance.tool := lit "add";
                                 ToolPerformance.success := Some false;
                                 ToolPerformance.latency_ms := Some 0%R |}]
                        (lit "add"))).
Proof.
  apply (tool_stats_are_in_range (fun x => x)
           (Some [Some {| ToolPerformance.tool := lit "add";
                          ToolPerformance.success := Some false;
                          ToolPerformance.latency_ms := Some 0%R |}])
           (lit "add") 0).
  vm_compute. reflexivity.
Defined.

Section Grouping.
Import ToolPerformance.
Variable round2 : R -> R.

Lemma entries_of_app a b t :
  entries_of (a ++ b) t = entries_of a t ++ entries_of b t.
Proof. unfold entries_of. rewrite omap_app, List.filter_app. reflexivity. Qed.

Lemma entries_of_single e t :
  entries_of [Some e] t = if str_eqb (tool e) t then [e] else [].
Proof. reflexivity. Qed.

Lemma assoc_group_add e t : forall groups,
  assoc t (group_add e groups)
  = if str_eqb (tool e) t
    then Some (match assoc t groups with Some es => es | None => [] end ++ [e])
    else assoc t groups.
Proof.
  unfold str_eqb.
  induction groups as [|[k es] groups IH]; simpl.
  - unfold str_eqb. destruct (bool_decide (tool e = t)); reflexivity.
  - unfold str_eqb.
    destruct (bool_decide_reflect (k = tool e)) as [-> | Hk]; simpl;
      unfold str_eqb.
    + destruct (bool_decide (tool e = t)); reflexivity.
    + destruct (bool_decide_reflect (k = t)) as [-> | Hkt].
      * rewrite bool_decide_false by congruence. reflexivity.
      * exact IH.
Qed.

Lemma keys_group_add e k : forall groups,
  In k (map fst (group_add e groups)) <-> k = tool e \/ In k (map fst groups).
Proof.
  induction groups as [|[k0 es] groups IH]; simpl.
  - intuition congruence.
  - unfold str_eqb. destruct (bool_decide_reflect (k0 = tool e)) as [-> | Hk];
      simpl; [intuition congruence|].
    rewrite IH. intuition congruence.
Qed.

Lemma nodup_group_add e : forall groups,
  List.NoDup (map fst groups) -> List.NoDup (map fst (group_add e groups)).
Proof.
  induction groups as [|[k0 es] groups IH]; simpl; intros H.
  - constructor; [intros [] | constructor].
  - unfold str_eqb. destruct (bool_decide_reflect (k0 = tool e)) as [-> | Hk];
      simpl; [exact H|].
    inversion H as [|? ? Hn Hd]; subst. constructor; [|apply IH; exact Hd].
    rewrite keys_group_add. intros [-> | Hin]; [congruence | contradiction].
Qed.

(** The groups are the entries of each tool, in the order of the log. *)
Lemma tool_entries_from lines : forall groups pre,
  List.NoDup (map fst groups) ->
  (forall t, assoc t groups
             = match entries_of pre t with [] => None | es => Some es end) ->
  let groups' :=
    fold_left
      (fun groups l =>
         match l with Some e => group_add e groups | None => groups end)
      lines groups in
  List.NoDup (map fst groups') /\
  forall t, assoc t groups'
            = match entries_of (pre ++ lines) t with
              | [] => None
              | es => Some es
              end.
Proof.
  induction lines as [|l lines IH]; intros groups pre Hd Ha; cbv zeta.
  - rewrite app_nil_r. split; assumption.
  - cbn [fold_left].
    replace (pre ++ l :: lines) with ((pre ++ [l]) ++ lines)
      by (rewrite <- app_assoc; reflexivity).
    apply IH.
    + destruct l as [e|]; [apply nodup_group_add|]; exact Hd.
    + intros t. rewrite entries_of_app. destruct l as [e|].
      * rewrite assoc_group_add, Ha, entries_of_single.
        destruct (str_eqb (tool e) t).
        -- destruct (entries_of pre t) as [|x es]; reflexivity.
        -- rewrite app_nil_r. reflexivity.
      * rewrite Ha. change (entries_of [None] t) with (@nil log_entry).
        rewrite app_nil_r. reflexivity.
Qed.

Lemma tool_entries_assoc lines :
  List.NoDup (map fst (tool_entries lines)) /\
  forall t, assoc t (tool_entries lines)
            = match entries_of lines t with [] => None | es => Some es end.
Proof.
  apply (tool_entries_from lines [] []); [constructor | reflexivity].
Qed.

Lemma assoc_none {A} t : forall items : list (str * A),
  ~ In t (map fst items) -> assoc t items = None.
Proof.
  induction items as [|[k v] items IH]; simpl; intros H; [reflexivity|].
  unfold str_eqb. rewrite bool_decide_false by tauto. apply IH. tauto.
Qed.

Lemma all_stats_keys recent_n t : forall groups all,
  all_stats round2 groups recent_n = Some all ->
  assoc t groups = None -> assoc t all = None.
Proof.
  induction groups as [|[k es] groups IH]; simpl; intros all H Hn.
  - injection H as <-. reflexivity.
  - unfold str_eqb in Hn.
    destruct (bool_decide_reflect (k = t)) as [-> | Hk]; [discriminate|].
    destruct (summarize round2 es recent_n) as [[st|]|]; [| |discriminate];
      destruct (all_stats round2 groups recent_n) as [others|];
      try discriminate; injection H as <-.
    + simpl. unfold str_eqb. rewrite bool_decide_false by exact Hk.
      apply IH; [reflexivity | exact Hn].
    + apply IH; [reflexivity | exact Hn].
Qed.

(** The statistics of a tool in the dict are those of its group. *)
Lemma all_stats_assoc recent_n t : forall groups all,
  List.NoDup (map fst groups) ->
  all_stats round2 groups recent_n = Some all ->
  match assoc t groups with
  | Some es =>
      exists o, summarize round2 es recent_n = Some o /\ assoc t all = o
  | None => assoc t all = None
  end.
Proof.
  induction groups as [|[k es] groups IH]; simpl; intros all Hd H.
  - injection H as <-. reflexivity.
  - inversion Hd as [|? ? Hn Hd']; subst.
    destruct (summarize round2 es recent_n) as [[st|]|] eqn:Es;
      [| |discriminate];
      destruct (all_stats round2 groups recent_n) as [others|] eqn:Eo;
      try discriminate; injection H as <-;
      specialize (IH others Hd' eq_refl); unfold str_eqb;
      (destruct (bool_decide_reflect (k = t)) as [-> | Hk];
       [|simpl; unfold str_eqb; rewrite ?bool_decide_false by exact Hk;
         exact IH]).
    + exists (Some st). split; [exact Es|]. simpl. unfold str_eqb.
      rewrite bool_decide_true by reflexivity. reflexivity.
    + exists None. split; [exact Es|].
      apply (all_stats_keys recent_n t groups); [exact Eo|].
      apply assoc_none. exact Hn.
Qed.

Lemma summarize_nil recent_n : summarize round2 [] recent_n = Some None.
Proof.
  unfold summarize, from_index. simpl.
  destruct (_ <? _)%Z; [|reflexivity].
  destruct (_ <? _)%Z; rewrite skipn_nil; reflexivity.
Qed.
End Grouping.

(** X21.  The two ways of reading the log agree: where [get_all_tool_stats]
    returns a dict, [get_tool_stats] returns for every tool the entry the
    dict has for it, and for a tool that the dict does not list the
    statistics of a tool that was never called. *)
Theorem all_tool_stats_agree_with_tool_stats
    (round2 : R -> R) (file : ToolPerformance.log) (recent_n : Z)
    (all : list (str * ToolPerformance.stats)) (tool : str) :
  ToolPerformance.get_all_tool_stats round2 file recent_n = Some all ->
  ToolPerformance.get_tool_stats round2 file tool recent_n
  = Some (match assoc tool all with
          | Some st => st
          | None => ToolPerformance.no_calls
          end).
Proof.
  unfold ToolPerformance.get_all_tool_stats, ToolPerformance.get_tool_stats.
  destruct file as [lines|]; [|intros [= <-]; reflexivity].
  intros H.
  destruct (tool_entries_assoc lines) as [Hd Ha].
  pose proof (all_stats_assoc round2 recent_n tool _ _ Hd H) as Hs.
  rewrite Ha in Hs.
  destruct (ToolPerformance.entries_of lines tool) as [|e es] eqn:E.
  - rewrite summarize_nil, Hs. reflexivity.
  - destruct Hs as (o & -> & ->). destruct o; reflexivity.
Qed.

Lemma all_tool_stats_agree_with_tool_stats_witness :
  ToolPerformance.get_tool_stats (fun x => x) None (lit "add") 50
  = Some ToolPerformance.no_calls.
Proof.
  apply (all_tool_stats_agree_with_tool_stats (fun x => x) None 50 []
           (lit "add")).
  reflexivity.
Defined.

Section Logging.
Import ToolPerformance.
Variable round2 : R -> R.

Lemma skipn_suffix {A} (tail : list A) k : forall l,
  (k <= length l)%nat -> skipn k (l ++ tail) = skipn k l ++ tail.
Proof.
  intros l H. rewrite skipn_app.
  replace (k - length l)%nat with 0%nat by lia. reflexivity.
Qed.

(** A slice [l[start:]] of a list that ends with [tail] is empty or ends
    with the last entry; taken from the end over at least the length of
    [tail], it ends with [tail]. *)
Lemma from_index_snoc {A} start (l : list A) e :
  from_index start (l ++ [e]) = []
  \/ exists l', from_index start (l ++ [e]) = l' ++ [e].
Proof.
  unfold from_index.
  match goal with
  | |- context [if ?b then skipn ?i _ else skipn ?j _] =>
      generalize i j; intros i' j'; destruct b
  end.
  - destruct (Nat.le_gt_cases i' (length l)) as [H | H].
    + right. rewrite skipn_suffix by exact H. eauto.
    + left. apply skipn_all2. rewrite length_app. simpl. lia.
  - destruct (Nat.le_gt_cases j' (length l)) as [H | H].
    + right. rewrite skipn_suffix by exact H. eauto.
    + left. apply skipn_all2. rewrite length_app. simpl. lia.
Qed.

Lemma from_index_tail {A} (k : Z) (l tail : list A) :
  (Z.of_nat (length tail) <= k)%Z ->
  exists l', from_index (- k) (l ++ tail) = l' ++ tail.
Proof.
  intros H. unfold from_index.
  destruct (Z.ltb_spec (- k) 0) as [Hk | Hk].
  - eexists. apply skipn_suffix. rewrite length_app. lia.
  - assert (Hz : k = 0%Z) by lia. subst k.
    destruct tail; [|simpl in H; lia].
    simpl. rewrite !app_nil_r. eexists. rewrite app_nil_r. reflexivity.
Qed.

(** The window over the entries of a tool whose last entries are [tail]:
    with a positive [recent_n] that is at least the length of [tail], the
    window ends with [tail]. *)
Lemma summarize_tail entries tail recent_n st :
  (Z.of_nat (length tail) <= recent_n)%Z ->
  (length tail <= 10)%nat ->
  summarize round2 (entries ++ tail) recent_n = Some (Some st) ->
  exists l', recent_failures st = count_failures (rev tail ++ l').
Proof.
  intros Hn H10. unfold summarize. cbv zeta.
  match goal with
  | |- context [match ?x with [] => _ | _ :: _ => _ end] => set (recent := x)
  end.
  assert (Hr : exists l', recent = l' ++ tail).
  { unfold recent. destruct (_ <? _)%Z; [|eauto].
    apply from_index_tail. exact Hn. }
  destruct Hr as [l' Hr].
  destruct recent as [|e rest] eqn:Er; [discriminate|]. rewrite <- Er in *.
  destruct (count_successes recent); [|discriminate].
  destruct (sum_latency recent); [|discriminate].
  intros [= <-]. cbn [recent_failures]. rewrite Hr.
  destruct (from_index_tail 10 l' tail) as [l'' Hl]; [lia|].
  change (Z.opp 10) with (-10)%Z in Hl. rewrite Hl.
  exists (rev l''). rewrite rev_app_distr. reflexivity.
Qed.

Lemma summarize_snoc entries e recent_n st :
  summarize round2 (entries ++ [e]) recent_n = Some (Some st) ->
  exists l', recent_failures st = count_failures (e :: l').
Proof.
  unfold summarize. cbv zeta.
  match goal with
  | |- context [match ?x with [] => _ | _ :: _ => _ end] => set (recent := x)
  end.
  assert (Hr : recent = [] \/ exists l', recent = l' ++ [e]).
  { unfold recent. destruct (_ <? _)%Z; [apply from_index_snoc | eauto]. }
  destruct Hr as [-> | [l' Hr]]; [discriminate|].
  destruct recent as [|x rest] eqn:Er; [discriminate|]. rewrite <- Er in *.
  destruct (count_successes recent); [|discriminate].
  destruct (sum_latency recent); [|discriminate].
  intros [= <-]. cbn [recent_failures]. rewrite Hr.
  destruct (from_index_tail 10 l' [e]) as [l'' Hl]; [simpl; lia|].
  change (Z.opp 10) with (-10)%Z in Hl. rewrite Hl.
  exists (rev l''). rewrite rev_app_distr. reflexivity.
Qed.

Lemma entries_of_log_tool_call file tool success latency_ms t :
  exists lines,
    log_tool_call round2 file tool success latency_ms = Some lines /\
    entries_of lines t
    = match file with Some old => entries_of old t | None => [] end
      ++ if str_eqb tool t
         then [{| ToolPerformance.tool := tool;
                  ToolPerformance.success := Some success;
                  ToolPerformance.latency_ms := Some (round2 latency_ms) |}]
         else [].
Proof.
  unfold log_tool_call. cbv zeta. eexists. split; [reflexivity|].
  rewrite entries_of_app, entries_of_single. simpl.
  destruct file; reflexivity.
Qed.
End Logging.

(** X22.  Logging a call and reading the statistics back: a call logged
    for one tool leaves the statistics of every other tool as they were;
    after a success has been logged for a tool, its count of consecutive
    recent failures is 0; after a failure it is at least 1, unless the
    window is empty. *)
Theorem logged_call_shows_in_the_statistics
    (round2 : R -> R) (file : ToolPerformance.log) (tool : str)
    (success : bool) (latency_ms : R) (recent_n : Z) :
  let file' :=
    ToolPerformance.log_tool_call round2 file tool success latency_ms in
  (forall other, other <> tool ->
     ToolPerformance.get_tool_stats round2 file' other recent_n
     = ToolPerformance.get_tool_stats round2 file other recent_n) /\
  (forall st,
     ToolPerformance.get_tool_stats round2 file' tool recent_n = Some st ->
     if success then ToolPerformance.recent_failures st = 0%nat
     else ToolPerformance.total_calls st <> 0%nat ->
          (1 <= ToolPerformance.recent_failures st)%nat).
Proof.
  cbv zeta. split.
  - intros other Hne.
    destruct (entries_of_log_tool_call round2 file tool success latency_ms other)
      as (lines & -> & He).
    unfold ToolPerformance.get_tool_stats. rewrite He.
    unfold str_eqb. rewrite bool_decide_false by congruence.
    rewrite app_nil_r. destruct file; [reflexivity|].
    rewrite summarize_nil. reflexivity.
  - intros st.
    destruct (entries_of_log_tool_call round2 file tool success latency_ms tool)
      as (lines & -> & He).
    unfold ToolPerformance.get_tool_stats. rewrite He.
    unfold str_eqb. rewrite bool_decide_true by reflexivity.
    match goal with
    | |- context [ToolPerformance.summarize round2 (?es ++ [?e]) recent_n] =>
        pose proof (summarize_snoc round2 es e recent_n) as Hs;
        destruct (ToolPerformance.summarize round2 (es ++ [e]) recent_n)
          as [[st'|]|]
    end; [| |discriminate].
    + intros [= <-]. destruct (Hs st' eq_refl) as [l' ->].
      destruct success; simpl; [reflexivity | intros _; lia].
    + intros [= <-]. destruct success; simpl; [reflexivity | intros H; lia].
Qed.

Lemma logged_call_shows_in_the_statistics_witness :
  ToolPerformance.get_tool_stats (fun x => x)
    (ToolPerformance.log_tool_call (fun x => x) None (lit "add") true 12)
    (lit "search") 50
  = ToolPerformance.get_tool_stats (fun x => x) None (lit "search") 50.
Proof.
  apply (proj1 (logged_call_shows_in_the_statistics (fun x => x) None
                  (lit "add") true 12 50)).
  discriminate.
Defined.

(** X23.  A tool whose three most recent logged calls failed is marked
    AVOID in the performance context of the planner, whatever its earlier
    record: its line starts with the name of the tool and the AVOID
    mark. *)
Theorem three_failures_mark_a_tool_to_avoid
    (round2 : R -> R) (F : DecisionM.formats) (file : ToolPerformance.log)
    (tool : str) (l1 l2 l3 : R)
    (all : list (str * ToolPerformance.stats)) :
  let failed file latency_ms :=
    ToolPerformance.log_tool_call round2 file tool false latency_ms in
  ToolPerformance.get_all_tool_stats round2
    (failed (failed (failed file l1) l2) l3) 50 = Some all ->
  exists st,
    assoc tool all = Some st /\
    (3 <= ToolPerformance.recent_failures st)%nat /\
    DecisionM.status st = DecisionM.AVOID /\
    exists rest,
      DecisionM.performance_line F tool st
      = lit "- " ++ tool ++ lit ": " ++ DecisionM.AVOID ++ rest.
Proof.
  cbv zeta.
  destruct (entries_of_log_tool_call round2 file tool false l1 tool)
    as (lines1 & -> & He1).
  destruct (entries_of_log_tool_call round2 (Some lines1) tool false l2 tool)
    as (lines2 & -> & He2).
  destruct (entries_of_log_tool_call round2 (Some lines2) tool false l3 tool)
    as (lines3 & -> & He3).
  unfold str_eqb in He1, He2, He3.
  rewrite bool_decide_true in He1, He2, He3 by reflexivity.
  rewrite He2, He1, <- !app_assoc in He3. cbn [app] in He3.
  unfold ToolPerformance.get_all_tool_stats. intros H.
  destruct (tool_entries_assoc lines3) as [Hd Ha].
  pose proof (all_stats_assoc round2 50 tool _ _ Hd H) as Hs.
  rewrite Ha, He3 in Hs.
  match type of He3 with
  | _ = ?es ++ ?tail => set (old := es) in *; set (tail3 := tail) in *
  end.
  destruct (old ++ tail3) as [|e es] eqn:E.
  { apply (f_equal (@length _)) in E. rewrite length_app in E.
    simpl in E. lia. }
  rewrite <- E in Hs. destruct Hs as (o & Hsum & Hall).
  destruct o as [st|].
  2:{ apply summarize_none_window in Hsum. unfold window in Hsum.
      rewrite length_app in Hsum. simpl in Hsum. lia. }
  exists st. split; [exact Hall|].
  destruct (summarize_tail round2 old tail3 50 st) as [l' Hl];
    [simpl; lia | simpl; lia | exact Hsum |].
  assert (H3 : (3 <= ToolPerformance.recent_failures st)%nat)
    by (rewrite Hl; simpl; lia).
  assert (Hst : DecisionM.status st = DecisionM.AVOID).
  { unfold DecisionM.status. cbv zeta.
    replace (3 <=? ToolPerformance.recent_failures st)%nat with true
      by (symmetry; apply Nat.leb_le; exact H3).
    reflexivity. }
  split; [exact H3|]. split; [exact Hst|].
  unfold DecisionM.performance_line. rewrite Hst.
  eexists. reflexivity.
Qed.

Lemma three_failures_mark_a_tool_to_avoid_witness :
  exists st,
    assoc (lit "add")
      [(lit "add",
        {| ToolPerformance.success_rate := 0 / INR 3;
           ToolPerformance.avg_latency_ms := (0 + (0 + (0 + 0))) / INR 3;
           ToolPerformance.recent_failures := 3;
           ToolPerformance.total_calls := 3 |})] = Some st /\
    (3 <= ToolPerformance.recent_failures st)%nat.
Proof.
  destruct (three_failures_mark_a_tool_to_avoid (fun x => x)
              {| DecisionM.percent_1 := fun _ => [];
                 DecisionM.fixed_0 := fun _ => [];
                 DecisionM.decimal := fun _ => [] |}
              None (lit "add") 0 0 0
              [(lit "add",
                {| ToolPerformance.success_rate := 0 / INR 3;
                   ToolPerformance.avg_latency_ms := (0 + (0 + (0 + 0))) / INR 3;
                   ToolPerformance.recent_failures := 3;
                   ToolPerformance.total_calls := 3 |})])
    as (st & Ha & H3 & _).
  - vm_compute. reflexivity.
  - exists st. split; [exact Ha | exact H3].
Defined.

(* ===================================================================== *)
(** * Further properties of agent/agent_loop2.py *)
(* ===================================================================== *)

Section Components.
Import AgentLoop.
Variable W : world.

Lemma same_bind {X A B} (component : state -> X) (c : M A) (k : A -> M B) :
  same component c -> (forall a, same component (k a)) ->
  same component (bind c k).
Proof.
  intros Hc Hk st. unfold bind. specialize (Hc st).
  destruct (c st) as [[a|] st']; simpl in *; [|exact Hc].
  rewrite (Hk a st'). exact Hc.
Qed.

Lemma keeps_bind {A B} (P : state -> Prop) (c : M A) (k : A -> M B) :
  keeps P c -> (forall a, keeps P (k a)) -> keeps P (bind c k).
Proof.
  intros Hc Hk st H. unfold bind. specialize (Hc st H).
  destruct (c st) as [[a|] st']; simpl in *; [|exact Hc].
  apply Hk. exact Hc.
Qed.

Lemma keeps_same {X A} (component : state -> X) (P : state -> Prop) (c : M A) :
  (forall st st', component st' = component st -> P st -> P st') ->
  same component c -> keeps P c.
Proof. intros HP Hc st H. apply (HP st); [apply Hc | exact H]. Qed.
End Components.

(** Goes through a method made of [bind], [if] and [match] whose
    primitive steps do not touch the component. *)
Ltac same_tac :=
  unfold AgentLoop.handle_perception_completion, AgentLoop.plan_from,
    AgentLoop.new_step, AgentLoop.deref, AgentLoop.write,
    AgentLoop.add_plan_version, AgentLoop.mark_complete,
    AgentLoop.add_perception, AgentLoop.count_step;
  repeat first
    [ solve [intros ?; reflexivity]
    | progress cbv zeta
    | apply same_bind; [|intros ?]
    | match goal with
      | |- same _ (if ?b then _ else _) => destruct b
      | |- same _ (match ?x with _ => _ end) => destruct x
      end ].

Section Loops.
Import AgentLoop.
Variable W : world.
Variable P : state -> Prop.
Hypothesis execute_step_keeps : forall r, keeps P (execute_step W r).
Hypothesis evaluate_step_keeps : forall r, keeps P (evaluate_step W r).
Hypothesis deref_keeps : forall r, keeps P (deref r).
Hypothesis count_step_keeps : keeps P count_step.
Hypothesis new_step_keeps : forall s, keeps P (new_step s).
Hypothesis append_to_last_plan_keeps : forall r, keeps P (append_to_last_plan r).

Lemma keeps_ret {A} (a : A) : keeps P (ret a).
Proof. intros st H. exact H. Qed.

Lemma keeps_get_session : keeps P get_session.
Proof. intros st H. exact H. Qed.

(** A property that every part of a turn keeps is kept by both loops. *)
Lemma keeps_turn (again : option ref -> M bool) step :
  (forall next, keeps P (again next)) -> keeps P (turn W again step).
Proof.
  intros Hagain. unfold turn.
  apply keeps_bind; [apply execute_step_keeps|].
  intros [r|]; [|apply keeps_ret].
  apply keeps_bind; [apply deref_keeps|]. intros s.
  destruct (is_type _ _); [apply keeps_ret|].
  apply keeps_bind; [apply count_step_keeps|]. intros _.
  apply keeps_bind; [apply evaluate_step_keeps|]. exact Hagain.
Qed.

Lemma keeps_run_loop fuel : forall step, keeps P (run_loop W fuel step).
Proof.
  induction fuel as [|fuel IH]; intros [step|]; try apply keeps_ret.
  change (run_loop W (S fuel) (Some step))
    with (sess <- get_session ;;
          if (MAX_STEPS <=? total_steps_executed sess)%nat then
            s <- deref step ;;
            human_step <- new_step (max_steps_step s) ;;
            append_to_last_plan human_step ;;;
            ret true
          else turn W (run_loop W fuel) step).
  apply keeps_bind; [apply keeps_get_session|]. intros sess.
  destruct (_ <=? _)%nat; [|apply keeps_turn; exact IH].
  apply keeps_bind; [apply deref_keeps|]. intros s.
  apply keeps_bind; [apply new_step_keeps|]. intros r.
  apply keeps_bind; [apply append_to_last_plan_keeps|]. intros _.
  apply keeps_ret.
Qed.

Lemma keeps_resume_loop fuel : forall step, keeps P (resume_loop W fuel step).
Proof.
  induction fuel as [|fuel IH]; intros [step|]; try apply keeps_ret.
  change (resume_loop W (S fuel) (Some step))
    with (sess <- get_session ;;
          if (MAX_STEPS + 3 <=? total_steps_executed sess)%nat then ret true
          else turn W (resume_loop W fuel) step).
  apply keeps_bind; [apply keeps_get_session|]. intros sess.
  destruct (_ <=? _)%nat; [apply keeps_ret | apply keeps_turn; exact IH].
Qed.
End Loops.

Section FailureMemory.
Import AgentLoop.
Variable W : world.

Lemma few_failures_same st st' :
  session_memory st' = session_memory st -> few_failures st -> few_failures st'.
Proof. unfold few_failures. intros ->. auto. Qed.

Lemma same_memory_evaluate_step r : same session_memory (evaluate_step W r).
Proof. unfold evaluate_step, get_next_step. same_tac. Qed.

(** The memory of failures gets one more entry and loses its oldest one
    when that makes more than GLOBAL_PREVIOUS_FAILURE_STEPS. *)
Lemma keeps_few_failures_remember (x : failure_memory) :
  keeps few_failures
    (bind get_memory
       (fun mem =>
          set_memory
            (if (GLOBAL_PREVIOUS_FAILURE_STEPS <? length (mem ++ [x]))%nat
             then tail (mem ++ [x]) else mem ++ [x]))).
Proof.
  intros st H. unfold few_failures in *. simpl.
  destruct (Nat.ltb_spec GLOBAL_PREVIOUS_FAILURE_STEPS
              (length (session_memory st ++ [x]))) as [Hlt | Hge]; [|exact Hge].
  rewrite length_app in *. simpl in *.
  destruct (session_memory st) as [|y mem]; simpl in *; [lia|].
  rewrite length_app. simpl. lia.
Qed.

Lemma keeps_few_failures_execute_step r :
  keeps few_failures (execute_step W r).
Proof.
  unfold execute_step.
  repeat first
    [ apply keeps_few_failures_remember
    | apply (keeps_same session_memory few_failures _ few_failures_same);
      solve [same_tac]
    | progress cbv zeta
    | apply keeps_bind; [|intros ?]
    | match goal with
      | |- keeps _ (if ?b then _ else _) => destruct b
      | |- keeps _ (match ?x with _ => _ end) => destruct x
      end ].
Qed.

End FailureMemory.

Section FailureMemoryOfLoops.
Import AgentLoop.
Variable W : world.

Lemma few_failures_of_same {A} (c : M A) :
  same session_memory c -> keeps few_failures c.
Proof. apply keeps_same. exact few_failures_same. Qed.

Lemma keeps_few_failures_run_loop fuel step :
  keeps few_failures (run_loop W fuel step).
Proof.
  apply keeps_run_loop.
  - apply keeps_few_failures_execute_step.
  - intros r. apply few_failures_of_same. apply same_memory_evaluate_step.
  - intros r. apply few_failures_of_same. same_tac.
  - apply few_failures_of_same. same_tac.
  - intros s. apply few_failures_of_same. same_tac.
  - intros r. apply few_failures_of_same. unfold append_to_last_plan. same_tac.
Qed.

Lemma keeps_few_failures_resume_loop fuel step :
  keeps few_failures (resume_loop W fuel step).
Proof.
  apply keeps_resume_loop.
  - apply keeps_few_failures_execute_step.
  - intros r. apply few_failures_of_same. apply same_memory_evaluate_step.
  - intros r. apply few_failures_of_same. same_tac.
  - apply few_failures_of_same. same_tac.
Qed.

Lemma keeps_few_failures_run_body : keeps few_failures (run_body W).
Proof.
  assert (Hs : forall {A} (c : M A), same session_memory c -> keeps few_failures c)
    by (intros A c; apply keeps_same; exact few_failures_same).
  unfold run_body.
  apply keeps_bind; [apply Hs; same_tac|]. intros p.
  apply keeps_bind; [apply Hs; same_tac|]. intros _.
  destruct (original_goal_achieved p); [apply Hs; same_tac|].
  apply keeps_bind; [apply Hs; same_tac|]. intros d.
  apply keeps_bind; [apply Hs; same_tac|]. intros step.
  destruct (is_type _ _); [apply Hs; same_tac|].
  apply keeps_few_failures_run_loop.
Qed.

Lemma keeps_few_failures_resume guidance :
  keeps few_failures (resume_with_guidance W guidance).
Proof.
  assert (Hs : forall {A} (c : M A), same session_memory c -> keeps few_failures c)
    by (intros A c; apply keeps_same; exact few_failures_same).
  unfold resume_with_guidance.
  apply keeps_bind; [apply Hs; same_tac|]. intros sess.
  apply keeps_bind; [apply Hs; same_tac|]. intros pv.
  apply keeps_bind; [apply Hs; same_tac|]. intros r.
  apply keeps_bind; [apply Hs; same_tac|]. intros d0.
  apply keeps_bind; [apply Hs; same_tac|]. intros d.
  destruct (is_type _ _); [apply Hs; same_tac|].
  apply keeps_bind; [apply Hs; same_tac|]. intros s.
  apply keeps_bind; [apply Hs; same_tac|]. intros step.
  apply keeps_bind.
  - intros st _. unfold few_failures. simpl.
    unfold GLOBAL_PREVIOUS_FAILURE_STEPS. lia.
  - intros _. apply keeps_few_failures_resume_loop.
Qed.
End FailureMemoryOfLoops.

(** X24.  The memory of failed steps that the loop hands to the perception
    never holds more than GLOBAL_PREVIOUS_FAILURE_STEPS entries: when a
    fourth failure is remembered the oldest one is dropped.  This holds at
    the end of [run], and [resume_with_guidance] keeps it. *)
Theorem failure_memory_is_bounded
    (W : AgentLoop.world) (query guidance : str) (st : AgentLoop.state) :
  few_failures (snd (AgentLoop.run W query)) /\
  (few_failures st ->
   few_failures (snd (AgentLoop.resume_with_guidance W guidance st))).
Proof.
  split.
  - apply keeps_few_failures_run_body.
    unfold few_failures. simpl. lia.
  - apply keeps_few_failures_resume.
Qed.

Lemma failure_memory_is_bounded_witness :
  few_failures
    (snd (AgentLoop.resume_with_guidance Samples.failing_world
            (lit "try again") (snd (AgentLoop.run Samples.failing_world []))))
  /\ length (AgentLoop.session_memory
               (snd (AgentLoop.run Samples.failing_world []))) = 3%nat.
Proof.
  split.
  - apply (proj2 (failure_memory_is_bounded Samples.failing_world []
                    (lit "try again")
                    (snd (AgentLoop.run Samples.failing_world [])))).
    unfold few_failures. vm_compute. lia.
  - vm_compute. reflexivity.
Defined.

Section PlanVersions.
Import AgentLoop.
Variable W : world.

Lemma all_planned_steady {A} (c : M A) :
  same planned c -> same decided c -> keeps all_planned c.
Proof.
  intros Hp Hd st H. unfold all_planned in *. rewrite Hp, Hd. exact H.
Qed.

(** A decision that is taken is recorded at once as a plan version. *)
Lemma plan_from_planned d st :
  planned (snd (plan_from d st)) = S (planned st) /\
  decided (snd (plan_from d st)) = decided st.
Proof.
  unfold plan_from, planned.
  destruct (is_type _ _); simpl; rewrite length_app; simpl; split; lia.
Qed.

Lemma keeps_all_planned_replan :
  keeps all_planned (bind (decision_run W) (fun d => plan_from d)).
Proof.
  intros st H. unfold all_planned in *. rewrite bind_step.
  change (decision_run W st)
    with (Some (decide W (decided st)),
          {| session := session st; session_memory := session_memory st;
             perceived := perceived st; decided := decided st + 1;
             executed := executed st |}).
  cbv iota.
  match goal with |- context [plan_from ?d ?st1] =>
    destruct (plan_from_planned d st1) as [-> ->] end.
  unfold planned in *. simpl. lia.
Qed.

Lemma same_planned_append_to_last_plan r :
  same planned (append_to_last_plan r).
Proof.
  intros st. unfold append_to_last_plan, planned. rewrite bind_step.
  unfold get_session.
  destruct (last (plan_versions (session st))) as [pv|] eqn:E; [|reflexivity].
  simpl. rewrite length_app, removelast_firstn_len, length_firstn. simpl.
  destruct (plan_versions (session st)) as [|x l]; [discriminate|].
  simpl. lia.
Qed.

Ltac planned_tac :=
  repeat first
    [ apply keeps_all_planned_replan
    | apply all_planned_steady; solve [same_tac]
    | progress cbv zeta
    | apply keeps_bind; [|intros ?]
    | match goal with
      | |- keeps _ (if ?b then _ else _) => destruct b
      | |- keeps _ (match ?x with _ => _ end) => destruct x
      end ].

Lemma keeps_all_planned_execute_step r : keeps all_planned (execute_step W r).
Proof. apply all_planned_steady; unfold execute_step; same_tac. Qed.

Lemma keeps_all_planned_evaluate_step r :
  keeps all_planned (evaluate_step W r).
Proof. unfold evaluate_step, get_next_step. planned_tac. Qed.

Lemma keeps_all_planned_run_loop fuel step :
  keeps all_planned (run_loop W fuel step).
Proof.
  apply keeps_run_loop.
  - apply keeps_all_planned_execute_step.
  - apply keeps_all_planned_evaluate_step.
  - intros r. apply all_planned_steady; same_tac.
  - apply all_planned_steady; same_tac.
  - intros s. apply all_planned_steady; same_tac.
  - intros r. apply all_planned_steady;
      [apply same_planned_append_to_last_plan
      | unfold append_to_last_plan; same_tac].
Qed.

Lemma run_all_planned query : all_planned (snd (run W query)).
Proof.
  unfold run.
  assert (H0 : all_planned (new_session query)) by reflexivity.
  revert H0. generalize (new_session query).
  change (keeps all_planned (run_body W)). unfold run_body.
  apply keeps_bind; [apply all_planned_steady; same_tac|]. intros p.
  apply keeps_bind; [apply all_planned_steady; same_tac|]. intros _.
  destruct (original_goal_achieved p); [apply all_planned_steady; same_tac|].
  intros st H. rewrite bind_step.
  change (decision_run W st)
    with (Some (decide W (decided st)),
          {| session := session st; session_memory := session_memory st;
             perceived := perceived st; decided := decided st + 1;
             executed := executed st |}).
  cbv iota. rewrite bind_step.
  match goal with |- context [plan_from ?d ?st1] =>
    pose proof (plan_from_planned d st1) as [Hp Hd];
    destruct (plan_from d st1) as [[step|] st2]
  end; simpl in Hp, Hd.
  - assert (H2 : all_planned st2)
      by (unfold all_planned, planned in *; simpl in *; lia).
    destruct (is_type _ _); [exact H2|].
    apply keeps_all_planned_run_loop. exact H2.
  - unfold all_planned, planned in *. simpl in *. lia.
Qed.
End PlanVersions.

(** X25.  At the end of [run] the session has exactly one plan version for
    each call of the decision model: the first decision and every replan
    are recorded, also those that ask for a human. *)
Theorem every_decision_is_a_plan_version
    (W : AgentLoop.world) (query : str) :
  length (AgentLoop.plan_versions
            (AgentLoop.session (snd (AgentLoop.run W query))))
  = AgentLoop.decided (snd (AgentLoop.run W query)).
Proof. apply (run_all_planned W query). Qed.

(** The counter is one of the components. *)
Ltac total_tac :=
  match goal with |- unchanged ?c => change (same total c) end;
  unfold AgentLoop.append_to_last_plan; same_tac.

Section ExecutorCalls.
Import AgentLoop.
Variable W : world.

(** One execution of a step calls the executor at most once; a step that
    comes back without asking for a human has been run by the executor. *)
Lemma execute_step_calls r st :
  (executed st <= executed (snd (execute_step W r st)) <= executed st + 1)%nat /\
  forall r' s',
    fst (execute_step W r st) = Some (Some r') ->
    heap (session (snd (execute_step W r st))) !! r' = Some s' ->
    is_type "HUMAN_IN_LOOP" (type s') = false ->
    executed (snd (execute_step W r st)) = (executed st + 1)%nat.
Proof.
  assert (Hd : deref r st = (heap (session st) !! r, st)).
  { unfold deref. rewrite bind_step. unfold get_session.
    destruct (heap (session st) !! r); reflexivity. }
  unfold execute_step. rewrite bind_step, Hd.
  destruct (heap (session st) !! r) as [s|] eqn:Hs;
    [|cbn [fst snd]; split; [lia | discriminate]].
  destruct (is_type "CODE" (type s)) eqn:Ecode.
  - destruct (MAX_RETRIES <=? retries s)%nat.
    + cbn [bind write update_session ret fst snd executed session heap set_heap].
      split; [lia|]. intros r' s' [= <-].
      rewrite list_lookup_alter_eq, Hs. cbn [fmap option_fmap option_map].
      intros [= <-]. discriminate.
    + destruct (code s) as [c|];
        [|cbn [bind raise fst snd]; split; [lia | discriminate]].
      cbn [bind ret run_user_code fst snd].
      destruct (requires_human_intervention (execute W (executed st))).
      * cbn [bind write update_session ret fst snd executed].
        split; [lia | intros; reflexivity].
      * cbn [bind write update_session ret run_perception fst snd executed].
        match goal with |- context [negb ?b] => destruct b end;
          cbn [negb bind write update_session ret get_memory set_memory
               fst snd executed];
          (split; [lia | intros; reflexivity]).
  - destruct (is_type "CONCLUDE" (type s)).
    { cbn [bind write update_session ret run_perception mark_complete
           fst snd executed].
      split; [lia | discriminate]. }
    destruct (is_type "NOP" (type s)).
    { cbn [bind write update_session ret fst snd executed].
      split; [lia | discriminate]. }
    destruct (is_type "HUMAN_IN_LOOP" (type s)) eqn:Eh;
      [|cbn [ret fst snd]; split; [lia | discriminate]].
    cbn [bind write update_session ret fst snd executed session heap set_heap].
    split; [lia|]. intros r' s' [= <-].
    rewrite list_lookup_alter_eq, Hs. cbn [fmap option_fmap option_map].
    intros [= <-]. cbn [set_status type]. rewrite Eh. discriminate.
Qed.

Lemma same_executed_evaluate_step r : same executed (evaluate_step W r).
Proof. unfold evaluate_step, get_next_step. same_tac. Qed.

Lemma deref_state r st : snd (deref r st) = st.
Proof.
  unfold deref. rewrite bind_step. unfold get_session.
  destruct (heap (session st) !! r); reflexivity.
Qed.

Lemma deref_some r st s st' :
  deref r st = (Some s, st') -> heap (session st) !! r = Some s.
Proof.
  unfold deref. rewrite bind_step. unfold get_session.
  destruct (heap (session st) !! r); [intros [= <- _]; reflexivity | discriminate].
Qed.

(** The loop of [run] calls the executor once for each step it counts,
    and at most once more. *)
Lemma run_loop_calls fuel : forall step st,
  executed st = total st ->
  (total st <= MAX_STEPS)%nat ->
  let st' := snd (run_loop W fuel step st) in
  (total st' <= executed st' <= total st' + 1)%nat /\
  (executed st' <= MAX_STEPS)%nat.
Proof.
  induction fuel as [|fuel IH]; intros [step|] st He Hle; cbv zeta;
    try (simpl; lia).
  destruct (MAX_STEPS <=? total st)%nat eqn:E.
  - cbn [run_loop]. rewrite bind_step. unfold get_session.
    unfold total in E. rewrite E. fold (total st) in E.
    match goal with |- context [snd (?c st)] =>
      assert (Ht : unchanged c) by total_tac;
      assert (Hx : same executed c)
        by (unfold append_to_last_plan; same_tac)
    end.
    rewrite Ht, Hx. lia.
  - rewrite run_loop_turn by exact E.
    apply Nat.leb_gt in E. unfold turn. rewrite bind_step.
    pose proof (unchanged_execute_step W step st) as T1.
    destruct (execute_step_calls step st) as [X1 X1'].
    destruct (execute_step W step st) as [[[r'|]|] st1]; simpl in T1, X1, X1';
      try (simpl; lia).
    rewrite bind_step.
    pose proof (deref_state r' st1) as D.
    destruct (deref r' st1) as [[s|] st2] eqn:Ed; simpl in D; subst st2;
      [|simpl; lia].
    apply deref_some in Ed.
    destruct (is_type "HUMAN_IN_LOOP" (type s)) eqn:Eh; [simpl; lia|].
    specialize (X1' r' s eq_refl Ed Eh).
    rewrite bind_step.
    pose proof (total_count_step st1) as T3.
    assert (X3 : executed (snd (count_step st1)) = executed st1) by reflexivity.
    destruct (count_step st1) as [[u|] st3] eqn:E3; simpl in T3, X3;
      [|unfold count_step, update_session in E3; discriminate].
    rewrite bind_step.
    pose proof (unchanged_evaluate_step W r' st3) as T4.
    pose proof (same_executed_evaluate_step r' st3) as X4.
    destruct (evaluate_step W r' st3) as [[next|] st4]; simpl in T4, X4;
      [|simpl; lia].
    apply IH; lia.
Qed.
End ExecutorCalls.

(** X26.  During [run] the executor is called at most MAX_STEPS times.
    The counter [total_steps_executed] counts those calls, except that a
    call after which the tool asks for human intervention is not counted:
    at the end of [run] the number of calls is the counter or one more. *)
Theorem executor_is_called_at_most_max_steps_times
    (W : AgentLoop.world) (query : str) :
  let st := snd (AgentLoop.run W query) in
  (AgentLoop.executed st <= AgentLoop.MAX_STEPS)%nat /\
  (total st <= AgentLoop.executed st <= total st + 1)%nat.
Proof.
  cbv zeta. unfold AgentLoop.run, AgentLoop.run_body.
  assert (H0 : AgentLoop.executed (AgentLoop.new_session query)
               = total (AgentLoop.new_session query)) by reflexivity.
  assert (H1 : (total (AgentLoop.new_session query) <= AgentLoop.MAX_STEPS)%nat)
    by (unfold total; simpl; lia).
  revert H0 H1. generalize (AgentLoop.new_session query). intros st H0 H1.
  assert (Hstep : forall {A B} (c : AgentLoop.M A) (k : A -> AgentLoop.M B) st,
            unchanged c -> same AgentLoop.executed c ->
            AgentLoop.executed st = total st ->
            (total st <= AgentLoop.MAX_STEPS)%nat ->
            (forall a st',
               AgentLoop.executed st' = total st' ->
               (total st' <= AgentLoop.MAX_STEPS)%nat ->
               (AgentLoop.executed (snd (k a st')) <= AgentLoop.MAX_STEPS)%nat /\
               (total (snd (k a st')) <= AgentLoop.executed (snd (k a st'))
                <= total (snd (k a st')) + 1)%nat) ->
            (AgentLoop.executed (snd (AgentLoop.bind c k st))
             <= AgentLoop.MAX_STEPS)%nat /\
            (total (snd (AgentLoop.bind c k st))
             <= AgentLoop.executed (snd (AgentLoop.bind c k st))
             <= total (snd (AgentLoop.bind c k st)) + 1)%nat).
  { intros A B c k st0 Hu Hs He Hl Hk. rewrite bind_step.
    specialize (Hu st0). specialize (Hs st0).
    destruct (c st0) as [[a|] st']; simpl in Hu, Hs.
    - apply Hk; lia.
    - simpl. lia. }
  assert (Hret : forall b st,
            AgentLoop.executed st = total st ->
            (total st <= AgentLoop.MAX_STEPS)%nat ->
            (AgentLoop.executed (snd (AgentLoop.ret (A:=bool) b st))
             <= AgentLoop.MAX_STEPS)%nat /\
            (total (snd (AgentLoop.ret (A:=bool) b st))
             <= AgentLoop.executed (snd (AgentLoop.ret (A:=bool) b st))
             <= total (snd (AgentLoop.ret (A:=bool) b st)) + 1)%nat)
    by (intros b st0 He Hl; simpl; lia).
  apply Hstep; [total_tac | same_tac | exact H0 | exact H1 |].
  intros p st1 E1 L1.
  apply Hstep; [total_tac | same_tac | exact E1 | exact L1 |].
  intros u st2 E2 L2.
  destruct (AgentLoop.original_goal_achieved p).
  - apply Hstep; [total_tac | same_tac | exact E2 | exact L2 |].
    intros u' st3 E3 L3. apply Hret; assumption.
  - apply Hstep; [total_tac | same_tac | exact E2 | exact L2 |].
    intros d st3 E3 L3.
    apply Hstep; [total_tac | same_tac | exact E3 | exact L3 |].
    intros step st4 E4 L4.
    destruct (AgentLoop.is_type "HUMAN_IN_LOOP" (AgentLoop.d_type d));
      [apply Hret; assumption|].
    destruct (run_loop_calls W (S AgentLoop.MAX_STEPS) step st4 E4 L4)
      as [Ha Hb].
    split; [exact Hb | exact Ha].
Qed.

(** X27.  When the first perception already finds the original goal
    achieved, [run] ends at once: the decision model and the executor are
    never called, no plan version and no step are made, and the session is
    complete with the solution summary of the perception as its final
    answer. *)
Theorem answer_from_perception_ends_the_run
    (W : AgentLoop.world) (query : str) :
  AgentLoop.original_goal_achieved (AgentLoop.perceive W 0) = true ->
  AgentLoop.run W query
  = (Some true,
     {| AgentLoop.session :=
          {| AgentLoop.original_query := query;
             AgentLoop.heap := [];
             AgentLoop.plan_versions := [];
             AgentLoop.total_steps_executed := 0;
             AgentLoop.perceptions := [AgentLoop.perceive W 0];
             AgentLoop.complete := true;
             AgentLoop.final_answer :=
               Some (AgentLoop.solution_summary (AgentLoop.perceive W 0)) |};
        AgentLoop.session_memory := [];
        AgentLoop.perceived := 1;
        AgentLoop.decided := 0;
        AgentLoop.executed := 0 |}).
Proof.
  intros H. unfold AgentLoop.run, AgentLoop.run_body.
  rewrite bind_step.
  change (AgentLoop.run_perception W (AgentLoop.new_session query))
    with (Some (AgentLoop.perceive W 0),
          {| AgentLoop.session := AgentLoop.session (AgentLoop.new_session query);
             AgentLoop.session_memory := [];
             AgentLoop.perceived := 1;
             AgentLoop.decided := 0;
             AgentLoop.executed := 0 |}).
  cbv iota. rewrite bind_step. cbn [AgentLoop.add_perception AgentLoop.update_session].
  rewrite H. reflexivity.
Qed.

Lemma answer_from_perception_ends_the_run_witness :
  fst (AgentLoop.run
         {| AgentLoop.perceive := fun _ =>
              {| AgentLoop.local_goal_achieved := true;
                 AgentLoop.original_goal_achieved := true;
                 AgentLoop.solution_summary := lit "4" |};
            AgentLoop.decide := AgentLoop.decide Samples.failing_world;
            AgentLoop.execute := AgentLoop.execute Samples.failing_world |}
         (lit "2 + 2"))
  = Some true.
Proof.
  rewrite (answer_from_perception_ends_the_run
             {| AgentLoop.perceive := fun _ =>
                  {| AgentLoop.local_goal_achieved := true;
                     AgentLoop.original_goal_achieved := true;
                     AgentLoop.solution_summary := lit "4" |};
                AgentLoop.decide := AgentLoop.decide Samples.failing_world;
                AgentLoop.execute := AgentLoop.execute Samples.failing_world |}
             (lit "2 + 2")).
  - reflexivity.
  - reflexivity.
Defined.

(** X28.  [resume_with_guidance] asks the decision model twice and uses
    the second answer only.  When that answer is again HUMAN_IN_LOOP the
    session is returned as it was: no plan version is added and nothing is
    executed (in [run] such an answer is recorded as a plan version).  On a
    session without a plan version it raises before the model is asked. *)
Theorem guidance_answered_by_human_in_loop_changes_nothing
    (W : AgentLoop.world) (guidance : str) (st : AgentLoop.state) :
  (AgentLoop.plan_versions (AgentLoop.session st) = [] ->
   AgentLoop.resume_with_guidance W guidance st = (None, st)) /\
  (forall pv r,
     last (AgentLoop.plan_versions (AgentLoop.session st)) = Some pv ->
     last (AgentLoop.pv_steps pv) = Some r ->
     AgentLoop.is_type "HUMAN_IN_LOOP"
       (AgentLoop.d_type (AgentLoop.decide W (AgentLoop.decided st + 1)))
     = true ->
     AgentLoop.resume_with_guidance W guidance st
     = (Some true,
        {| AgentLoop.session := AgentLoop.session st;
           AgentLoop.session_memory := AgentLoop.session_memory st;
           AgentLoop.perceived := AgentLoop.perceived st;
           AgentLoop.decided := AgentLoop.decided st + 1 + 1;
           AgentLoop.executed := AgentLoop.executed st |})).
Proof.
  unfold AgentLoop.resume_with_guidance. split.
  - intros H. rewrite bind_step. unfold AgentLoop.get_session.
    rewrite H. reflexivity.
  - intros pv r Hp Hr Hh. rewrite bind_step. unfold AgentLoop.get_session.
    rewrite Hp. rewrite bind_step. cbn [AgentLoop.ret].
    rewrite Hr. rewrite bind_step. cbn [AgentLoop.ret].
    rewrite bind_step. cbn [AgentLoop.decision_run].
    rewrite bind_step. cbn [AgentLoop.decision_run AgentLoop.decided].
    rewrite Hh. reflexivity.
Qed.

Lemma guidance_answered_by_human_in_loop_changes_nothing_witness :
  fst (AgentLoop.resume_with_guidance Samples.asking_world (lit "Paris")
         (snd (AgentLoop.run Samples.asking_world (lit "weather"))))
  = Some true.
Proof.
  rewrite (proj2 (guidance_answered_by_human_in_loop_changes_nothing
                    Samples.asking_world (lit "Paris")
                    (snd (AgentLoop.run Samples.asking_world (lit "weather"))))
             {| AgentLoop.pv_plan_text := AgentLoop.plan_text Samples.asking;
                AgentLoop.pv_steps := [0%nat] |} 0%nat).
  - reflexivity.
  - vm_compute. reflexivity.
  - reflexivity.
  - vm_compute. reflexivity.
Defined.

(* ===================================================================== *)
(** * The cleaned output of the sandbox *)
(* ===================================================================== *)

Section Fences.
Import Re Heuristics.
Variable U : unicode.

Definition tick : char := 96%N.
Definition fence : str := lit "```".
Definition no_fence (s : str) : Prop := ~ occurs fence s.

Lemma m_opt p re prev s n gs ge :
  m (Opt p :: re) prev s n gs ge
  = match s with
    | c :: s' =>
        if p c then
          match m re (Some c) s' (S n) gs ge with
          | Some r => Some r
          | None => m re prev s n gs ge
          end
        else m re prev s n gs ge
    | [] => m re prev s n gs ge
    end.
Proof. destruct s; reflexivity. Qed.

Lemma m_bol re prev s n gs ge :
  m (Bol :: re) prev s n gs ge
  = match prev with
    | None => m re prev s n gs ge
    | Some c => if (c =? NL)%N then m re prev s n gs ge else None
    end.
Proof. reflexivity. Qed.

Lemma m_eol re prev s n gs ge :
  m (Eol :: re) prev s n gs ge
  = match s with
    | [] => m re prev s n gs ge
    | c :: _ => if (c =? NL)%N then m re prev s n gs ge else None
    end.
Proof. destruct s; reflexivity. Qed.

Lemma m_not_ahead t re prev s n gs ge :
  m (NotAhead t :: re) prev s n gs ge
  = if starts_with t s then None else m re prev s n gs ge.
Proof. reflexivity. Qed.

Lemma m_gopen re prev s n gs ge :
  m (GOpen :: re) prev s n gs ge = m re prev s n n ge.
Proof. reflexivity. Qed.

Lemma m_gclose re prev s n gs ge :
  m (GClose :: re) prev s n gs ge = m re prev s n gs n.
Proof. reflexivity. Qed.

(** The text at the end of a line. *)
Definition at_eol (s : str) : Prop :=
  match s with [] => True | c :: _ => c = NL end.

(** A pattern that ends with [$] only matches up to the end of a line. *)
Lemma m_ends_at_eol re : forall prev s n gs ge r,
  m (re ++ [Eol]) prev s n gs ge = Some r ->
  (n <= m_len r)%nat /\ at_eol (skipn (m_len r - n) s).
Proof.
  induction re as [|a re IH]; intros prev s n gs ge r H.
  - cbn [app] in H. rewrite m_eol in H.
    assert (Hs : at_eol s /\ m_len r = n).
    { destruct s as [|c s].
      - simpl in H. injection H as <-. split; [exact I | reflexivity].
      - destruct (N.eqb_spec c NL) as [-> | _]; [|discriminate].
        simpl in H. injection H as <-. split; reflexivity. }
    destruct Hs as [Hs ->]. rewrite Nat.sub_diag. split; [lia | exact Hs].
  - cbn [app] in H. destruct a as [p | p g | p | | | w | t | |].
    + rewrite m_one in H. destruct s as [|c s]; [discriminate|].
      destruct (p c); [|discriminate].
      apply IH in H. destruct H as [Hn He]. split; [lia|].
      replace (m_len r - n)%nat with (S (m_len r - S n)) by lia. exact He.
    + apply m_many_takes in H. destruct H as (k & prev' & Hk & _ & H).
      apply IH in H. destruct H as [Hn He]. split; [lia|].
      rewrite skipn_skipn in He.
      replace (m_len r - n)%nat with (m_len r - (n + k) + k)%nat by lia.
      exact He.
    + rewrite m_opt in H.
      assert (Hstay : m (re ++ [Eol]) prev s n gs ge = Some r ->
                      (n <= m_len r)%nat /\ at_eol (skipn (m_len r - n) s))
        by apply IH.
      destruct s as [|c s]; [apply Hstay; exact H|].
      destruct (p c); [|apply Hstay; exact H].
      destruct (m (re ++ [Eol]) (Some c) s (S n) gs ge) eqn:E;
        [|apply Hstay; exact H].
      injection H as ->. apply IH in E. destruct E as [Hn He].
      split; [lia|].
      replace (m_len r - n)%nat with (S (m_len r - S n)) by lia. exact He.
    + rewrite m_bol in H. destruct prev as [c|]; [|apply IH in H; exact H].
      destruct (c =? NL)%N; [apply IH in H; exact H | discriminate].
    + rewrite m_eol in H. destruct s as [|c s]; [apply IH in H; exact H|].
      destruct (c =? NL)%N; [apply IH in H; exact H | discriminate].
    + rewrite m_wordb in H.
      destruct (xorb _ _); [apply IH in H; exact H | discriminate].
    + rewrite m_not_ahead in H.
      destruct (starts_with t s); [discriminate | apply IH in H; exact H].
    + rewrite m_gopen in H. apply IH in H. exact H.
    + rewrite m_gclose in H. apply IH in H. exact H.
Qed.

(** Deleting goes on after the characters of the last match. *)
Lemma delete_from_skip re : forall k s prev,
  exists prev', delete_from re prev s k = delete_from re prev' (skipn k s) 0.
Proof.
  induction k as [|k IH]; intros s prev; [exists prev; reflexivity|].
  destruct s as [|c s]; [exists prev; reflexivity|].
  cbn [delete_from skipn]. apply IH.
Qed.

Lemma occurs_cons w c s :
  occurs w (c :: s) -> starts_with w (c :: s) = true \/ occurs w s.
Proof.
  intros (pre & post & H). destruct pre as [|a pre].
  - left. apply starts_with_app. exists post. exact H.
  - right. injection H as _ ->. exists pre, post. reflexivity.
Qed.

Lemma occurs_skipn w k s : occurs w (skipn k s) -> occurs w s.
Proof.
  intros (pre & post & H). exists (firstn k s ++ pre), post.
  rewrite <- app_assoc, <- H. symmetry. apply firstn_skipn.
Qed.

Lemma occurs_tail w c s : occurs w s -> occurs w (c :: s).
Proof. intros (pre & post & ->). exists (c :: pre), post. reflexivity. Qed.

(** What is left when the matches of a pattern are deleted starts with a
    backtick only if the text does and that backtick is kept. *)
Definition kept_head (re : regex) (s : str) : Prop :=
  forall prev o,
    delete_from re prev s 0 = tick :: o ->
    exists s' prev', s = tick :: s' /\ o = delete_from re prev' s' 0.

Lemma starts_with_fence c s :
  starts_with fence (c :: s) = true ->
  c = tick /\ exists o, s = tick :: tick :: o.
Proof.
  intros H. apply starts_with_app in H. destruct H as [post H].
  injection H as -> ->. eauto.
Qed.

(** Deleting the matches of a pattern that end at the end of a line makes
    no fence. *)
Lemma delete_line_pattern re :
  (forall prev s r, m re prev s 0 0 0 = Some r ->
                    at_eol (skipn (m_len r) s)) ->
  forall n s, (length s <= n)%nat ->
    kept_head re s /\
    (no_fence s -> forall prev, no_fence (delete_from re prev s 0)).
Proof.
  intros Heol. induction n as [|n IH]; intros s Hn.
  { destruct s; [|simpl in Hn; lia].
    split; [intros prev o H; discriminate|].
    intros _ prev (pre & post & H). destruct pre; discriminate. }
  destruct s as [|c s].
  { split; [intros prev o H; discriminate|].
    intros _ prev (pre & post & H). destruct pre; discriminate. }
  simpl in Hn.
  assert (Hkeep : forall prev,
            delete_from re prev (c :: s) 0 = c :: delete_from re (Some c) s 0 ->
            (forall o, delete_from re prev (c :: s) 0 = tick :: o ->
               exists s' prev', c :: s = tick :: s' /\
                                o = delete_from re prev' s' 0) /\
            (no_fence (c :: s) -> no_fence (delete_from re prev (c :: s) 0))).
  { intros prev ->. split.
    - intros o [= -> <-]. eauto.
    - intros Hnf Hocc. apply occurs_cons in Hocc. destruct Hocc as [Hh | Ht].
      + apply starts_with_fence in Hh. destruct Hh as [-> [o Ho]].
        destruct (IH s ltac:(lia)) as [Hk _].
        destruct (Hk _ _ Ho) as (s1 & p1 & -> & Ho1).
        destruct (IH s1 ltac:(simpl in Hn; lia)) as [Hk1 _].
        symmetry in Ho1. destruct (Hk1 _ _ Ho1) as (s2 & p2 & -> & _).
        apply Hnf. exists [], s2. reflexivity.
      + destruct (IH s ltac:(lia)) as [_ Hs].
        apply (Hs ltac:(intros Ho; apply Hnf; apply occurs_tail; exact Ho)
                 (Some c)).
        exact Ht. }
  assert (Hdrop : forall prev k,
            delete_from re prev (c :: s) 0 = delete_from re (Some c) s k ->
            at_eol (skipn k s) ->
            (forall o, delete_from re prev (c :: s) 0 = tick :: o ->
               exists s' prev', c :: s = tick :: s' /\
                                o = delete_from re prev' s' 0) /\
            (no_fence (c :: s) -> no_fence (delete_from re prev (c :: s) 0))).
  { intros prev k -> He.
    destruct (delete_from_skip re k s (Some c)) as [prev' ->].
    destruct (IH (skipn k s)
                ltac:(rewrite length_skipn; lia)) as [Hk Hs].
    split.
    - intros o Ho. exfalso.
      destruct (Hk _ _ Ho) as (s1 & p1 & E1 & _).
      rewrite E1 in He. simpl in He. discriminate.
    - intros Hnf. apply Hs. intros Ho. apply Hnf. apply occurs_tail.
      apply (occurs_skipn _ k). exact Ho. }
  assert (Hall : forall prev,
            (forall o, delete_from re prev (c :: s) 0 = tick :: o ->
               exists s' prev', c :: s = tick :: s' /\
                                o = delete_from re prev' s' 0) /\
            (no_fence (c :: s) -> no_fence (delete_from re prev (c :: s) 0))).
  { intros prev.
    destruct (m re prev (c :: s) 0 0 0) as [r|] eqn:E.
    - destruct (m_len r) as [|k] eqn:El.
      + apply Hkeep. cbn [delete_from]. rewrite E, El. reflexivity.
      + apply (Hdrop prev k).
        * cbn [delete_from]. rewrite E, El. reflexivity.
        * pose proof (Heol _ _ _ E) as He. rewrite El in He. exact He.
    - apply Hkeep. cbn [delete_from]. rewrite E. reflexivity. }
  split.
  - intros prev o. apply (Hall prev).
  - intros Hnf prev. apply (Hall prev). exact Hnf.
Qed.

Lemma m_fence prev s :
  m FENCE prev s 0 0 0
  = if starts_with fence s
    then Some {| m_len := 3; g_from := 0; g_to := 0 |} else None.
Proof.
  change FENCE with [chr 96%N; chr 96%N; chr 96%N].
  change fence with [96%N; 96%N; 96%N].
  unfold chr. rewrite m_one. destruct s as [|a s]; [reflexivity|].
  cbn [starts_with]. destruct (96 =? a)%N; [|reflexivity].
  rewrite m_one. destruct s as [|b s]; [reflexivity|].
  cbn [starts_with andb]. destruct (96 =? b)%N; [|reflexivity].
  rewrite m_one. destruct s as [|c s]; [reflexivity|].
  cbn [starts_with andb]. destruct (96 =? c)%N; reflexivity.
Qed.

(** One step of deleting the fences. *)
Lemma delete_fence_step prev (c : char) (s : str) :
  (exists (o : str) prev',
     c :: s = tick :: tick :: tick :: o /\
     delete_from FENCE prev (c :: s) 0 = delete_from FENCE prev' o 0) \/
  (starts_with fence (c :: s) = false /\
   delete_from FENCE prev (c :: s) 0 = c :: delete_from FENCE (Some c) s 0).
Proof.
  cbn [delete_from]. rewrite m_fence.
  destruct (starts_with fence (c :: s)) eqn:E; [left | right; auto].
  apply starts_with_fence in E. destruct E as [-> [o ->]].
  exists o, (Some tick). split; reflexivity.
Qed.

Lemma delete_fence_head1 prev (s o : str) :
  delete_from FENCE prev s 0 = tick :: o ->
  exists s' : str, s = tick :: s'.
Proof.
  destruct s as [|c s]; [discriminate|].
  destruct (delete_fence_step prev c s) as [(o' & p & E & _) | [_ ->]].
  - injection E as -> _. eauto.
  - intros [= -> _]. eauto.
Qed.

Lemma delete_fence_head2 prev (s o : str) :
  delete_from FENCE prev s 0 = tick :: tick :: o ->
  exists s' : str, s = tick :: tick :: s'.
Proof.
  destruct s as [|c s]; [discriminate|].
  destruct (delete_fence_step prev c s) as [(o' & p & E & _) | [_ ->]].
  - injection E as -> ->. eauto.
  - intros [= -> H]. apply delete_fence_head1 in H. destruct H as [s' ->].
    eauto.
Qed.

(** After the fences have been deleted, none is left. *)
Lemma delete_fence_no_fence : forall n s prev,
  (length s <= n)%nat -> no_fence (delete_from FENCE prev s 0).
Proof.
  induction n as [|n IH]; intros s prev Hn.
  { destruct s; [|simpl in Hn; lia].
    intros (pre & post & H). destruct pre; discriminate. }
  destruct s as [|c s].
  { intros (pre & post & H). destruct pre; discriminate. }
  simpl in Hn.
  destruct (delete_fence_step prev c s) as [(o & p & E & ->) | [Hno ->]].
  - apply IH. injection E as _ ->. simpl in Hn. lia.
  - intros Hocc. apply occurs_cons in Hocc. destruct Hocc as [Hh | Ht].
    + apply starts_with_fence in Hh. destruct Hh as [-> [o Ho]].
      apply delete_fence_head2 in Ho. destruct Ho as [s' ->].
      discriminate.
    + revert Ht. apply IH. lia.
Qed.

(** ** Lines *)

Lemma starts_with_sep w c b : forall a,
  ~ In c w -> starts_with w (a ++ c :: b) = true -> starts_with w a = true.
Proof.
  induction w as [|y w IH]; intros a Hc H; [reflexivity|].
  destruct a as [|x a]; simpl in H.
  - apply andb_true_iff in H. destruct H as [H _]. apply N.eqb_eq in H.
    exfalso. apply Hc. left. exact H.
  - apply andb_true_iff in H. destruct H as [H1 H2]. simpl. rewrite H1.
    apply IH; [|exact H2]. intros Hin. apply Hc. right. exact Hin.
Qed.

(** An occurrence of a text in which [c] does not occur lies on one side
    of a [c]. *)
Lemma occurs_app_sep w c b : forall a,
  ~ In c w -> occurs w (a ++ c :: b) -> occurs w a \/ occurs w b.
Proof.
  assert (Hstart : forall a, ~ In c w ->
            starts_with w (a ++ c :: b) = true -> occurs w a).
  { intros a Hc H. apply starts_with_sep in H; [|exact Hc].
    apply starts_with_app in H. destruct H as [post ->].
    exists [], post. reflexivity. }
  induction a as [|x a IH]; intros Hc H.
  - apply occurs_cons in H. destruct H as [H | H]; [|right; exact H].
    left. apply (Hstart [] Hc H).
  - change ((x :: a) ++ c :: b) with (x :: (a ++ c :: b)) in H.
    apply occurs_cons in H. destruct H as [H | H].
    + left. apply (Hstart (x :: a) Hc H).
    + destruct (IH Hc H) as [Ha | Hb]; [left | right; exact Hb].
      apply occurs_tail. exact Ha.
Qed.

Lemma occurs_join w : forall ls,
  w <> [] -> ~ In NL w -> occurs w (join [NL] ls) ->
  exists l, In l ls /\ occurs w l.
Proof.
  intros ls Hne Hnl. induction ls as [|p ls IH]; intros H.
  - destruct H as (pre & post & H). destruct pre; [|discriminate].
    destruct w; [contradiction | discriminate].
  - destruct ls as [|q ls].
    + exists p. split; [left; reflexivity | exact H].
    + change (join [NL] (p :: q :: ls)) with (p ++ NL :: join [NL] (q :: ls)) in H.
      apply occurs_app_sep in H; [|exact Hnl].
      destruct H as [H | H].
      * exists p. split; [left; reflexivity | exact H].
      * destruct (IH H) as (l & Hin & Hl). exists l. split; [right|]; assumption.
Qed.

Lemma split_lines_aux_occurs l : forall s cur,
  In l (split_lines_aux cur s) -> occurs l (rev cur ++ s).
Proof.
  induction s as [|c s IH]; intros cur H.
  - destruct H as [<- | []]. exists [], []. rewrite !app_nil_r. reflexivity.
  - cbn [split_lines_aux] in H. destruct (c =? NL)%N.
    + destruct H as [<- | H].
      * exists [], (c :: s). reflexivity.
      * apply IH in H. destruct H as (pre & post & H). simpl in H.
        exists (rev cur ++ c :: pre), post. rewrite H, <- app_assoc. reflexivity.
    + apply IH in H. simpl in H. rewrite <- app_assoc in H. exact H.
Qed.

Lemma drop_defs_sublist l : forall lines skip_def,
  In l (drop_defs U lines skip_def) -> In l lines.
Proof.
  induction lines as [|x lines IH]; intros skip_def H; [exact H|].
  cbn [drop_defs] in H. cbv zeta in H.
  match type of H with
  | In _ (if ?b then _ else _) => destruct b
  end.
  - right. eapply IH. exact H.
  - destruct H as [<- | H]; [left; reflexivity | right; eapply IH; exact H].
Qed.

Lemma occurs_trans w l s : occurs w l -> occurs l s -> occurs w s.
Proof.
  intros (a & b & ->) (pre & post & ->).
  exists (pre ++ a), (b ++ post). rewrite <- !app_assoc. reflexivity.
Qed.

Lemma clean_output_structure_no_fence result :
  no_fence (clean_output_structure U result).
Proof.
  assert (Hline : forall re s,
            (exists re0, re = re0 ++ [Eol]) ->
            no_fence s -> no_fence (delete_all re s)).
  { intros re s [re0 ->] Hs. unfold delete_all.
    apply (delete_line_pattern (re0 ++ [Eol])) with (n := length s);
      [|lia | exact Hs].
    intros prev x r Hm. apply m_ends_at_eol in Hm.
    rewrite Nat.sub_0_r in Hm. apply Hm. }
  unfold clean_output_structure. cbv zeta.
  intros Hocc. apply strip_occurs in Hocc.
  apply occurs_join in Hocc.
  - destruct Hocc as (l & Hin & Hl).
    apply drop_defs_sublist in Hin. apply split_lines_aux_occurs in Hin.
    pose proof (occurs_trans _ _ _ Hl Hin) as Hf. revert Hf.
    change (no_fence
              (delete_all (FROM_IMPORT_LINE U)
                 (delete_all (IMPORT_LINE U)
                    (delete_all FENCE (delete_all (FENCE_OPEN U) result))))).
    apply Hline.
    { eexists. unfold FROM_IMPORT_LINE.
      change [Many any_but_newline true; Eol]
        with ([Many any_but_newline true] ++ [Eol]).
      rewrite !app_assoc. reflexivity. }
    apply Hline.
    { eexists. unfold IMPORT_LINE.
      change [Many any_but_newline true; Eol]
        with ([Many any_but_newline true] ++ [Eol]).
      rewrite !app_assoc. reflexivity. }
    apply (delete_fence_no_fence
             (length (delete_all (FENCE_OPEN U) result))).
    lia.
  - discriminate.
  - intros Hin. simpl in Hin.
    repeat (destruct Hin as [Hin | Hin]; [discriminate|]). destruct Hin.
Qed.
End Fences.

(** X29.  The cleaned output of a plan never contains a markdown fence
    (three backticks in a row): deleting the fences leaves none, and
    deleting import lines and the lines of other definitions and stripping
    cannot bring three backticks together.  Nor does the cleaned output
    start or end with a whitespace character. *)
Theorem cleaned_output_has_no_fence (U : unicode) (result : str) :
  ~ occurs (lit "```") (Heuristics.clean_output_structure U result) /\
  forall c,
    head (Heuristics.clean_output_structure U result) = Some c \/
    last (Heuristics.clean_output_structure U result) = Some c ->
    is_space U c = false.
Proof.
  split.
  - apply clean_output_structure_no_fence.
  - intros c. unfold Heuristics.clean_output_structure. apply strip_ends.
Qed.

Lemma cleaned_output_has_no_fence_witness :
  Heuristics.clean_output_structure ascii_only (lit "```  4 ```") = lit "4" /\
  is_space ascii_only 52%N = false.
Proof.
  split; [vm_compute; reflexivity|].
  apply (proj2 (cleaned_output_has_no_fence ascii_only (lit "```  4 ```")) 52%N).
  left. vm_compute. reflexivity.
Defined.
